(** * Bluesky mass-block tool: the batch engines of
      [block_followers.py] and [blocklist.py]

    A shallow embedding of the two scripts.  The Python code is
    sequential and effectful: it sleeps, reads the wall clock, sends
    requests, writes a state file and can be stopped with Ctrl-C.  All
    of this is threaded through one explicit [World]; whatever the
    program cannot control (the replies of the service, how long an
    operation takes, when Ctrl-C is pressed) is read from an
    environment [Env].

    Conventions.
    - Time is an integer number of microseconds, the resolution of
      [datetime.now()].  The same clock serves [datetime.now()] and
      [time.sleep]; it never runs backwards.
    - A blocking operation (a sleep, a request, a write of the state
      file) takes the time it asks for plus a non-negative extra picked
      by the environment, and is where a [KeyboardInterrupt] lands.
      Ctrl-C can arrive during any of them, any number of times.
    - Writing the state file succeeds unless interrupted; [json.dump]
      followed by [json.load] gives the document back.
    - Console output is kept only where a property speaks about it (the
      diagnostic of [BatchState.load]).
    - What [urlparse] and the directory calls of the client return is
      read from a [Directory], and what the person at the terminal
      types from an [Operator]. *)

From Stdlib Require Import ZArith String Ascii Lia.
From stdpp Require Import base list gmap strings.

Local Open Scope string_scope.
Local Open Scope list_scope.
Local Open Scope Z_scope.

(* ================================================================== *)
(** * Python strings: [str.lower] and the [in] operator               *)
(* ================================================================== *)

Module PyStr.

(** [c.lower()] for an ASCII character. *)
Definition lower_ascii (c : ascii) : ascii :=
  let n := N_of_ascii c in
  if ((65 <=? n) && (n <=? 90))%N then ascii_of_N (n + 32) else c.

(** [s.lower()], on ASCII text. *)
Fixpoint lower (s : string) : string :=
  match s with
  | EmptyString => EmptyString
  | String c s' => String (lower_ascii c) (lower s')
  end.

(** [needle in hay]: [needle] occurs as a contiguous substring. *)
Fixpoint contains (needle hay : string) : bool :=
  if String.prefix needle hay then true
  else match hay with
       | EmptyString => false
       | String _ hay' => contains needle hay'
       end.

End PyStr.

(* ================================================================== *)
(** * Constants of [block_followers.py]                               *)
(* ================================================================== *)

(** One second and one hour, in microseconds. *)
Definition SECOND : Z := 1000000.
Definition HOUR : Z := 3600 * SECOND.

Definition CREATES_PER_HOUR : Z := 1500.
(** [3600 / CREATES_PER_HOUR] seconds = 2.4 s, to the microsecond. *)
Definition DELAY_BETWEEN_CREATES : Z := HOUR / CREATES_PER_HOUR.
(** 0.1 s. *)
Definition DELAY_BETWEEN_REQUESTS : Z := SECOND / 10.
Definition MAX_RETRIES : nat := 5.
(** 30.0 s. *)
Definition INITIAL_BACKOFF : Z := 30 * SECOND.

(* ================================================================== *)
(** * Values exchanged with the service                               *)
(* ================================================================== *)

(** An [AtProtocolError] as the scripts look at it: [e.args] (each
    argument already passed through [str]) and [str(e)]. *)
Record AtProtocolError := {
  args : list string;
  str_e : string
}.

(** What [create_record] does: return, or raise an [AtProtocolError]. *)
Inductive Reply :=
| Created
| Rejected (e : AtProtocolError).

(** A profile view: [.did] and [.handle]. *)
Record Profile := {
  did : string;
  handle : string
}.

(** One entry of [response.likes]; only [.actor] is read. *)
Record Like := { actor : Profile }.

(** A page of a paginated read, or the [AtProtocolError] raised. *)
Inductive Page (A : Type) :=
| PageOk (items : list A) (cursor : option string)
| PageErr (e : AtProtocolError).
Arguments PageOk {A} items cursor.
Arguments PageErr {A} e.

(** [if not cursor]: [None] and the empty string are falsy. *)
Definition truthy (cursor : option string) : bool :=
  match cursor with
  | None => false
  | Some c => negb (String.eqb c "")
  end.

(** [is_rate_limit_error], block_followers.py l.195-203. *)
Definition is_rate_limit_error (error : AtProtocolError) : bool :=
  let error_str := PyStr.lower (str_e error) in
  PyStr.contains "429" error_str
  || PyStr.contains "rate" error_str
  || PyStr.contains "too many" error_str
  || PyStr.contains "ratelimit" error_str.

(** [str(e.args[0]) if e.args else str(e)], block_followers.py l.285. *)
Definition error_text (e : AtProtocolError) : string :=
  match args e with
  | a :: _ => a
  | [] => str_e e
  end.

(** The duplicate test of [add_to_blocklist], block_followers.py l.287. *)
Definition is_duplicate (e : AtProtocolError) : bool :=
  let error_str := error_text e in
  PyStr.contains "duplicate record" (PyStr.lower error_str)
  || PyStr.contains "already exists" (PyStr.lower error_str).

(** The duplicate test of blocklist.py l.157:
    [e.args and 'duplicate record' in str(e.args[0])]. *)
Definition is_duplicate_record (e : AtProtocolError) : bool :=
  match args e with
  | a :: _ => PyStr.contains "duplicate record" a
  | [] => false
  end.

(** Outcome of one candidate: the strings 'added', 'skipped', 'failed'. *)
Inductive Status := added_ | skipped_ | failed_.

(* ================================================================== *)
(** * The persisted document, [BatchState.data]                       *)
(* ================================================================== *)

Record Data := {
  target_did : option string;
  target_handle : option string;
  list_uri : option string;
  followers : list string;
  processed : list string;
  added : Z;
  skipped : Z;
  failed : Z;
  started_at : option Z;
  last_updated : option Z;
  hourly_count : Z;
  hour_started : option Z
}.

(** [BatchState.__init__], l.32-45. *)
Definition init_data : Data := {|
  target_did := None; target_handle := None; list_uri := None;
  followers := []; processed := [];
  added := 0; skipped := 0; failed := 0;
  started_at := None; last_updated := None;
  hourly_count := 0; hour_started := None
|}.

Definition set_processed (v : list string) (d : Data) : Data :=
  {| target_did := target_did d; target_handle := target_handle d;
     list_uri := list_uri d; followers := followers d; processed := v;
     added := added d; skipped := skipped d; failed := failed d;
     started_at := started_at d; last_updated := last_updated d;
     hourly_count := hourly_count d; hour_started := hour_started d |}.

Definition set_added (v : Z) (d : Data) : Data :=
  {| target_did := target_did d; target_handle := target_handle d;
     list_uri := list_uri d; followers := followers d;
     processed := processed d;
     added := v; skipped := skipped d; failed := failed d;
     started_at := started_at d; last_updated := last_updated d;
     hourly_count := hourly_count d; hour_started := hour_started d |}.

Definition set_skipped (v : Z) (d : Data) : Data :=
  {| target_did := target_did d; target_handle := target_handle d;
     list_uri := list_uri d; followers := followers d;
     processed := processed d;
     added := added d; skipped := v; failed := failed d;
     started_at := started_at d; last_updated := last_updated d;
     hourly_count := hourly_count d; hour_started := hour_started d |}.

Definition set_failed (v : Z) (d : Data) : Data :=
  {| target_did := target_did d; target_handle := target_handle d;
     list_uri := list_uri d; followers := followers d;
     processed := processed d;
     added := added d; skipped := skipped d; failed := v;
     started_at := started_at d; last_updated := last_updated d;
     hourly_count := hourly_count d; hour_started := hour_started d |}.

Definition set_last_updated (v : option Z) (d : Data) : Data :=
  {| target_did := target_did d; target_handle := target_handle d;
     list_uri := list_uri d; followers := followers d;
     processed := processed d;
     added := added d; skipped := skipped d; failed := failed d;
     started_at := started_at d; last_updated := v;
     hourly_count := hourly_count d; hour_started := hour_started d |}.

Definition set_hourly (count : Z) (started : option Z) (d : Data) : Data :=
  {| target_did := target_did d; target_handle := target_handle d;
     list_uri := list_uri d; followers := followers d;
     processed := processed d;
     added := added d; skipped := skipped d; failed := failed d;
     started_at := started_at d; last_updated := last_updated d;
     hourly_count := count; hour_started := started |}.

(** The fresh batch set up by [add_followers_to_blocklist], l.443-448,
    at clock reading [t]. *)
Definition new_batch (tdid thandle uri : string) (fs : list Profile)
    (t : Z) : Data :=
  {| target_did := Some tdid; target_handle := Some thandle;
     list_uri := Some uri;
     followers := map did fs; processed := [];
     added := 0; skipped := 0; failed := 0;
     started_at := Some t; last_updated := None;
     hourly_count := 0; hour_started := Some t |}.

(** [BatchState.get_remaining], l.112-115. *)
Definition get_remaining (d : Data) : list string :=
  let processed_set : gset string := list_to_set (processed d) in
  filter (λ x, x ∉ processed_set) (followers d).

(** [BatchState.mark_processed], l.117-125, on the document. *)
Definition mark (x : string) (status : Status) (d : Data) : Data :=
  let d := set_processed (processed d ++ [x]) d in
  match status with
  | added_ => set_added (added d + 1) d
  | skipped_ => set_skipped (skipped d + 1) d
  | failed_ => set_failed (failed d + 1) d
  end.

(* ================================================================== *)
(** * The world the scripts run in                                    *)
(* ================================================================== *)

(** Python exceptions that matter here.  [OSError] stands for itself
    and its subclasses ([IOError] is an alias of it);
    [JSONDecodeError] and [UnicodeDecodeError] are both [ValueError]s,
    unrelated to each other and to [OSError]. *)
Inductive Exception :=
| KeyboardInterrupt
| SystemExit (code : Z)
| JSONDecodeError
| OSError
| UnicodeDecodeError.

Inductive Result (A : Type) :=
| Ok (a : A)
| Raise (e : Exception).
Arguments Ok {A} a.
Arguments Raise {A} e.

(** The state file as [BatchState.load] meets it. *)
Inductive StateFile :=
| Missing       (* no such file: [exists()] is False *)
| Unreadable    (* exists, [open] raises OSError (a directory, no permission) *)
| Undecodable   (* bytes that are not text in the locale's encoding:
                   [f.read()] inside [json.load] raises UnicodeDecodeError *)
| Malformed     (* text that is not JSON (empty, truncated):
                   [json.load] raises JSONDecodeError *)
| Stored (d : Data).  (* a document written by [save] *)

(** Console lines that are kept. *)
Inductive Msg :=
| WarnCouldNotLoad (e : Exception).   (* "Warning: Could not load state file: ..." *)

Record World := {
  data : Data;                     (* [state.data] *)
  file : StateFile;                (* the state file on disk *)
  now : Z;                         (* the clock *)
  tick : nat;                      (* blocking operations started so far *)
  delivered : bool;                (* a Ctrl-C has been delivered *)
  requests : list (string * Z);    (* create requests issued: subject, time *)
  reads : nat;                     (* read requests issued *)
  journal : list Data;             (* [state.data] after each mark_processed *)
  inbox : list (list Profile);     (* pages of followers received so far *)
  console : list Msg
}.

(** Everything outside the program's control. *)
Record Env := {
  reply : nat → Reply;       (* to the i-th create request *)
  followers_page : nat → string → option string → Page Profile;
  likes_page : nat → string → option string → Page Like;
  reposts_page : nat → string → option string → Page Profile;
  extra : nat → N;           (* extra duration of the k-th blocking operation *)
  ctrl_c : nat → bool        (* Ctrl-C arrives during the k-th blocking operation *)
}.

Definition upd_data (f : Data → Data) (w : World) : World :=
  {| data := f (data w); file := file w; now := now w; tick := tick w;
     delivered := delivered w; requests := requests w; reads := reads w;
     journal := journal w; inbox := inbox w;
     console := console w |}.

Definition set_file (v : StateFile) (w : World) : World :=
  {| data := data w; file := v; now := now w; tick := tick w;
     delivered := delivered w; requests := requests w; reads := reads w;
     journal := journal w; inbox := inbox w;
     console := console w |}.

Definition elapse (t : Z) (w : World) : World :=
  {| data := data w; file := file w; now := now w + t; tick := S (tick w);
     delivered := delivered w; requests := requests w; reads := reads w;
     journal := journal w; inbox := inbox w;
     console := console w |}.

Definition deliver (w : World) : World :=
  {| data := data w; file := file w; now := now w; tick := tick w;
     delivered := true; requests := requests w; reads := reads w;
     journal := journal w; inbox := inbox w;
     console := console w |}.

Definition issue (x : string) (w : World) : World :=
  {| data := data w; file := file w; now := now w; tick := tick w;
     delivered := delivered w; requests := requests w ++ [(x, now w)];
     reads := reads w; journal := journal w; inbox := inbox w;
     console := console w |}.

Definition count_read (w : World) : World :=
  {| data := data w; file := file w; now := now w; tick := tick w;
     delivered := delivered w; requests := requests w;
     reads := S (reads w); journal := journal w; inbox := inbox w;
     console := console w |}.

Definition receive (page : list Profile) (w : World) : World :=
  {| data := data w; file := file w; now := now w; tick := tick w;
     delivered := delivered w; requests := requests w; reads := reads w;
     journal := journal w; inbox := inbox w ++ [page];
     console := console w |}.

Definition snapshot (w : World) : World :=
  {| data := data w; file := file w; now := now w; tick := tick w;
     delivered := delivered w; requests := requests w; reads := reads w;
     journal := journal w ++ [data w]; inbox := inbox w;
     console := console w |}.

Definition say (m : Msg) (w : World) : World :=
  {| data := data w; file := file w; now := now w; tick := tick w;
     delivered := delivered w; requests := requests w; reads := reads w;
     journal := journal w; inbox := inbox w;
     console := console w ++ [m] |}.

(** A process starting at clock reading [t]: nothing issued yet. *)
Definition boot (d : Data) (f : StateFile) (t : Z) : World :=
  {| data := d; file := f; now := t; tick := 0; delivered := false;
     requests := []; reads := 0; journal := []; inbox := [];
     console := [] |}.

(** ** The monad of a script: state, and exceptions *)

Definition M (A : Type) : Type := World → Result A * World.

Definition ret {A} (a : A) : M A := λ w, (Ok a, w).

Definition bind {A B} (m : M A) (k : A → M B) : M B :=
  λ w, match m w with
       | (Ok a, w') => k a w'
       | (Raise e, w') => (Raise e, w')
       end.

Definition raise {A} (e : Exception) : M A := λ w, (Raise e, w).

Definition gets {A} (f : World → A) : M A := λ w, (Ok (f w), w).

Definition modify (f : World → World) : M unit := λ w, (Ok tt, f w).

(** [try: m  except <classes picked by h>: handler]. *)
Definition try_except {A} (m : M A) (h : Exception → option (M A)) : M A :=
  λ w, match m w with
       | (Ok a, w') => (Ok a, w')
       | (Raise e, w') =>
           match h e with
           | Some handler => handler w'
           | None => (Raise e, w')
           end
       end.

Declare Scope py_scope.
Delimit Scope py_scope with py.
Notation "x <- m ;; k" := (bind m (λ x, k))
  (at level 100, m at next level, right associativity) : py_scope.
Notation "m ;; k" := (bind m (λ _, k))
  (at level 100, right associativity) : py_scope.
Local Open Scope py_scope.

(** [for x in l: body x]. *)
Fixpoint for_each (l : list string) (body : string → M unit) : M unit :=
  match l with
  | [] => ret tt
  | x :: l' => body x ;; for_each l' body
  end.

Definition sys_exit {A} (code : Z) : M A := raise (SystemExit code).

(* ================================================================== *)
(** * [block_followers.py]                                            *)
(* ================================================================== *)

Section Scripts.

Variable E : Env.
(** [client.me.did], the identity that logged in. *)
Variable me : string.

(** ** Primitive operations *)

(** An operation that blocks for [d], plus what the environment adds;
    a Ctrl-C that arrives meanwhile cuts it short and raises. *)
Definition blocking (d : Z) : M unit :=
  λ w,
    let k := tick w in
    if ctrl_c E k
    then (Raise KeyboardInterrupt, deliver (elapse (Z.of_N (extra E k)) w))
    else (Ok tt, elapse (d + Z.of_N (extra E k)) w).

(** [time.sleep(d)]. *)
Definition sleep (d : Z) : M unit := blocking d.

(** [client.com.atproto.repo.create_record(...)] with [subject = x]:
    the request leaves at the current time; the reply is the
    environment's for this request. *)
Definition create_record (x : string) : M Reply :=
  i <- gets (λ w, length (requests w)) ;;
  modify (issue x) ;;
  blocking 0 ;;
  ret (reply E i).

(** [client.get_followers(actor, cursor, limit=100)]; a page that
    arrives is noted in the inbox. *)
Definition get_followers (actor : string) (cursor : option string)
    : M (Page Profile) :=
  i <- gets reads ;;
  modify count_read ;;
  blocking 0 ;;
  match followers_page E i actor cursor with
  | PageOk fs cursor' => modify (receive fs) ;; ret (PageOk fs cursor')
  | PageErr e => ret (PageErr e)
  end.

(** [client.get_likes(uri, cursor)]. *)
Definition get_likes (uri : string) (cursor : option string)
    : M (Page Like) :=
  i <- gets reads ;;
  modify count_read ;;
  blocking 0 ;;
  ret (likes_page E i uri cursor).

(** [client.get_reposted_by(uri, cursor)]. *)
Definition get_reposted_by (uri : string) (cursor : option string)
    : M (Page Profile) :=
  i <- gets reads ;;
  modify count_read ;;
  blocking 0 ;;
  ret (reposts_page E i uri cursor).

(** ** [BatchState] *)

(** [exists()] on the state file. *)
Definition file_exists (f : StateFile) : bool :=
  match f with
  | Missing => false
  | _ => true
  end.

(** [with open(self.state_file, "r") as f: json.load(f)]. *)
Definition read_json : M Data :=
  λ w, match file w with
       | Stored d => (Ok d, w)
       | Malformed => (Raise JSONDecodeError, w)
       | Undecodable => (Raise UnicodeDecodeError, w)
       | Unreadable => (Raise OSError, w)
       | Missing => (Raise OSError, w)
       end.

(** [BatchState.load], l.47-57. *)
Definition load : M bool :=
  present <- gets (λ w, file_exists (file w)) ;;
  if present then
    try_except
      (d <- read_json ;;
       modify (upd_data (λ _, d)) ;;
       ret true)
      (λ e, match e with
            | JSONDecodeError | OSError =>
                Some (modify (say (WarnCouldNotLoad e)) ;; ret false)
            | _ => None
            end)
  else ret false.

(** [BatchState.save], l.59-63: opening for writing truncates the
    file, [json.dump] then fills it. *)
Definition save : M unit :=
  t <- gets now ;;
  modify (upd_data (set_last_updated (Some t))) ;;
  modify (set_file Malformed) ;;
  blocking 0 ;;
  d <- gets data ;;
  modify (set_file (Stored d)).

(** [BatchState.reset_hourly_if_needed], l.65-73. *)
Definition reset_hourly_if_needed : M unit :=
  d <- gets data ;;
  t <- gets now ;;
  match hour_started d with
  | Some hs =>
      if HOUR <=? t - hs
      then modify (upd_data (set_hourly 0 (Some t)))
      else ret tt
  | None => modify (upd_data (set_hourly (hourly_count d) (Some t)))
  end.

(** [BatchState.can_proceed], l.75-78. *)
Definition can_proceed : M bool :=
  reset_hourly_if_needed ;;
  d <- gets data ;;
  ret (hourly_count d <? CREATES_PER_HOUR).

(** The chunked wait of l.96-101; returns the final [wait_seconds].
    [n] bounds the number of rounds. *)
Fixpoint wait_chunks (n : nat) (wait_seconds : Z) : M Z :=
  match n with
  | O => ret wait_seconds
  | S n' =>
      if 0 <? wait_seconds then
        let chunk := Z.min (60 * SECOND) wait_seconds in
        sleep chunk ;;
        wait_chunks n' (wait_seconds - chunk)
      else ret wait_seconds
  end.

(** Rounds the loop of l.96 makes from [wait_seconds]. *)
Definition chunks_needed (wait_seconds : Z) : nat :=
  Z.to_nat ((wait_seconds + 60 * SECOND - 1) / (60 * SECOND)).

(** [BatchState.wait_for_next_hour], l.80-106. *)
Definition wait_for_next_hour : M unit :=
  d <- gets data ;;
  match hour_started d with
  | None => ret tt
  | Some hs =>
      t <- gets now ;;
      let next_hour := hs + HOUR in
      let wait_seconds := next_hour - t in
      if 0 <? wait_seconds then
        wait_chunks (chunks_needed wait_seconds) wait_seconds ;;
        t' <- gets now ;;
        modify (upd_data (set_hourly 0 (Some t'))) ;;
        save
      else ret tt
  end.

(** [BatchState.increment_hourly], l.108-110. *)
Definition increment_hourly : M unit :=
  modify (upd_data (λ d, set_hourly (hourly_count d + 1) (hour_started d) d)).

(** [BatchState.mark_processed], l.117-125; the journal keeps the
    document as it stands afterwards. *)
Definition mark_processed (x : string) (status : Status) : M unit :=
  modify (upd_data (mark x status)) ;;
  modify snapshot.

(** ** [fetch_all_followers], l.206-248

    [while True] is unrolled at most [fuel] times; [None] says the
    loop was still running then. *)
Fixpoint fetch_all_followers_loop (fuel : nat) (target_did : string)
    (all_followers : list Profile) (cursor : option string)
    (retries : nat) : M (option (list Profile)) :=
  match fuel with
  | O => ret None
  | S fuel' =>
      sleep DELAY_BETWEEN_REQUESTS ;;
      response <- get_followers target_did cursor ;;
      match response with
      | PageOk fs cursor' =>
          let all_followers := all_followers ++ fs in
          if truthy cursor'
          then fetch_all_followers_loop fuel' target_did all_followers cursor' 0
          else ret (Some all_followers)
      | PageErr e =>
          if is_rate_limit_error e then
            let retries := S retries in
            if (MAX_RETRIES <=? retries)%nat then ret (Some all_followers)
            else
              sleep (INITIAL_BACKOFF * 2 ^ (Z.of_nat retries - 1)) ;;
              fetch_all_followers_loop fuel' target_did all_followers cursor retries
          else ret (Some all_followers)
      end
  end.

Definition fetch_all_followers (fuel : nat) (target_did : string)
    : M (option (list Profile)) :=
  fetch_all_followers_loop fuel target_did [] None 0.

(** ** [add_to_blocklist], l.251-301

    [while retries < MAX_RETRIES]; each round that loops again has
    raised [retries], so [MAX_RETRIES] rounds are all there can be:
    [add_to_blocklist] below starts the loop with that many. *)
Fixpoint add_attempts (rounds : nat) (x : string) (retries : nat)
    : M Status :=
  match rounds with
  | O => ret failed_
  | S rounds' =>
      if (retries <? MAX_RETRIES)%nat then
        r <- create_record x ;;
        match r with
        | Created => ret added_
        | Rejected e =>
            if is_duplicate e then ret skipped_
            else if is_rate_limit_error e then
              let retries := S retries in
              if (MAX_RETRIES <=? retries)%nat then ret failed_
              else
                sleep (INITIAL_BACKOFF * 2 ^ (Z.of_nat retries - 1)) ;;
                add_attempts rounds' x retries
            else ret failed_
        end
      else ret failed_
  end.

Definition add_to_blocklist (x : string) : M Status :=
  add_attempts MAX_RETRIES x 0.

(** ** [run_batch_process], l.304-373 *)

(** The body of the [for did in remaining] loop, l.323-360. *)
Definition process_one (x : string) : M unit :=
  ok <- can_proceed ;;
  (if ok then ret tt else (save ;; wait_for_next_hour)) ;;
  if String.eqb x me then
    mark_processed x skipped_ ;;
    save
  else
    sleep DELAY_BETWEEN_CREATES ;;
    status <- add_to_blocklist x ;;
    mark_processed x status ;;
    increment_hourly ;;
    current <- gets (λ w, length (processed (data w))) ;;
    if (current mod 10 =? 0)%nat then save else ret tt.

(** The [except KeyboardInterrupt] clause, l.362-370. *)
Definition on_interrupt (e : Exception) : option (M unit) :=
  match e with
  | KeyboardInterrupt => Some (save ;; sys_exit 0)
  | _ => None
  end.

Definition run_batch_process : M unit :=
  remaining <- gets (λ w, get_remaining (data w)) ;;
  try_except (for_each remaining process_one) on_interrupt ;;
  save.

End Scripts.

(* ================================================================== *)
(** * [blocklist.py]                                                  *)
(* ================================================================== *)

(** A Python [dict] keeps its keys in insertion order; assigning to a
    key that is present replaces the value where the key stands. *)
Fixpoint dict_set (k : string) (v : Profile) (d : list (string * Profile))
    : list (string * Profile) :=
  match d with
  | [] => [(k, v)]
  | (k', v') :: d' =>
      if String.eqb k' k then (k', v) :: d'
      else (k', v') :: dict_set k v d'
  end.

(** [{user.did: user for user in users}], blocklist.py l.126. *)
Definition dict_of_users (users : list Profile) : list (string * Profile) :=
  fold_left (λ d user, dict_set (did user) user d) users [].

(** The three tallies of [add_interactors_to_blocklist], l.129-131. *)
Record Counts := {
  added_count : Z;
  skipped_count : Z;
  failed_count : Z
}.

Definition no_counts : Counts :=
  {| added_count := 0; skipped_count := 0; failed_count := 0 |}.

Section Blocklist.

Variable E : Env.
Variable me : string.

Local Open Scope py_scope.

(** The likes loop, l.94-107; [None]: still running after [fuel] pages. *)
Fixpoint fetch_likers (fuel : nat) (post_uri : string)
    (all_liker_profiles : list Profile) (cursor : option string)
    : M (option (list Profile)) :=
  match fuel with
  | O => ret None
  | S fuel' =>
      response <- get_likes E post_uri cursor ;;
      match response with
      | PageOk likes cursor' =>
          let all_liker_profiles := all_liker_profiles ++ map actor likes in
          if truthy cursor'
          then fetch_likers fuel' post_uri all_liker_profiles cursor'
          else ret (Some all_liker_profiles)
      | PageErr _ => ret (Some all_liker_profiles)
      end
  end.

(** The reposts loop, l.111-123. *)
Fixpoint fetch_reposters (fuel : nat) (post_uri : string)
    (all_reposters : list Profile) (cursor : option string)
    : M (option (list Profile)) :=
  match fuel with
  | O => ret None
  | S fuel' =>
      response <- get_reposted_by E post_uri cursor ;;
      match response with
      | PageOk reposted_by cursor' =>
          let all_reposters := all_reposters ++ reposted_by in
          if truthy cursor'
          then fetch_reposters fuel' post_uri all_reposters cursor'
          else ret (Some all_reposters)
      | PageErr _ => ret (Some all_reposters)
      end
  end.

(** The loop over [interactors.items()], l.133-162. *)
Fixpoint add_interactors (items : list (string * Profile)) (c : Counts)
    : M Counts :=
  match items with
  | [] => ret c
  | (x, user_profile) :: rest =>
      if String.eqb x me then add_interactors rest c
      else
        r <- create_record E x ;;
        match r with
        | Created =>
            add_interactors rest
              {| added_count := added_count c + 1;
                 skipped_count := skipped_count c;
                 failed_count := failed_count c |}
        | Rejected e =>
            if is_duplicate_record e then
              add_interactors rest
                {| added_count := added_count c;
                   skipped_count := skipped_count c + 1;
                   failed_count := failed_count c |}
            else
              add_interactors rest
                {| added_count := added_count c;
                   skipped_count := skipped_count c;
                   failed_count := failed_count c + 1 |}
        end
  end.

(** [add_interactors_to_blocklist] from l.93 on (after login and URL
    parsing): returns the interactors and the final tallies. *)
Definition add_interactors_to_blocklist (fuel : nat) (post_uri : string)
    : M (option (list (string * Profile) * Counts)) :=
  likers <- fetch_likers fuel post_uri [] None ;;
  match likers with
  | None => ret None
  | Some all_liker_profiles =>
      reposters <- fetch_reposters fuel post_uri [] None ;;
      match reposters with
      | None => ret None
      | Some all_reposters =>
          let interactors := dict_of_users (all_liker_profiles ++ all_reposters) in
          c <- add_interactors interactors no_counts ;;
          ret (Some (interactors, c))
      end
  end.

End Blocklist.

(* ================================================================== *)
(** * Vocabulary of the properties                                    *)
(* ================================================================== *)

(** [hoare P m Q X]: started in a world satisfying [P], [m] ends in a
    world satisfying [Q a] when it returns [a] and [X e] when it raises
    [e].  Scripts are total functions, so this is total correctness. *)
Definition hoare {A} (P : World → Prop) (m : M A)
    (Q : A → World → Prop) (X : Exception → World → Prop) : Prop :=
  ∀ w, P w →
    match m w with
    | (Ok a, w') => Q a w'
    | (Raise e, w') => X e w'
    end.

(** [m] keeps [I] when it returns and ends in [X] when it raises. *)
Definition keeping {A} (I X : World → Prop) (m : M A) : Prop :=
  hoare I m (λ _, I) (λ _, X).

(** [m] keeps [I], however it ends. *)
Abbreviation preserves I m := (keeping I I m).

(** [m] keeps [I] and does not raise. *)
Abbreviation steady I m := (keeping I (λ _, False) m).

(** [added + skipped + failed == len(processed)] and
    [processed ⊆ followers]. *)
Definition tally (d : Data) : Prop :=
  added d + skipped d + failed d = Z.of_nat (length (processed d))
  ∧ processed d ⊆ followers d.

#[global] Instance tally_dec d : Decision (tally d).
Proof. unfold tally. apply _. Defined.

(** The invariant of a run over the candidates [F]. *)
Definition tally_inv (F : list string) (w : World) : Prop :=
  followers (data w) = F ∧ tally (data w) ∧ Forall tally (journal w).

(** Every create request issued so far has a subject satisfying [Φ]. *)
Definition subjects (Φ : string → Prop) (w : World) : Prop :=
  Forall (λ r, Φ r.1) (requests w).

(** No Ctrl-C is ever pressed. *)
Definition calm (E : Env) : Prop := ∀ k, ctrl_c E k = false.

(** What a run has recorded and sent: the candidates, the processed
    ids, the three tallies, and the subjects of the create requests. *)
Definition ledger (w : World)
    : list string * list string * Z * Z * Z * list string :=
  (followers (data w), processed (data w),
   added (data w), skipped (data w), failed (data w),
   map fst (requests w)).

(** A view of the world is [inert] when time, Ctrl-C, the state file
    and the bookkeeping fields of the document do not show in it. *)
Record inert {T} (view : World → T) : Prop := {
  inert_elapse t w : view (elapse t w) = view w;
  inert_deliver w : view (deliver w) = view w;
  inert_file f w : view (set_file f w) = view w;
  inert_updated v w : view (upd_data (set_last_updated v) w) = view w;
  inert_hourly c s w : view (upd_data (set_hourly c s) w) = view w
}.

(** The ledger after the outcome [st] of [x] is recorded. *)
Definition recorded (x : string) (st : Status)
    (v : list string * list string * Z * Z * Z * list string) :=
  let '(F, p, a, s, f, r) := v in
  match st with
  | added_ => (F, p ++ [x], a + 1, s, f, r)
  | skipped_ => (F, p ++ [x], a, s + 1, f, r)
  | failed_ => (F, p ++ [x], a, s, f + 1, r)
  end.

(** A reply that [add_to_blocklist] answers with a retry, if it has
    retries left: an error that is no duplicate and looks like a rate
    limit. *)
Definition rate_limited (rp : Reply) : Prop :=
  match rp with
  | Rejected e => is_duplicate e = false ∧ is_rate_limit_error e = true
  | Created => False
  end.

(** What the round of [add_to_blocklist] entered with [retries] makes
    of a reply: the status it returns, or [None] when it sleeps and
    goes round again. *)
Definition settles (rp : Reply) (retries : nat) : option Status :=
  match rp with
  | Created => Some added_
  | Rejected e =>
      if is_duplicate e then Some skipped_
      else if is_rate_limit_error e then
        if (MAX_RETRIES <=? S retries)%nat then Some failed_ else None
      else Some failed_
  end.

(** The ledger after create requests for [xs] were sent. *)
Definition sent (xs : list string)
    (v : list string * list string * Z * Z * Z * list string) :=
  let '(F, p, a, s, f, r) := v in (F, p, a, s, f, r ++ xs).

(** When the create requests were issued, oldest first. *)
Definition times (w : World) : list Z := map snd (requests w).

(** Every two of the times are at least [g] apart, in order. *)
Fixpoint spaced (g : Z) (ts : list Z) : Prop :=
  match ts with
  | [] => True
  | t :: ts' => Forall (λ u, t + g ≤ u) ts' ∧ spaced g ts'
  end.

(** The requests are paced and lie in the past. *)
Definition paced (w : World) : Prop :=
  spaced DELAY_BETWEEN_CREATES (times w) ∧ Forall (λ u, u ≤ now w) (times w).

(** The last request is at least [DELAY_BETWEEN_CREATES] old. *)
Definition rested (w : World) : Prop :=
  spaced DELAY_BETWEEN_CREATES (times w)
  ∧ Forall (λ u, u + DELAY_BETWEEN_CREATES ≤ now w) (times w).

(** The create requests issued in the hour that starts at [s]. *)
Definition in_hour_from (s : Z) (w : World) : list Z :=
  filter (λ t, s ≤ t < s + HOUR) (times w).

(** [d.get(k)]. *)
Fixpoint dict_get (k : string) (d : list (string * Profile)) : option Profile :=
  match d with
  | [] => None
  | (k', v) :: d' => if String.eqb k' k then Some v else dict_get k d'
  end.

(** The keys of a dict, in iteration order. *)
Definition keys (d : list (string * Profile)) : list string := map fst d.

(** The profile a dict comprehension ends with for the key [x]: the
    last user with that id. *)
Fixpoint last_with (x : string) (users : list Profile) : option Profile :=
  match users with
  | [] => None
  | u :: users' =>
      match last_with x users' with
      | Some u' => Some u'
      | None => if String.eqb (did u) x then Some u else None
      end
  end.

(** The first user with that id. *)
Fixpoint first_with (x : string) (users : list Profile) : option Profile :=
  match users with
  | [] => None
  | u :: users' => if String.eqb (did u) x then Some u else first_with x users'
  end.

(* ================================================================== *)
(** * References, URLs and the orchestrator                           *)
(* ================================================================== *)

(** More of Python's [str], on ASCII text. *)
Module PyText.

(** [s.startswith(p)]. *)
Definition startswith (p s : string) : bool := String.prefix p s.

(** [s.lstrip(chars)], [chars] given as a test on characters. *)
Fixpoint lstrip (p : ascii → bool) (s : string) : string :=
  match s with
  | EmptyString => EmptyString
  | String c s' => if p c then lstrip p s' else s
  end.

(** [s.rstrip(chars)]. *)
Fixpoint rstrip (p : ascii → bool) (s : string) : string :=
  match s with
  | EmptyString => EmptyString
  | String c s' =>
      match rstrip p s' with
      | EmptyString => if p c then EmptyString else String c EmptyString
      | r => String c r
      end
  end.

(** [s.strip(chars)]. *)
Definition strip (p : ascii → bool) (s : string) : string :=
  rstrip p (lstrip p s).

Definition is_slash (c : ascii) : bool := Ascii.eqb c "/".

(** The characters [str.strip()] removes: space, tab, newline,
    vertical tab, form feed, carriage return and the four separators
    0x1c to 0x1f. *)
Definition is_space (c : ascii) : bool :=
  let n := N_of_ascii c in
  (n =? 32)%N || ((9 <=? n) && (n <=? 13))%N || ((28 <=? n) && (n <=? 31))%N.

(** [s.split(sep)] for a one-character [sep]: never empty; an empty
    string gives one empty part. *)
Fixpoint split (sep : ascii) (s : string) : list string :=
  match s with
  | EmptyString => [EmptyString]
  | String c s' =>
      if Ascii.eqb c sep then EmptyString :: split sep s'
      else match split sep s' with
           | part :: parts => String c part :: parts
           | [] => [String c EmptyString]
           end
  end.

(** [sep not in s]. *)
Fixpoint lacks (sep : ascii) (s : string) : bool :=
  match s with
  | EmptyString => true
  | String c s' => negb (Ascii.eqb c sep) && lacks sep s'
  end.

End PyText.

(** The lookups behind a reference: [urlparse(url).path], and the two
    directory calls of the client, each returning or raising an
    [AtProtocolError]. *)
Record Directory := {
  url_path : string → string;
  resolve_handle : string → AtProtocolError + string;
  get_profile : string → AtProtocolError + Profile
}.

(** A value, or the [ValueError] raised instead. *)
Inductive Checked (A : Type) :=
| Fine (a : A)
| ValueError (message : string).
Arguments Fine {A} a.
Arguments ValueError {A} message.

Module Resolver.

Section Resolver.

Variable D : Directory.

(** [urlparse(url).path.strip("/").split("/")]. *)
Definition path_parts_of (url : string) : list string :=
  PyText.split "/" (PyText.strip PyText.is_slash (url_path D url)).

(** [resolve_user_did] from l.155 on: a DID is looked up for its
    profile, anything else is resolved as a handle. *)
Definition resolve_reference (handle_or_did : string)
    : Checked (string * string) :=
  if PyText.startswith "did:" handle_or_did then
    match get_profile D handle_or_did with
    | inr profile => Fine (did profile, handle profile)
    | inl e =>
        ValueError
          (String.append "Could not resolve DID '"
             (String.append handle_or_did
                (String.append "': " (str_e e))))
    end
  else
    match resolve_handle D handle_or_did with
    | inr response_did => Fine (response_did, handle_or_did)
    | inl e =>
        ValueError
          (String.append "Could not resolve handle '"
             (String.append handle_or_did
                (String.append "': " (str_e e))))
    end.

(** [resolve_user_did], block_followers.py l.133-166. *)
Definition resolve_user_did (user_input : string) : Checked (string * string) :=
  if PyText.startswith "http://" user_input
     || PyText.startswith "https://" user_input
  then
    let path_parts := path_parts_of user_input in
    if (length path_parts <? 2)%nat
       || negb (String.eqb (nth 0 path_parts "") "profile")
    then
      ValueError
        (String.append "Invalid Bluesky profile URL format: " user_input)
    else resolve_reference (nth 1 path_parts "")
  else resolve_reference user_input.

(** The owner of a list or post URL, l.182-189 (and blocklist.py
    l.40-47): a DID stands for itself, a handle is resolved. *)
Definition owner_did (handle_or_did : string) : Checked string :=
  if PyText.startswith "did:" handle_or_did then Fine handle_or_did
  else
    match resolve_handle D handle_or_did with
    | inr response_did => Fine response_did
    | inl e =>
        ValueError
          (String.append "Could not resolve handle '"
             (String.append handle_or_did
                (String.append "': " (str_e e))))
    end.

(** [f"at://{did}/{nsid}/{rkey}"]. *)
Definition at_uri (owner nsid rkey : string) : string :=
  String.append "at://"
    (String.append owner
       (String.append "/" (String.append nsid (String.append "/" rkey)))).

(** [parse_list_url_to_uri], block_followers.py l.169-192. *)
Definition parse_list_url_to_uri (url : string) : Checked (string * string) :=
  let path_parts := path_parts_of url in
  if negb (length path_parts =? 4)%nat
     || negb (String.eqb (nth 0 path_parts "") "profile")
     || negb (String.eqb (nth 2 path_parts "") "lists")
  then ValueError (String.append "Invalid Bluesky List URL format: " url)
  else
    let handle_or_did := nth 1 path_parts "" in
    let rkey := nth 3 path_parts "" in
    match owner_did handle_or_did with
    | ValueError m => ValueError m
    | Fine owner => Fine (at_uri owner "app.bsky.graph.list" rkey, owner)
    end.

(** [parse_url_to_uri], blocklist.py l.8-56. *)
Definition parse_url_to_uri (url : string) : Checked (string * string) :=
  let path_parts := path_parts_of url in
  if (length path_parts <? 3)%nat
     || negb (String.eqb (nth 0 path_parts "") "profile")
  then ValueError (String.append "Invalid Bluesky URL format: " url)
  else
    let handle_or_did := nth 1 path_parts "" in
    let record_type_short := nth 2 path_parts "" in
    if String.eqb record_type_short "lists" then
      if negb (length path_parts =? 4)%nat
      then ValueError (String.append "Invalid Bluesky List URL format: " url)
      else
        match owner_did handle_or_did with
        | ValueError m => ValueError m
        | Fine owner =>
            Fine (at_uri owner "app.bsky.graph.list" (nth 3 path_parts ""), owner)
        end
    else if String.eqb record_type_short "post" then
      if negb (length path_parts =? 4)%nat
      then ValueError (String.append "Invalid Bluesky Post URL format: " url)
      else
        match owner_did handle_or_did with
        | ValueError m => ValueError m
        | Fine owner =>
            Fine (at_uri owner "app.bsky.feed.post" (nth 3 path_parts ""), owner)
        end
    else
      ValueError
        (String.append "Unsupported record type '"
           (String.append record_type_short "' in URL.")).

(** [list_uri.split("/")[2]], the owner a resumed batch reads back
    from the persisted list URI, l.460; [None] when there is no third
    part (an [IndexError]). *)
Definition owner_of_list_uri (list_uri : string) : option string :=
  nth_error (PyText.split "/" list_uri) 2.

End Resolver.

End Resolver.

(** The person at the terminal: whether [client.login] fails, and the
    answer typed at each of the four prompts of
    [add_followers_to_blocklist]. *)
Record Operator := {
  login_error : option AtProtocolError;
  resume_answer : string;     (* "Resume this batch? (y/n/restart): " *)
  owner_answer : string;      (* "Continue anyway? (y/n): " *)
  proceed_answer : string;    (* "Proceed with blocking? (y/n): " *)
  delete_answer : string      (* "Delete state file? (y/n): " *)
}.

(** How [add_followers_to_blocklist] ends when it returns or dies of
    an exception that [Exception] does not list. *)
Inductive Ending :=
| Completed                   (* "Done!" *)
| NothingToDo                 (* "No followers found. Nothing to do." *)
| StillFetching               (* the followers loop was still running *)
| Crashed (exception : string).

(** The assignments of l.443-448 on the document at hand, at clock
    reading [t]. *)
Definition begin_batch (tdid thandle uri : string) (fs : list Profile)
    (t : Z) (d : Data) : Data :=
  {| target_did := Some tdid; target_handle := Some thandle;
     list_uri := Some uri;
     followers := map did fs; processed := processed d;
     added := added d; skipped := skipped d; failed := failed d;
     started_at := Some t; last_updated := last_updated d;
     hourly_count := hourly_count d; hour_started := Some t |}.

Module Orchestrator.

Section Orchestrator.

Variable E : Env.
Variable me : string.
Variable D : Directory.
Variable O : Operator.

Local Open Scope py_scope.

(** [BatchState.delete], l.127-130; [unlink] is taken to succeed on
    a file that exists. *)
Definition delete : M unit :=
  present <- gets (λ w, file_exists (file w)) ;;
  if present then modify (set_file Missing) else ret tt.

(** [input(...).lower() == "y"]. *)
Definition yes (answer : string) : bool :=
  String.eqb (PyStr.lower answer) "y".

(** From "Run the batch process" to "Done!", l.465-479. *)
Definition run_and_clean_up : M Ending :=
  run_batch_process E me ;;
  (if yes (delete_answer O) then delete else ret tt) ;;
  ret Completed.

(** The setup of a new batch, l.412-456. *)
Definition set_up_batch (fuel : nat) (target_user list_url : string)
    : M Ending :=
  match Resolver.resolve_user_did D target_user with
  | ValueError _ => sys_exit 1
  | Fine (tdid, thandle) =>
      match Resolver.parse_list_url_to_uri D list_url with
      | ValueError _ => sys_exit 1
      | Fine (uri, list_owner_did) =>
          (if negb (String.eqb me list_owner_did) then
             if yes (owner_answer O) then ret tt else sys_exit 0
           else ret tt) ;;
          fetched <- fetch_all_followers E fuel tdid ;;
          match fetched with
          | None => ret StillFetching
          | Some [] => ret NothingToDo
          | Some fs =>
              if yes (proceed_answer O) then
                t <- gets now ;;
                modify (upd_data (begin_batch tdid thandle uri fs t)) ;;
                save E ;;
                run_and_clean_up
              else sys_exit 0
          end
      end
  end.

(** Resuming, l.457-463: the list and its owner come from the
    document. *)
Definition resume_batch : M Ending :=
  d <- gets data ;;
  match list_uri d with
  | None => ret (Crashed "AttributeError")
  | Some uri =>
      match Resolver.owner_of_list_uri uri with
      | None => ret (Crashed "IndexError")
      | Some _ => run_and_clean_up
      end
  end.

(** From "# Login" on, l.401-479. *)
Definition log_in_and_run (fuel : nat) (target_user list_url : string)
    : M Ending :=
  match login_error O with
  | Some _ => sys_exit 1
  | None =>
      d <- gets data ;;
      if negb (truthy (target_did d))
      then set_up_batch fuel target_user list_url
      else resume_batch
  end.

(** [input("Resume this batch? (y/n/restart): ").lower().strip()]. *)
Definition choice : string :=
  PyText.strip PyText.is_space (PyStr.lower (resume_answer O)).

(** [add_followers_to_blocklist], l.376-479, with the followers loop
    unrolled at most [fuel] times. *)
Definition add_followers_to_blocklist (fuel : nat)
    (target_user list_url : string) : M Ending :=
  modify (upd_data (λ _, init_data)) ;;
  loaded <- load ;;
  (if loaded then
     if String.eqb choice "restart" then
       delete ;; modify (upd_data (λ _, init_data))
     else if negb (String.eqb choice "y") then sys_exit 0
     else ret tt
   else ret tt) ;;
  log_in_and_run fuel target_user list_url.

End Orchestrator.

End Orchestrator.

Module Interactors.

Section Interactors.

Variable E : Env.
Variable me : string.
Variable D : Directory.
Variable O : Operator.

Local Open Scope py_scope.

(** [add_interactors_to_blocklist], blocklist.py l.58-168: login
    and the two URLs of l.68-91, then the part from l.93 on. *)
Definition add_interactors_to_blocklist (fuel : nat)
    (post_url list_url : string)
    : M (option (list (string * Profile) * Counts)) :=
  match login_error O with
  | Some _ => sys_exit 1
  | None =>
      match Resolver.parse_url_to_uri D post_url with
      | ValueError _ => sys_exit 1
      | Fine (post_uri, _) =>
          match Resolver.parse_url_to_uri D list_url with
          | ValueError _ => sys_exit 1
          | Fine (list_uri, list_owner_did) =>
              (if negb (String.eqb me list_owner_did) then
                 if Orchestrator.yes (owner_answer O) then ret tt
                 else sys_exit 0
               else ret tt) ;;
              add_interactors_to_blocklist E me fuel post_uri
          end
      end
  end.

End Interactors.

End Interactors.

(* ================================================================== *)
(** * More vocabulary                                                 *)
(* ================================================================== *)

(** [ks !! i] consecutive copies of the [i]-th entry of [l], for as
    long as both lists last. *)
Fixpoint bursts (ks : list nat) (l : list string) : list string :=
  match ks, l with
  | k :: ks', x :: l' => replicate k x ++ bursts ks' l'
  | _, _ => []
  end.

(** The service serves [pages] one after the other from read number
    [i] and cursor [cursor] on, each with a cursor to the next; [next]
    says what follows, from which read number and cursor. *)
Fixpoint served (E : Env) (target : string) (i : nat) (cursor : option string)
    (pages : list (list Profile)) (next : nat → option string → Prop) : Prop :=
  match pages with
  | [] => next i cursor
  | p :: ps =>
      ∃ c, followers_page E i target cursor = PageOk p c
           ∧ truthy c = true
           ∧ served E target (S i) c ps next
  end.



(** The entries of [l] in the order of their first appearance. *)
Fixpoint first_occurrences (l : list string) : list string :=
  match l with
  | [] => []
  | x :: l' => x :: filter (λ y, y ≠ x) (first_occurrences l')
  end.

(** [added_count + skipped_count + failed_count]. *)
Definition counted (c : Counts) : Z :=
  added_count c + skipped_count c + failed_count c.

(* ================================================================== *)
(** * Concrete services, accounts and batches                         *)
(* ================================================================== *)

(** A service that answers create requests by [rp], has nothing to
    enumerate, takes a millisecond over every operation, and a user
    who presses Ctrl-C as [stop] says. *)
Definition service (rp : nat → Reply) (stop : nat → bool) : Env :=
  {| reply := rp;
     followers_page := λ _ _ _, PageOk [] None;
     likes_page := λ _ _ _, PageOk [] None;
     reposts_page := λ _ _ _, PageOk [] None;
     extra := λ _, 1000%N;
     ctrl_c := stop |}.

Definition never : nat → bool := λ _, false.

Definition duplicate_error : AtProtocolError :=
  {| args := ["Response(status_code=400, content=XrpcError(error='InvalidRequest', message='duplicate record'))"];
     str_e := "Response(status_code=400, content=XrpcError(error='InvalidRequest', message='duplicate record'))" |}.

Definition rate_limit_error : AtProtocolError :=
  {| args := ["Response(status_code=429, content=XrpcError(error='RateLimitExceeded', message='Rate Limit Exceeded'))"];
     str_e := "Response(status_code=429, content=XrpcError(error='RateLimitExceeded', message='Rate Limit Exceeded'))" |}.

Definition alice : Profile := {| did := "did:plc:alice"; handle := "alice.example" |}.
Definition bob : Profile := {| did := "did:plc:bob"; handle := "bob.example" |}.
Definition carol : Profile := {| did := "did:plc:carol"; handle := "carol.example" |}.
Definition myself : Profile := {| did := "did:plc:me"; handle := "me.example" |}.

(** A fresh batch over alice, the acting identity and carol. *)
Definition small_batch : Data :=
  new_batch "did:plc:target" "target.example"
    "at://did:plc:me/app.bsky.graph.list/3kabc" [alice; myself; carol] 0.

(** The same batch when everyone has been processed. *)
Definition finished_batch : Data :=
  mark "did:plc:carol" added_
    (mark "did:plc:me" skipped_ (mark "did:plc:alice" added_ small_batch)).

(** Five rate-limit errors, then success. *)
Definition five_limits : nat → Reply :=
  λ i, if (i <? 5)%nat then Rejected rate_limit_error else Created.

(** Ctrl-C during the third blocking operation of the run. *)
Definition third : nat → bool := λ k, (k =? 2)%nat.

(** The world in which the loop over [small_batch] is stopped by
    Ctrl-C during its third blocking operation. *)
Definition stopped : World :=
  (for_each (get_remaining small_batch)
     (process_one (service (λ _, Created) third) "did:plc:me")
     (boot small_batch Missing 0)).2.

(** 1501 accounts that liked a post. *)
Definition letter (n : nat) : ascii := ascii_of_nat (97 + n mod 26).

Definition user_did (n : nat) : string :=
  String.append "did:plc:"
    (String (letter (n / 676)) (String (letter (n / 26)) (String (letter n) ""))).

Definition crowd (n : nat) : list Like :=
  map (λ i, {| actor := {| did := user_did i; handle := "user.example" |} |})
    (seq 0 n).

(** A post with 1501 likers, on a service that answers every request
    in a tenth of a second. *)
Definition busy_post : Env :=
  {| reply := λ _, Created;
     followers_page := λ _ _ _, PageOk [] None;
     likes_page := λ _ _ _, PageOk (crowd 1501) None;
     reposts_page := λ _ _ _, PageOk [] None;
     extra := λ _, 100000%N;
     ctrl_c := never |}.

(** A post the acting identity liked itself. *)
Definition own_like : Env :=
  {| reply := λ _, Created;
     followers_page := λ _ _ _, PageOk [] None;
     likes_page := λ _ _ _, PageOk [{| actor := myself |}] None;
     reposts_page := λ _ _ _, PageOk [] None;
     extra := λ _, 1000%N;
     ctrl_c := never |}.

(** Followers served in two pages; bob shows up on both. *)
Definition shifting_pages : Env :=
  {| reply := λ _, Created;
     followers_page := λ _ _ cursor,
       match cursor with
       | None => PageOk [alice; bob] (Some "page-2")
       | Some _ => PageOk [bob; carol] None
       end;
     likes_page := λ _ _ _, PageOk [] None;
     reposts_page := λ _ _ _, PageOk [] None;
     extra := λ _, 1000%N;
     ctrl_c := never |}.

(** An account that liked a post under one handle and reposted it
    under another. *)
Definition old_name : Profile := {| did := "did:plc:dana"; handle := "dana.old.example" |}.
Definition new_name : Profile := {| did := "did:plc:dana"; handle := "dana.new.example" |}.

Definition renamed : Env :=
  {| reply := λ _, Created;
     followers_page := λ _ _ _, PageOk [] None;
     likes_page := λ _ _ _, PageOk [{| actor := old_name |}] None;
     reposts_page := λ _ _ _, PageOk [new_name] None;
     extra := λ _, 1000%N;
     ctrl_c := never |}.

(** A batch whose quota is used up, twenty minutes into its window. *)
Definition used_up : Data := set_hourly 1500 (Some 0) small_batch.

(** A service that answers every read with a rate-limit error. *)
Definition throttled : Env :=
  {| reply := λ _, Created;
     followers_page := λ _ _ _, PageErr rate_limit_error;
     likes_page := λ _ _ _, PageErr rate_limit_error;
     reposts_page := λ _ _ _, PageErr rate_limit_error;
     extra := λ _, 1000%N;
     ctrl_c := never |}.

(** A directory that reads a URL's path off after "https://bsky.app"
    (16 characters) and knows one handle. *)
Definition directory : Directory :=
  {| url_path := λ url, String.substring 16 (String.length url - 16) url;
     resolve_handle := λ h,
       if String.eqb h "me.example" then inr "did:plc:me"
       else inl {| args := ["Unable to resolve handle"];
                   str_e := "Unable to resolve handle" |};
     get_profile := λ a,
       if String.eqb a "did:plc:target"
       then inr {| did := "did:plc:target"; handle := "target.example" |}
       else inl {| args := ["Profile not found"];
                   str_e := "Profile not found" |} |}.

Definition my_list_url : string :=
  "https://bsky.app/profile/me.example/lists/3kabc".

(** An operator who logs in and answers every prompt with a yes,
    except the last. *)
Definition consenting : Operator :=
  {| login_error := None;
     resume_answer := " Y ";
     owner_answer := "y";
     proceed_answer := "Y";
     delete_answer := "n" |}.

(** One who asks to start over. *)
Definition restarting : Operator :=
  {| login_error := None;
     resume_answer := "Restart";
     owner_answer := "y";
     proceed_answer := "y";
     delete_answer := "n" |}.

(** Ctrl-C during the sixth blocking operation: for [small_batch], the
    write of the final save. *)
Definition sixth : nat → bool := λ k, (k =? 5)%nat.

Definition liked_post_url : string :=
  "https://bsky.app/profile/me.example/post/3kxyz".

(* ================================================================== *)
(** * Reasoning about scripts                                         *)
(* ================================================================== *)

Section HoareRules.

Context {A B : Type}.
Implicit Types (P : World → Prop) (X : Exception → World → Prop).

Lemma hoare_ret P (a : A) (Q : A → World → Prop) X :
  (∀ w, P w → Q a w) → hoare P (ret a) Q X.
Proof. intros H w Hw. by apply H. Qed.

Lemma hoare_raise P e (Q : A → World → Prop) X :
  (∀ w, P w → X e w) → hoare P (raise e) Q X.
Proof. intros H w Hw. by apply H. Qed.

Lemma hoare_gets P (f : World → A) (Q : A → World → Prop) X :
  (∀ w, P w → Q (f w) w) → hoare P (gets f) Q X.
Proof. intros H w Hw. by apply H. Qed.

Lemma hoare_bind P (m : M A) (k : A → M B) (R : A → World → Prop)
    (Q : B → World → Prop) X :
  hoare P m R X → (∀ a, hoare (R a) (k a) Q X) → hoare P (bind m k) Q X.
Proof.
  intros Hm Hk w Hw. unfold bind. specialize (Hm w Hw).
  destruct (m w) as [[a|e] w']; [by apply Hk | done].
Qed.

Lemma hoare_conseq P P' (m : M A) (Q Q' : A → World → Prop) X X' :
  hoare P' m Q' X' →
  (∀ w, P w → P' w) → (∀ a w, Q' a w → Q a w) → (∀ e w, X' e w → X e w) →
  hoare P m Q X.
Proof.
  intros Hm HP HQ HX w Hw. specialize (Hm w (HP w Hw)).
  destruct (m w) as [[a|e] w']; auto.
Qed.

Lemma hoare_try_except P (m : M A) h (Q : A → World → Prop) X X' :
  hoare P m Q X' →
  (∀ e, match h e with
        | Some handler => hoare (X' e) handler Q X
        | None => ∀ w, X' e w → X e w
        end) →
  hoare P (try_except m h) Q X.
Proof.
  intros Hm Hh w Hw. unfold try_except. specialize (Hm w Hw).
  destruct (m w) as [[a|e] w']; [done |].
  specialize (Hh e). destruct (h e); [by apply Hh | by apply Hh].
Qed.

End HoareRules.

Lemma hoare_modify P (f : World → World) (Q : unit → World → Prop) X :
  (∀ w, P w → Q tt (f w)) → hoare P (modify f) Q X.
Proof. intros H w Hw. by apply H. Qed.

Lemma hoare_for_each (I : World → Prop) l body X :
  (∀ x, x ∈ l → hoare I (body x) (λ _, I) X) →
  hoare I (for_each l body) (λ _, I) X.
Proof.
  induction l as [|x l' IH]; intros Hb; simpl.
  - by apply hoare_ret.
  - eapply hoare_bind.
    + apply Hb. constructor.
    + intros ?. apply IH. intros y Hy. apply Hb. by constructor.
Qed.

Section KeepingRules.

Context {A B : Type}.
Implicit Types (I X : World → Prop).

Lemma keeping_bind I X (m : M A) (k : A → M B) :
  keeping I X m → (∀ a, keeping I X (k a)) → keeping I X (bind m k).
Proof. intros Hm Hk. eapply hoare_bind; [exact Hm | exact Hk]. Qed.

Lemma keeping_ret I X (a : A) : keeping I X (ret a).
Proof. by apply hoare_ret. Qed.

Lemma keeping_raise I X e : (∀ w, I w → X w) → keeping I X (@raise A e).
Proof. intros H. by apply hoare_raise. Qed.

Lemma keeping_gets I X (f : World → A) : keeping I X (gets f).
Proof. by apply hoare_gets. Qed.

Lemma keeping_try_except I X (m : M A) h :
  preserves I m →
  (∀ e handler, h e = Some handler → keeping I X handler) →
  (∀ e, h e = None → ∀ w, I w → X w) →
  keeping I X (try_except m h).
Proof.
  intros Hm Hh Hn. eapply hoare_try_except; [exact Hm |].
  intros e. destruct (h e) eqn:He; [by eapply Hh | by eapply Hn].
Qed.

(** What [keeping] gives for one run. *)
Lemma preserves_run I (m : M A) w : preserves I m → I w → I (m w).2.
Proof. intros H Hw. specialize (H w Hw). by destruct (m w) as [[?|?] ?]. Qed.

Lemma steady_run I (m : M A) w :
  steady I m → I w → ∃ a w', m w = (Ok a, w') ∧ I w'.
Proof.
  intros H Hw. specialize (H w Hw).
  destruct (m w) as [[a|?] w']; [eauto | done].
Qed.

End KeepingRules.

Lemma keeping_weaken {A} I X X' (m : M A) :
  keeping I X m → (∀ w, X w → X' w) → keeping I X' m.
Proof. intros H HX. eapply hoare_conseq; [exact H | auto ..]. Qed.

Lemma keeping_modify I X f :
  (∀ w, I w → I (f w)) → keeping I X (modify f).
Proof. intros H. by apply hoare_modify. Qed.

Lemma keeping_for_each I X l body :
  (∀ x, x ∈ l → keeping I X (body x)) → keeping I X (for_each l body).
Proof. apply hoare_for_each. Qed.

(** Takes a [keeping] goal apart along the structure of the script;
    leaves are closed from the hint base [inv]. *)
Create HintDb inv discriminated.

Ltac pres :=
  repeat first
    [ solve [eauto with inv]
    | apply keeping_ret
    | apply keeping_gets
    | apply keeping_raise; solve [eauto with inv]
    | apply keeping_modify; solve [eauto with inv]
    | apply keeping_bind; [| intros ?]
    | progress cbv zeta
    | match goal with
      | |- keeping _ _ (if ?b then _ else _) => destruct b
      | |- keeping _ _ (match ?x with _ => _ end) => destruct x
      end ].

(* ================================================================== *)
(** * The tally of outcomes                                           *)
(* ================================================================== *)

Lemma tally_new_batch tdid thandle uri fs t :
  tally (new_batch tdid thandle uri fs t).
Proof. split; [reflexivity | simpl; apply list_subseteq_nil]. Qed.

Lemma tally_mark x st d : x ∈ followers d → tally d → tally (mark x st d).
Proof.
  intros Hx [Hsum Hsub]. split.
  - destruct st; simpl; rewrite length_app; simpl; lia.
  - assert (processed (mark x st d) = processed d ++ [x]) as ->
      by (by destruct st).
    assert (followers (mark x st d) = followers d) as ->
      by (by destruct st).
    intros y [Hy|Hy]%elem_of_app; [by apply Hsub |].
    apply list_elem_of_singleton in Hy. by subst y.
Qed.

Lemma followers_mark x st d : followers (mark x st d) = followers d.
Proof. by destruct st. Qed.

Lemma get_remaining_followers d x : x ∈ get_remaining d → x ∈ followers d.
Proof. unfold get_remaining. rewrite list_elem_of_filter. tauto. Qed.

Lemma get_remaining_fresh d x : x ∈ get_remaining d → x ∉ processed d.
Proof.
  unfold get_remaining. rewrite list_elem_of_filter.
  rewrite elem_of_list_to_set. tauto.
Qed.

Section Tally.

Variable E : Env.
Variable me : string.
Variable F : list string.

Lemma tally_blocking d : preserves (tally_inv F) (blocking E d).
Proof.
  intros w Hw. unfold blocking.
  destruct (ctrl_c E (tick w)); exact Hw.
Qed.

Lemma tally_set_file f w : tally_inv F w → tally_inv F (set_file f w).
Proof. done. Qed.

Lemma tally_issue x w : tally_inv F w → tally_inv F (issue x w).
Proof. done. Qed.

Lemma tally_last_updated v w :
  tally_inv F w → tally_inv F (upd_data (set_last_updated v) w).
Proof. done. Qed.

Lemma tally_set_hourly (c : Data → Z) (s : Data → option Z) w :
  tally_inv F w →
  tally_inv F (upd_data (λ d, set_hourly (c d) (s d) d) w).
Proof. done. Qed.

Lemma tally_set_hourly' c s w :
  tally_inv F w → tally_inv F (upd_data (set_hourly c s) w).
Proof. done. Qed.

Lemma tally_snapshot w : tally_inv F w → tally_inv F (snapshot w).
Proof.
  intros (HF & Ht & Hj). repeat split; try done; try apply Ht.
  simpl. apply Forall_app. split; [done |]. by constructor.
Qed.

Lemma tally_upd_mark x st w :
  x ∈ F → tally_inv F w → tally_inv F (upd_data (mark x st) w).
Proof.
  intros Hx (HF & Ht & Hj). subst F. split; [|split]; simpl.
  - apply followers_mark.
  - by apply tally_mark.
  - done.
Qed.

Hint Resolve tally_blocking tally_set_file tally_issue tally_last_updated
  tally_set_hourly tally_set_hourly' tally_snapshot tally_upd_mark : inv.

Lemma tally_save : preserves (tally_inv F) (save E).
Proof. unfold save. pres. Qed.

Lemma tally_can_proceed : preserves (tally_inv F) (can_proceed).
Proof. unfold can_proceed, reset_hourly_if_needed. pres. Qed.

Lemma tally_wait_chunks n ws : preserves (tally_inv F) (wait_chunks E n ws).
Proof.
  revert ws. induction n as [|n IH]; intros ws; simpl; unfold sleep; pres.
Qed.

Hint Resolve tally_save tally_can_proceed tally_wait_chunks : inv.

Lemma tally_wait_for_next_hour :
  preserves (tally_inv F) (wait_for_next_hour E).
Proof. unfold wait_for_next_hour. pres. Qed.

Lemma tally_create_record x : preserves (tally_inv F) (create_record E x).
Proof. unfold create_record. pres. Qed.

Hint Resolve tally_wait_for_next_hour tally_create_record : inv.

Lemma tally_add_attempts n x r :
  preserves (tally_inv F) (add_attempts E n x r).
Proof.
  revert r. induction n as [|n IH]; intros r; simpl; unfold sleep; pres.
Qed.

Hint Resolve tally_add_attempts : inv.

Lemma tally_process_one x :
  x ∈ F → preserves (tally_inv F) (process_one E me x).
Proof.
  intros Hx. unfold process_one, mark_processed, increment_hourly,
    add_to_blocklist, sleep.
  pres.
Qed.

Lemma tally_for_each l :
  l ⊆ F → preserves (tally_inv F) (for_each l (process_one E me)).
Proof.
  intros Hl. apply keeping_for_each. intros x Hx.
  apply tally_process_one. by apply Hl.
Qed.

End Tally.

Lemma tally_run_batch_process E me F :
  preserves (tally_inv F) (run_batch_process E me).
Proof.
  unfold run_batch_process. intros w Hw.
  assert (get_remaining (data w) ⊆ F) as Hsub.
  { intros x Hx. destruct Hw as [<- _]. by apply get_remaining_followers. }
  unfold bind at 1, gets.
  pose proof (tally_for_each E me F _ Hsub) as Hloop.
  assert (preserves (tally_inv F)
            (try_except (for_each (get_remaining (data w)) (process_one E me))
               (on_interrupt E);; save E)) as Hall.
  { apply keeping_bind; [| intros ?; apply tally_save].
    apply keeping_try_except; [exact Hloop | | done].
    intros e handler He. destruct e; simplify_eq/=.
    apply keeping_bind; [apply tally_save | intros ?; by apply keeping_raise]. }
  exact (Hall w Hw).
Qed.

(** C2.  During a run of [run_batch_process] that starts from a
    document whose tallies agree with [processed] (as the fresh batch
    of [add_followers_to_blocklist] does, and every document the run
    itself leaves), after each processed candidate
    [added + skipped + failed = len(processed)] and every id of
    [processed] is one of [followers]; the same holds of the document
    the run ends with. *)
Theorem counter_tally_invariant (E : Env) (me : string)
    (d : Data) (f : StateFile) (t : Z) :
  tally d →
  let w' := (run_batch_process E me (boot d f t)).2 in
  Forall tally (journal w') ∧ tally (data w').
Proof.
  intros Hd w'.
  assert (tally_inv (followers d) w') as (_ & Ht & Hj).
  { apply preserves_run; [apply tally_run_batch_process |].
    split; [done | split; [done | constructor]]. }
  done.
Qed.

(* ================================================================== *)
(** * Who is sent a create request                                    *)
(* ================================================================== *)

Section Subjects.

Variable E : Env.
Variable me : string.
Variable Φ : string → Prop.

Lemma subjects_blocking d : preserves (subjects Φ) (blocking E d).
Proof.
  intros w Hw. unfold blocking.
  destruct (ctrl_c E (tick w)); exact Hw.
Qed.

Lemma subjects_set_file f w : subjects Φ w → subjects Φ (set_file f w).
Proof. done. Qed.

Lemma subjects_upd_data g w : subjects Φ w → subjects Φ (upd_data g w).
Proof. done. Qed.

Lemma subjects_snapshot w : subjects Φ w → subjects Φ (snapshot w).
Proof. done. Qed.

Lemma subjects_issue x w : Φ x → subjects Φ w → subjects Φ (issue x w).
Proof.
  intros Hx Hw. unfold subjects. simpl.
  apply Forall_app. split; [done |]. by repeat constructor.
Qed.

Hint Resolve subjects_blocking subjects_set_file subjects_upd_data
  subjects_snapshot subjects_issue : inv.

Lemma subjects_save : preserves (subjects Φ) (save E).
Proof. unfold save. pres. Qed.

Lemma subjects_can_proceed : preserves (subjects Φ) can_proceed.
Proof. unfold can_proceed, reset_hourly_if_needed. pres. Qed.

Lemma subjects_wait_chunks n ws : preserves (subjects Φ) (wait_chunks E n ws).
Proof.
  revert ws. induction n as [|n IH]; intros ws; simpl; unfold sleep; pres.
Qed.

Hint Resolve subjects_save subjects_can_proceed subjects_wait_chunks : inv.

Lemma subjects_wait_for_next_hour :
  preserves (subjects Φ) (wait_for_next_hour E).
Proof. unfold wait_for_next_hour. pres. Qed.

Lemma subjects_create_record x :
  Φ x → preserves (subjects Φ) (create_record E x).
Proof. intros Hx. unfold create_record. pres. Qed.

Hint Resolve subjects_wait_for_next_hour subjects_create_record : inv.

Lemma subjects_add_attempts n x r :
  Φ x → preserves (subjects Φ) (add_attempts E n x r).
Proof.
  intros Hx. revert r.
  induction n as [|n IH]; intros r; simpl; unfold sleep; pres.
Qed.

Hint Resolve subjects_add_attempts : inv.

(** The loop body sends requests for its own candidate only, and none
    when the candidate is the acting identity. *)
Lemma subjects_process_one x :
  (x ≠ me → Φ x) → preserves (subjects Φ) (process_one E me x).
Proof.
  intros Hx. unfold process_one, mark_processed, increment_hourly,
    add_to_blocklist, sleep.
  destruct (String.eqb_spec x me) as [->|Hne]; [| specialize (Hx Hne)]; pres.
Qed.

Lemma subjects_run_batch_process w :
  (∀ x, x ∈ get_remaining (data w) → x ≠ me → Φ x) →
  subjects Φ w → subjects Φ (run_batch_process E me w).2.
Proof.
  intros HΦ Hw. unfold run_batch_process, bind at 1, gets.
  assert (preserves (subjects Φ)
            (try_except (for_each (get_remaining (data w)) (process_one E me))
               (on_interrupt E);; save E)) as Hall.
  { apply keeping_bind; [| intros ?; apply subjects_save].
    apply keeping_try_except; [| | done].
    - apply keeping_for_each. intros x Hx.
      apply subjects_process_one. by apply HΦ.
    - intros e handler He. destruct e; simplify_eq/=.
      apply keeping_bind; [apply subjects_save | intros ?; by apply keeping_raise]. }
  by apply preserves_run.
Qed.

End Subjects.

Lemma subjects_elem Φ w x tm : subjects Φ w → (x, tm) ∈ requests w → Φ x.
Proof.
  unfold subjects. rewrite Forall_forall. intros H Hin. exact (H _ Hin).
Qed.

Lemma get_remaining_nil d :
  followers d ⊆ processed d → get_remaining d = [].
Proof.
  unfold get_remaining. intros Hsub.
  induction (followers d) as [|x l IH]; [done |].
  rewrite filter_cons. destruct (decide _) as [Hx|Hx].
  - exfalso. apply Hx. apply elem_of_list_to_set. apply Hsub. constructor.
  - apply IH. intros y Hy. apply Hsub. by constructor.
Qed.

(** A run with nothing remaining: only the final save happens. *)
Lemma run_nothing_remaining E me w :
  get_remaining (data w) = [] →
  let w' := (run_batch_process E me w).2 in
  requests w' = requests w
  ∧ journal w' = journal w
  ∧ data w' = set_last_updated (Some (now w)) (data w).
Proof.
  intros Hnil. unfold run_batch_process, bind, gets. rewrite Hnil. simpl.
  unfold try_except, ret, save, bind, gets, modify, blocking. simpl.
  by destruct (ctrl_c E (tick w)).
Qed.

(** C3.  [run_batch_process] never sends a create request for an id
    that is in [processed] when the run starts; and when every
    candidate is already in [processed], [remaining] is empty before
    the run, the run sends no request and records nothing, and
    [remaining] is empty after it. *)
Theorem executor_idempotent (E : Env) (me : string)
    (d : Data) (f : StateFile) (t : Z) :
  let w' := (run_batch_process E me (boot d f t)).2 in
  (∀ x tm, (x, tm) ∈ requests w' → x ∉ processed d)
  ∧ (followers d ⊆ processed d →
       get_remaining d = []
       ∧ requests w' = []
       ∧ processed (data w') = processed d
       ∧ get_remaining (data w') = []).
Proof.
  intros w'. split.
  - intros x tm Hin.
    eapply (subjects_elem (λ x, x ∉ processed d) w' x tm); [| done].
    apply subjects_run_batch_process; [| constructor].
    intros y Hy _. by apply get_remaining_fresh.
  - intros Hall. pose proof (get_remaining_nil d Hall) as Hnil.
    destruct (run_nothing_remaining E me (boot d f t) Hnil) as (Hr & _ & Hd).
    fold w' in Hr, Hd. rewrite Hr, Hd. simpl.
    repeat split; try done.
Qed.

(* ================================================================== *)
(** * What the bookkeeping operations leave alone                     *)
(* ================================================================== *)

Lemma inert_ledger : inert ledger.
Proof. by split. Qed.

Lemma inert_processed : inert (λ w, processed (data w)).
Proof. by split. Qed.

Section Frame.

Context {T : Type} (view : World → T) (Hview : inert view).
Variable E : Env.
Variable v : T.

Let at_v (w : World) : Prop := view w = v.

(** Blocking keeps the view; it may raise. *)
Lemma frame_blocking d : preserves at_v (blocking E d).
Proof.
  intros w Hw. unfold blocking, at_v in *.
  destruct (ctrl_c E (tick w)).
  - by rewrite inert_deliver, inert_elapse.
  - by rewrite inert_elapse.
Qed.

(** With no Ctrl-C it does not raise. *)
Lemma frame_blocking_calm d : calm E → steady at_v (blocking E d).
Proof.
  intros Hcalm w Hw. unfold blocking, at_v in *. rewrite Hcalm. simpl.
  by rewrite inert_elapse.
Qed.

Variable X : World → Prop.
Hypothesis HB : ∀ d, keeping at_v X (blocking E d).

Lemma frame_set_file f w : at_v w → at_v (set_file f w).
Proof. unfold at_v. by rewrite inert_file. Qed.

Lemma frame_updated u w : at_v w → at_v (upd_data (set_last_updated u) w).
Proof. unfold at_v. by rewrite inert_updated. Qed.

Lemma frame_hourly c s w : at_v w → at_v (upd_data (set_hourly c s) w).
Proof. unfold at_v. by rewrite inert_hourly. Qed.

Hint Resolve HB frame_set_file frame_updated frame_hourly : inv.

Lemma frame_save : keeping at_v X (save E).
Proof. unfold save. pres. Qed.

Lemma frame_can_proceed : keeping at_v X can_proceed.
Proof. unfold can_proceed, reset_hourly_if_needed. pres. Qed.

Lemma frame_wait_chunks n ws : keeping at_v X (wait_chunks E n ws).
Proof.
  revert ws. induction n as [|n IH]; intros ws; simpl; unfold sleep; pres.
Qed.

Hint Resolve frame_save frame_can_proceed frame_wait_chunks : inv.

Lemma frame_wait_for_next_hour : keeping at_v X (wait_for_next_hour E).
Proof. unfold wait_for_next_hour. pres. Qed.

Hint Resolve frame_wait_for_next_hour : inv.

(** The wait that follows a failed quota check, l.324-326. *)
Lemma frame_quota_wait (ok : bool) :
  keeping at_v X
    (if ok then ret tt else (save E ;; wait_for_next_hour E))%py.
Proof. pres. Qed.

Lemma frame_increment_hourly : keeping at_v X increment_hourly.
Proof.
  unfold increment_hourly. apply keeping_modify. intros w Hw.
  change (at_v (upd_data (set_hourly (hourly_count (data w) + 1)
                            (hour_started (data w))) w)).
  by apply frame_hourly.
Qed.

(** Views that do not show the requests either. *)
Hypothesis view_issue : ∀ x w, view (issue x w) = view w.

Lemma frame_issue x w : at_v w → at_v (issue x w).
Proof. unfold at_v. by rewrite view_issue. Qed.

Hint Resolve frame_issue : inv.

Lemma frame_create_record x : keeping at_v X (create_record E x).
Proof. unfold create_record. pres. Qed.

Hint Resolve frame_create_record : inv.

Lemma frame_add_attempts n x r : keeping at_v X (add_attempts E n x r).
Proof.
  revert r. induction n as [|n IH]; intros r; simpl; unfold sleep; pres.
Qed.

End Frame.

(* ================================================================== *)
(** * Progress of the loop                                            *)
(* ================================================================== *)

Lemma processed_mark x st d : processed (mark x st d) = processed d ++ [x].
Proof. by destruct st. Qed.

Lemma ledger_mark_processed x st w :
  ledger (snapshot (upd_data (mark x st) w)) = recorded x st (ledger w).
Proof. by destruct st. Qed.

Section Progress.

Variable E : Env.
Variable me : string.

Lemma mark_processed_progress x st p X :
  hoare (λ w, processed (data w) = p) (mark_processed x st)
    (λ _ w', processed (data w') = p ++ [x]) X.
Proof.
  intros w Hw. unfold mark_processed, bind, modify. simpl.
  by rewrite processed_mark, Hw.
Qed.

(** One round of the loop records its candidate; interrupted, it has
    recorded it or not. *)
Lemma process_one_progress x p :
  hoare (λ w, processed (data w) = p) (process_one E me x)
    (λ _ w', processed (data w') = p ++ [x])
    (λ _ w', processed (data w') = p ∨ processed (data w') = p ++ [x]).
Proof.
  set (X := λ w' : World,
         processed (data w') = p ∨ processed (data w') = p ++ [x]).
  assert (∀ d, keeping (λ w, processed (data w) = p) X (blocking E d))
    as HB1.
  { intros d. eapply keeping_weaken;
      [apply (frame_blocking _ inert_processed) | by left]. }
  assert (∀ d, keeping (λ w, processed (data w) = p ++ [x]) X (blocking E d))
    as HB2.
  { intros d. eapply keeping_weaken;
      [apply (frame_blocking _ inert_processed) | by right]. }
  unfold process_one.
  eapply hoare_bind;
    [apply (frame_can_proceed _ inert_processed p X) |]. intros ok.
  eapply hoare_bind;
    [apply (frame_quota_wait _ inert_processed E p X HB1) |]. intros ?.
  destruct (String.eqb x me).
  - eapply hoare_bind; [apply mark_processed_progress |]. intros ?.
    apply (frame_save _ inert_processed E _ X HB2).
  - eapply hoare_bind; [apply HB1 |]. intros ?.
    eapply hoare_bind;
      [apply (frame_add_attempts _ E p X HB1); done |].
    intros status.
    eapply hoare_bind; [apply mark_processed_progress |]. intros ?.
    eapply hoare_bind;
      [apply (frame_increment_hourly _ inert_processed _ X) |]. intros ?.
    eapply hoare_bind;
      [apply (keeping_gets (λ w, processed (data w) = p ++ [x]) X) |].
    intros current.
    destruct (current mod 10 =? 0)%nat.
    + apply (frame_save _ inert_processed E _ X HB2).
    + by apply hoare_ret.
Qed.

(** The loop records its candidates in order; interrupted, it has
    recorded a prefix of them. *)
Lemma for_each_progress l p :
  hoare (λ w, processed (data w) = p) (for_each l (process_one E me))
    (λ _ w', processed (data w') = p ++ l)
    (λ _ w', ∃ k, (k ≤ length l)%nat ∧ processed (data w') = p ++ take k l).
Proof.
  revert p. induction l as [|x l' IH]; intros p; simpl.
  - apply hoare_ret. intros w Hw. by rewrite app_nil_r.
  - eapply hoare_bind.
    + eapply hoare_conseq; [apply (process_one_progress x p) | done | | ].
      * intros a w Hw. exact Hw.
      * intros e w [Hw|Hw]; simpl.
        -- exists 0%nat. split; [lia |]. by rewrite take_0, app_nil_r.
        -- exists 1%nat. split; [simpl; lia |]. simpl. by rewrite take_0.
    + intros ?. eapply hoare_conseq; [apply (IH (p ++ [x])) | done | |].
      * intros ? w Hw. simpl in Hw. by rewrite <- app_assoc in Hw.
      * intros e w (k & Hk & Hw). simpl in Hw. exists (S k).
        split; [simpl; lia |]. by rewrite <- app_assoc in Hw.
Qed.

(** The loop raises only where an operation blocks, and a Ctrl-C
    raised there has been delivered. *)
Lemma blocking_delivered d :
  keeping (λ _, True) (λ w, delivered w = true) (blocking E d).
Proof.
  intros w _. unfold blocking.
  by destruct (ctrl_c E (tick w)).
Qed.

Hint Resolve blocking_delivered : inv.

Lemma wait_chunks_delivered n ws :
  keeping (λ _, True) (λ w, delivered w = true) (wait_chunks E n ws).
Proof.
  revert ws. induction n as [|n IH]; intros ws; simpl; unfold sleep; pres.
Qed.

Lemma add_attempts_delivered n x r :
  keeping (λ _, True) (λ w, delivered w = true) (add_attempts E n x r).
Proof.
  revert r. induction n as [|n IH]; intros r; simpl;
    unfold create_record, sleep; pres.
Qed.

Hint Resolve wait_chunks_delivered add_attempts_delivered : inv.

Lemma process_one_delivered x :
  keeping (λ _, True) (λ w, delivered w = true) (process_one E me x).
Proof.
  unfold process_one, can_proceed, reset_hourly_if_needed, save,
    wait_for_next_hour, mark_processed, increment_hourly,
    add_to_blocklist, sleep.
  pres.
Qed.

Lemma for_each_delivered l :
  keeping (λ _, True) (λ w, delivered w = true)
    (for_each l (process_one E me)).
Proof. apply keeping_for_each. intros x _. apply process_one_delivered. Qed.

End Progress.

(** The candidates of a batch never change during a run. *)
Section Candidates.

Variable E : Env.
Variable me : string.
Variable F : list string.

Let fixed (w : World) : Prop := followers (data w) = F.

Lemma fixed_blocking d : preserves fixed (blocking E d).
Proof.
  intros w Hw. unfold blocking.
  destruct (ctrl_c E (tick w)); exact Hw.
Qed.

Lemma fixed_world (g : World → World) w :
  data (g w) = data w → fixed w → fixed (g w).
Proof. unfold fixed. by intros ->. Qed.

Lemma fixed_data (g : Data → Data) w :
  (∀ d, followers (g d) = followers d) → fixed w → fixed (upd_data g w).
Proof. unfold fixed. simpl. by intros ->. Qed.

Hint Resolve fixed_blocking : inv.
Hint Extern 1 (fixed (upd_data _ _)) =>
  (apply fixed_data; [by intros [] | assumption]) : inv.
Hint Extern 1 (fixed (upd_data (mark _ _) _)) =>
  (apply fixed_data; [apply followers_mark | assumption]) : inv.
Hint Extern 2 (fixed _) =>
  (apply fixed_world; [reflexivity | assumption]) : inv.

Lemma fixed_wait_chunks n ws : preserves fixed (wait_chunks E n ws).
Proof.
  revert ws. induction n as [|n IH]; intros ws; simpl; unfold sleep; pres.
Qed.

Lemma fixed_add_attempts n x r : preserves fixed (add_attempts E n x r).
Proof.
  revert r. induction n as [|n IH]; intros r; simpl;
    unfold create_record, sleep; pres.
Qed.

Hint Resolve fixed_wait_chunks fixed_add_attempts : inv.

Lemma fixed_process_one x : preserves fixed (process_one E me x).
Proof.
  unfold process_one, can_proceed, reset_hourly_if_needed, save,
    wait_for_next_hour, mark_processed, increment_hourly,
    add_to_blocklist, sleep.
  pres.
Qed.

Lemma fixed_for_each l : preserves fixed (for_each l (process_one E me)).
Proof. apply keeping_for_each. intros x _. apply fixed_process_one. Qed.

End Candidates.

Lemma filter_none {A} (P : A → Prop) `{!∀ x, Decision (P x)} (l : list A) :
  (∀ x, x ∈ l → ¬ P x) → filter P l = [].
Proof.
  induction l as [|y l' IH]; intros Hl; [done |].
  rewrite filter_cons. destruct (decide (P y)) as [Hy|Hy].
  - exfalso. apply (Hl y); [constructor | done].
  - apply IH. intros x Hx. apply Hl. by constructor.
Qed.

Lemma filter_all {A} (P : A → Prop) `{!∀ x, Decision (P x)} (l : list A) :
  (∀ x, x ∈ l → P x) → filter P l = l.
Proof.
  induction l as [|y l' IH]; intros Hl; [done |].
  rewrite filter_cons. destruct (decide (P y)) as [Hy|Hy].
  - f_equal. apply IH. intros x Hx. apply Hl. by constructor.
  - exfalso. apply Hy, Hl. constructor.
Qed.

Lemma filter_drop_prefix {A} (P : A → Prop) `{!∀ x, Decision (P x)}
    (l : list A) k :
  (∀ x, x ∈ take k l → ¬ P x) → filter P l = filter P (drop k l).
Proof.
  intros Hl. rewrite <- (take_drop k l) at 1.
  by rewrite filter_app, filter_none.
Qed.

(** What remains once a prefix of the remaining candidates is recorded. *)
Lemma get_remaining_after d d' k :
  followers d' = followers d →
  processed d' = processed d ++ take k (get_remaining d) →
  get_remaining d'
  = filter (λ x, x ∉ take k (get_remaining d)) (drop k (get_remaining d)).
Proof.
  intros HF Hp.
  transitivity
    (filter (λ x, x ∉ take k (get_remaining d))
       (filter (λ x, x ∉ (list_to_set (processed d) : gset string))
          (followers d))).
  - unfold get_remaining at 1. cbv zeta. rewrite HF, Hp.
    rewrite list_filter_filter. apply list_filter_iff. intros x.
    rewrite !elem_of_list_to_set, elem_of_app. tauto.
  - change (filter (λ x, x ∉ (list_to_set (processed d) : gset string))
              (followers d)) with (get_remaining d).
    apply filter_drop_prefix. intros x Hx Hn. by apply Hn.
Qed.

Lemma get_remaining_after_nodup d d' k :
  NoDup (followers d) →
  followers d' = followers d →
  processed d' = processed d ++ take k (get_remaining d) →
  get_remaining d' = drop k (get_remaining d).
Proof.
  intros Hnd HF Hp. rewrite (get_remaining_after d d' k HF Hp).
  assert (NoDup (get_remaining d)) as Hl by by apply NoDup_filter.
  revert Hl. generalize (get_remaining d). intros l Hl.
  apply filter_all. intros x Hx Htk.
  rewrite <- (take_drop k l) in Hl. apply NoDup_app in Hl as (_ & Hdis & _).
  by apply (Hdis x).
Qed.

(* ================================================================== *)
(** * Cancellation                                                    *)
(* ================================================================== *)

(** [save] when no Ctrl-C arrives while it writes: it completes. *)
Lemma save_undisturbed E w :
  ctrl_c E (tick w) = false →
  save E w
  = (Ok tt,
     set_file (Stored (set_last_updated (Some (now w)) (data w)))
       (elapse (0 + Z.of_N (extra E (tick w)))
          (set_file Malformed
             (upd_data (set_last_updated (Some (now w))) w)))).
Proof.
  intros Hq. unfold save, bind, gets, modify, blocking. simpl.
  by rewrite Hq.
Qed.

(** [save] when Ctrl-C arrives while it writes: the file stays as the
    opening for writing left it. *)
Lemma save_disturbed E w :
  ctrl_c E (tick w) = true →
  ∃ w', save E w = (Raise KeyboardInterrupt, w')
        ∧ file w' = Malformed
        ∧ data w' = set_last_updated (Some (now w)) (data w).
Proof.
  intros Hq. unfold save, bind, gets, modify, blocking. simpl.
  rewrite Hq. by eexists.
Qed.

(** C7, as the code has it.  When Ctrl-C interrupts the loop of
    [run_batch_process], the [except KeyboardInterrupt] clause saves
    the document as it stands at that moment.  If no further Ctrl-C
    arrives while this save writes the file, the process leaves
    through [sys.exit(0)]: exit status zero.  The saved document lists
    as processed what was processed before the run followed by a prefix
    of the run's remaining candidates; a resumed run finds those of the
    rest that are not in that prefix, which is the rest itself when the
    candidates have no duplicates.  If a further Ctrl-C does arrive
    while the clause saves, the [KeyboardInterrupt] leaves the clause:
    there is no [sys.exit], and the state file is left as the opening
    for writing truncated it. *)
Theorem interrupt_saves_and_exits (E : Env) (me : string)
    (d : Data) (f : StateFile) (t : Z) (w1 : World) :
  for_each (get_remaining d) (process_one E me) (boot d f t)
    = (Raise KeyboardInterrupt, w1) →
  (ctrl_c E (tick w1) = false →
   ∃ w' k,
     run_batch_process E me (boot d f t) = (Raise (SystemExit 0), w')
     ∧ data w' = set_last_updated (Some (now w1)) (data w1)
     ∧ file w' = Stored (data w')
     ∧ (k ≤ length (get_remaining d))%nat
     ∧ processed (data w') = processed d ++ take k (get_remaining d)
     ∧ get_remaining (data w')
       = filter (λ x, x ∉ take k (get_remaining d)) (drop k (get_remaining d))
     ∧ (NoDup (followers d) →
          get_remaining (data w') = drop k (get_remaining d)))
  ∧ (ctrl_c E (tick w1) = true →
     ∃ w',
       run_batch_process E me (boot d f t) = (Raise KeyboardInterrupt, w')
       ∧ file w' = Malformed).
Proof.
  intros Hloop.
  pose proof (for_each_progress E me (get_remaining d) (processed d)
                (boot d f t) eq_refl) as Hprog.
  pose proof (fixed_for_each E me (followers d) (get_remaining d)
                (boot d f t) eq_refl) as Hfix.
  rewrite Hloop in Hprog, Hfix. simpl in Hfix.
  destruct Hprog as (k & Hk & Hp).
  split.
  - intros Hquiet. eexists _, k. split.
    { unfold run_batch_process, bind at 1, gets. simpl.
      unfold bind at 1, try_except. rewrite Hloop. simpl.
      unfold bind at 1. rewrite (save_undisturbed E w1 Hquiet).
      reflexivity. }
    simpl. repeat split; try done.
    + by apply get_remaining_after.
    + intros Hnd. by apply get_remaining_after_nodup.
  - intros Hagain.
    destruct (save_disturbed E w1 Hagain) as (w' & Hsave & Hfile & _).
    exists w'. split; [| exact Hfile].
    unfold run_batch_process, bind at 1, gets. simpl.
    unfold bind at 1, try_except. rewrite Hloop. simpl.
    unfold bind at 1. by rewrite Hsave.
Qed.

(* ================================================================== *)
(** * Uninterrupted runs, step by step                                *)
(* ================================================================== *)

Lemma bind_ok {A B} (m : M A) (k : A → M B) w a w1 :
  m w = (Ok a, w1) → bind m k w = k a w1.
Proof. intros H. unfold bind. by rewrite H. Qed.

Lemma blocking_calm E d w :
  calm E →
  blocking E d w = (Ok tt, elapse (d + Z.of_N (extra E (tick w))) w).
Proof. intros Hc. unfold blocking. by rewrite Hc. Qed.

Lemma create_record_calm E x w :
  calm E →
  create_record E x w
  = (Ok (reply E (length (requests w))),
     elapse (0 + Z.of_N (extra E (tick w))) (issue x w)).
Proof.
  intros Hc. unfold create_record, bind, gets, modify, ret.
  by rewrite (blocking_calm E 0 (issue x w) Hc).
Qed.

Lemma save_calm E w :
  calm E →
  ∃ w', save E w = (Ok tt, w')
        ∧ ledger w' = ledger w ∧ journal w' = journal w.
Proof.
  intros Hc. unfold save, bind, gets, modify.
  rewrite (blocking_calm E 0 _ Hc). by eexists.
Qed.

Lemma add_attempts_unfold E rounds x retries :
  add_attempts E (S rounds) x retries
  = if (retries <? MAX_RETRIES)%nat then
      bind (create_record E x) (λ r,
        match r with
        | Created => ret added_
        | Rejected e =>
            if is_duplicate e then ret skipped_
            else if is_rate_limit_error e then
              if (MAX_RETRIES <=? S retries)%nat then ret failed_
              else
                bind (sleep E (INITIAL_BACKOFF * 2 ^ (Z.of_nat (S retries) - 1)))
                  (λ _, add_attempts E rounds x (S retries))
            else ret failed_
        end)
    else ret failed_.
Proof. reflexivity. Qed.

(** After [j] rate-limited replies, the reply that settles the
    candidate decides its status; [j + 1] requests were sent. *)
Lemma add_attempts_settles E x :
  calm E →
  ∀ j rounds r w st,
    (r + rounds = MAX_RETRIES)%nat →
    (j < rounds)%nat →
    (∀ i, (i < j)%nat → rate_limited (reply E (length (requests w) + i))) →
    settles (reply E (length (requests w) + j)) (r + j) = Some st →
    ∃ w', add_attempts E rounds x r w = (Ok st, w')
          ∧ data w' = data w
          ∧ journal w' = journal w
          ∧ map fst (requests w') = map fst (requests w) ++ replicate (S j) x.
Proof.
  intros Hc. induction j as [|j IH]; intros rounds r w st Hsum Hj Hrl Hset.
  - destruct rounds as [|k]; [lia |].
    assert ((r <? MAX_RETRIES)%nat = true) as Hlt by (apply Nat.ltb_lt; lia).
    rewrite add_attempts_unfold, Hlt.
    rewrite (bind_ok _ _ _ _ _ (create_record_calm E x w Hc)).
    rewrite !Nat.add_0_r in Hset. unfold settles in Hset.
    assert (map fst (requests (elapse (0 + Z.of_N (extra E (tick w))) (issue x w)))
            = map fst (requests w) ++ replicate 1 x) as Hreq
      by (simpl; by rewrite map_app).
    destruct (reply E (length (requests w))) as [|e].
    { inversion Hset; subst. by eexists. }
    destruct (is_duplicate e).
    { inversion Hset; subst. by eexists. }
    destruct (is_rate_limit_error e).
    + destruct (MAX_RETRIES <=? S r)%nat; [| done].
      inversion Hset; subst. by eexists.
    + inversion Hset; subst. by eexists.
  - destruct rounds as [|k]; [lia |].
    assert ((r <? MAX_RETRIES)%nat = true) as Hlt by (apply Nat.ltb_lt; lia).
    assert ((MAX_RETRIES <=? S r)%nat = false) as Hle
      by (apply Nat.leb_gt; lia).
    rewrite add_attempts_unfold, Hlt.
    rewrite (bind_ok _ _ _ _ _ (create_record_calm E x w Hc)).
    pose proof (Hrl 0%nat ltac:(lia)) as H0. rewrite Nat.add_0_r in H0.
    destruct (reply E (length (requests w))) as [|e]; [done |].
    destruct H0 as [-> ->]. rewrite Hle.
    unfold sleep. rewrite (bind_ok _ _ _ _ _ (blocking_calm E _ _ Hc)).
    set (w2 := elapse _ (elapse _ (issue x w))).
    assert (length (requests w2) = S (length (requests w))) as Hlen
      by (simpl; rewrite length_app; simpl; lia).
    destruct (IH k (S r) w2 st) as (w' & Hrun & Hd & Hjn & Hrq).
    + lia.
    + lia.
    + intros i Hi. rewrite Hlen.
      replace (S (length (requests w)) + i)%nat
        with (length (requests w) + S i)%nat by lia.
      apply Hrl. lia.
    + rewrite Hlen.
      replace (S (length (requests w)) + j)%nat
        with (length (requests w) + S j)%nat by lia.
      by replace (S r + j)%nat with (r + S j)%nat by lia.
    + exists w'. split; [exact Hrun |]. rewrite Hd, Hjn, Hrq.
      repeat split. simpl. rewrite map_app. simpl.
      by rewrite <- app_assoc.
Qed.

(** X3.  [MAX_RETRIES] rounds are all [add_to_blocklist] can make:
    with more, it does the same. *)
Lemma add_attempts_rounds E x n r w :
  (MAX_RETRIES - r ≤ n)%nat →
  add_attempts E (S n) x r w = add_attempts E n x r w.
Proof.
  revert r w. induction n as [|n IH]; intros r w Hn.
  - rewrite add_attempts_unfold.
    assert ((r <? MAX_RETRIES)%nat = false) as -> by (apply Nat.ltb_ge; lia).
    reflexivity.
  - rewrite (add_attempts_unfold E (S n) x r), (add_attempts_unfold E n x r).
    destruct (r <? MAX_RETRIES)%nat; [| done].
    unfold bind at 1 3. destruct (create_record E x w) as [[[|e]|?] w1];
      try done.
    destruct (is_duplicate e); [done |].
    destruct (is_rate_limit_error e); [| done].
    destruct (MAX_RETRIES <=? S r)%nat eqn:Hr; [done |].
    apply Nat.leb_gt in Hr.
    unfold bind. destruct (sleep E _ w1) as [[?|?] w2]; [| done].
    apply IH. lia.
Qed.

(** The rounds allowed to the chunked wait are enough: when it
    returns, nothing is left to wait. *)
Lemma wait_chunks_done E n ws :
  ws ≤ 60 * SECOND * Z.of_nat n →
  hoare (λ _, True) (wait_chunks E n ws) (λ left _, left ≤ 0) (λ _ _, True).
Proof.
  revert ws. induction n as [|n IH]; intros ws Hn; simpl.
  - apply hoare_ret. intros _ _. lia.
  - destruct (0 <? ws) eqn:Hws.
    + apply Z.ltb_lt in Hws.
      eapply (hoare_bind _ _ _ (λ _ _, True)).
      * intros w _. by destruct (sleep E _ w) as [[?|?] ?].
      * intros ?. apply IH. unfold SECOND in *. lia.
    + apply hoare_ret. intros _ _. apply Z.ltb_ge in Hws. lia.
Qed.

Lemma chunks_needed_enough ws :
  ws ≤ 60 * SECOND * Z.of_nat (chunks_needed ws).
Proof.
  unfold chunks_needed, SECOND.
  destruct (Z.le_gt_cases ws 0) as [Hle|Hgt]; [lia |].
  rewrite Z2Nat.id by (apply Z.div_pos; lia).
  pose proof (Z.div_mod (ws + 60 * 1000000 - 1) (60 * 1000000) ltac:(lia)).
  pose proof (Z.mod_pos_bound (ws + 60 * 1000000 - 1) (60 * 1000000)
                ltac:(lia)).
  lia.
Qed.

(** Recording an outcome, l.341-354, without Ctrl-C. *)
Lemma record_calm E x st w :
  calm E →
  ∃ w',
    (mark_processed x st ;;
     increment_hourly ;;
     current <- gets (λ w, length (processed (data w))) ;;
     if (current mod 10 =? 0)%nat then save E else ret tt)%py w = (Ok tt, w')
    ∧ ledger w' = recorded x st (ledger w).
Proof.
  intros Hc. unfold mark_processed, increment_hourly, bind, gets, modify.
  match goal with
  | |- context [if ?b then _ else _] => destruct b
  end.
  - match goal with
    | |- context [save E ?w1] =>
        destruct (save_calm E w1 Hc) as (w' & -> & Hl & _)
    end.
    exists w'. split; [done |]. rewrite Hl. by destruct st.
  - eexists. split; [reflexivity |]. by destruct st.
Qed.

(** One round of the loop for a candidate other than the acting
    identity, without Ctrl-C: after [j] rate-limited replies the
    settling reply's status is recorded, and [j + 1] requests were
    sent for the candidate. *)
Lemma process_one_settles E me x :
  calm E → x ≠ me →
  ∀ j w st,
    (j < MAX_RETRIES)%nat →
    (∀ i, (i < j)%nat → rate_limited (reply E (length (requests w) + i))) →
    settles (reply E (length (requests w) + j)) j = Some st →
    ∃ w', process_one E me x w = (Ok tt, w')
          ∧ ledger w' = recorded x st (sent (replicate (S j) x) (ledger w)).
Proof.
  intros Hc Hne j w st Hj Hrl Hset. unfold process_one.
  assert (∀ v d, steady (λ w, ledger w = v) (blocking E d)) as HB
    by (intros v d; by apply (frame_blocking_calm _ inert_ledger)).
  destruct (steady_run _ _ w
              (frame_can_proceed _ inert_ledger (ledger w) _) eq_refl)
    as (ok & w1 & Hrun1 & Hl1).
  rewrite (bind_ok _ _ _ _ _ Hrun1).
  destruct (steady_run _ _ w1
              (frame_quota_wait _ inert_ledger E (ledger w) _ (HB _) ok) Hl1)
    as ([] & w2 & Hrun2 & Hl2).
  rewrite (bind_ok _ _ _ _ _ Hrun2).
  rewrite (proj2 (String.eqb_neq x me) Hne).
  unfold sleep. rewrite (bind_ok _ _ _ _ _ (blocking_calm E _ w2 Hc)).
  set (w3 := elapse _ w2).
  assert (ledger w3 = ledger w) as Hl3 by exact Hl2.
  assert (length (requests w3) = length (requests w)) as Hlen.
  { apply (f_equal (λ v, length v.2)) in Hl3. simpl in Hl3.
    by rewrite !length_map in Hl3. }
  destruct (add_attempts_settles E x Hc j MAX_RETRIES 0 w3 st)
    as (w4 & Hrun4 & Hd4 & _ & Hrq4).
  { done. } { done. }
  { intros i Hi. rewrite Hlen. by apply Hrl. }
  { by rewrite Hlen. }
  unfold add_to_blocklist. rewrite (bind_ok _ _ _ _ _ Hrun4).
  destruct (record_calm E x st w4 Hc) as (w' & Hrun5 & Hl5).
  exists w'. split; [exact Hrun5 |]. rewrite Hl5, <- Hl3.
  f_equal. unfold ledger, sent. by rewrite Hd4, Hrq4.
Qed.

(* ================================================================== *)
(** * The two duplicate tests                                         *)
(* ================================================================== *)

Lemma prefix_split n h :
  String.prefix n h = true → ∃ b, h = String.append n b.
Proof.
  revert h. induction n as [|c n IH]; intros h Hp.
  - by exists h.
  - destruct h as [|c' h]; [done |]. simpl in Hp.
    destruct (ascii_dec c c') as [->|]; [| done].
    destruct (IH h Hp) as [b ->]. by exists b.
Qed.

Lemma prefix_append n b : String.prefix n (String.append n b) = true.
Proof.
  induction n as [|c n IH]; simpl; [by destruct b |].
  by destruct (ascii_dec c c).
Qed.

Lemma contains_unfold n h :
  PyStr.contains n h
  = if String.prefix n h then true
    else match h with
         | EmptyString => false
         | String _ h' => PyStr.contains n h'
         end.
Proof. by destruct h. Qed.

Lemma contains_split n h :
  PyStr.contains n h = true →
  ∃ a b, h = String.append a (String.append n b).
Proof.
  induction h as [|c h IH]; rewrite contains_unfold.
  - destruct (String.prefix n "") eqn:Hp; [| discriminate]. intros _.
    destruct (prefix_split _ _ Hp) as [b Hb]. by exists "", b.
  - destruct (String.prefix n (String c h)) eqn:Hp.
    + intros _. destruct (prefix_split _ _ Hp) as [b Hb]. by exists "", b.
    + intros Hc. destruct (IH Hc) as (a & b & ->). by exists (String c a), b.
Qed.

Lemma contains_append n a b :
  PyStr.contains n (String.append a (String.append n b)) = true.
Proof.
  induction a as [|c a IH]; rewrite contains_unfold.
  - change (String.append "" (String.append n b)) with (String.append n b).
    by rewrite prefix_append.
  - change (String.append (String c a) (String.append n b))
      with (String c (String.append a (String.append n b))).
    destruct (String.prefix n _); [done | exact IH].
Qed.

Lemma lower_append a b :
  PyStr.lower (String.append a b)
  = String.append (PyStr.lower a) (PyStr.lower b).
Proof. induction a as [|c a IH]; simpl; [done | by rewrite IH]. Qed.

(** A needle already in lower case survives lowering the haystack. *)
Lemma contains_lower n h :
  PyStr.lower n = n →
  PyStr.contains n h = true → PyStr.contains n (PyStr.lower h) = true.
Proof.
  intros Hn Hc. destruct (contains_split n h Hc) as (a & b & ->).
  rewrite !lower_append, Hn. apply contains_append.
Qed.

(** What blocklist.py takes for a duplicate, block_followers.py takes
    for one too. *)
Lemma is_duplicate_record_is_duplicate e :
  is_duplicate_record e = true → is_duplicate e = true.
Proof.
  unfold is_duplicate_record, is_duplicate, error_text.
  destruct (args e) as [|a ?]; [done |]. intros Hc.
  by rewrite (contains_lower "duplicate record" a eq_refl Hc).
Qed.

(* ================================================================== *)
(** * Duplicates and exhausted retries                                *)
(* ================================================================== *)

Lemma ledger_length w : length (ledger w).2 = length (requests w).
Proof. simpl. apply length_map. Qed.

Lemma recorded_sent_length x st xs v :
  length (recorded x st (sent xs v)).2 = (length v.2 + length xs)%nat.
Proof.
  destruct v as [[[[[F p] a] s] f] r], st; simpl; apply length_app.
Qed.

Lemma settles_duplicate e r :
  is_duplicate e = true → settles (Rejected e) r = Some skipped_.
Proof. intros H. unfold settles. by rewrite H. Qed.

Lemma settles_last_retry rp :
  rate_limited rp → settles rp (MAX_RETRIES - 1) = Some failed_.
Proof. destruct rp as [|e]; [done |]. intros [H1 H2]. unfold settles. by rewrite H1, H2. Qed.

Lemma add_interactors_duplicate E me x p rest c w e :
  calm E → x ≠ me →
  reply E (length (requests w)) = Rejected e →
  is_duplicate_record e = true →
  add_interactors E me ((x, p) :: rest) c w
  = add_interactors E me rest
      {| added_count := added_count c;
         skipped_count := skipped_count c + 1;
         failed_count := failed_count c |}
      (elapse (0 + Z.of_N (extra E (tick w))) (issue x w)).
Proof.
  intros Hc Hne Hr Hd. simpl.
  rewrite (proj2 (String.eqb_neq x me) Hne).
  rewrite (bind_ok _ _ _ _ _ (create_record_calm E x w Hc)).
  by rewrite Hr, Hd.
Qed.

(** C5.  Without Ctrl-C, for a candidate [x] other than the acting
    identity.  In [run_batch_process]: when the reply to a create
    request for [x] is an error that [add_to_blocklist] takes for a
    duplicate (its text, lower-cased, contains "duplicate record" or
    "already exists"), possibly after [j] rate-limited replies, the
    round records [x] as skipped, with one more processed id and one
    more in the skipped tally and none in the failed tally; the
    duplicate reply is the last request sent for [x]; and the loop goes
    on with the next candidate.  In [add_interactors_to_blocklist]:
    when the reply is an error whose first argument contains
    "duplicate record", the skipped tally grows by one, one request
    was sent, and the loop goes on with the next interactor. *)
Theorem duplicate_is_skipped (E : Env) (me x : string)
    (e : AtProtocolError) (w : World) :
  calm E → x ≠ me →
  (∀ j, (j < MAX_RETRIES)%nat →
     (∀ i, (i < j)%nat → rate_limited (reply E (length (requests w) + i))) →
     reply E (length (requests w) + j) = Rejected e →
     is_duplicate e = true →
     ∃ w', process_one E me x w = (Ok tt, w')
           ∧ ledger w' = recorded x skipped_ (sent (replicate (S j) x) (ledger w))
           ∧ ∀ rest, for_each (x :: rest) (process_one E me) w
                     = for_each rest (process_one E me) w')
  ∧ (∀ p rest c,
       reply E (length (requests w)) = Rejected e →
       is_duplicate_record e = true →
       add_interactors E me ((x, p) :: rest) c w
       = add_interactors E me rest
           {| added_count := added_count c;
              skipped_count := skipped_count c + 1;
              failed_count := failed_count c |}
           (elapse (0 + Z.of_N (extra E (tick w))) (issue x w))).
Proof.
  intros Hc Hne. split.
  - intros j Hj Hrl Hr Hd.
    destruct (process_one_settles E me x Hc Hne j w skipped_ Hj Hrl)
      as (w' & Hrun & Hl).
    { rewrite Hr. by apply settles_duplicate. }
    exists w'. split; [done |]. split; [done |].
    intros rest. simpl. by rewrite (bind_ok _ _ _ _ _ Hrun).
  - intros p rest c Hr Hd.
    by apply (add_interactors_duplicate E me x p rest c w e).
Qed.

(** C6.  Without Ctrl-C, when the first [MAX_RETRIES] = 5 create
    requests for a candidate are answered by rate-limit errors, the
    round records the candidate as failed after exactly five requests:
    no sixth request is sent, whatever its reply would be. *)
Theorem retry_exhaustion (E : Env) (me x : string) (w : World) :
  calm E → x ≠ me →
  (∀ i, (i < MAX_RETRIES)%nat →
     rate_limited (reply E (length (requests w) + i))) →
  ∃ w', process_one E me x w = (Ok tt, w')
        ∧ ledger w' = recorded x failed_ (sent (replicate MAX_RETRIES x) (ledger w))
        ∧ length (requests w') = (length (requests w) + MAX_RETRIES)%nat.
Proof.
  intros Hc Hne Hrl.
  destruct (process_one_settles E me x Hc Hne (MAX_RETRIES - 1) w failed_)
    as (w' & Hrun & Hl).
  { unfold MAX_RETRIES. lia. }
  { intros i Hi. apply Hrl. unfold MAX_RETRIES in *. lia. }
  { apply settles_last_retry, Hrl. unfold MAX_RETRIES. lia. }
  exists w'. split; [done |]. split; [exact Hl |].
  rewrite <- (ledger_length w'), Hl, recorded_sent_length, ledger_length.
  by rewrite length_replicate.
Qed.

(* ================================================================== *)
(** * The acting identity's own id                                    *)
(* ================================================================== *)

Lemma mark_processed_ledger x st v X :
  hoare (λ w, ledger w = v) (mark_processed x st)
    (λ _ w', ledger w' = recorded x st v) X.
Proof.
  intros w Hw. unfold mark_processed, bind, modify.
  by rewrite ledger_mark_processed, Hw.
Qed.

(** The round for the acting identity: recorded as skipped, nothing
    sent; interrupted, nothing was sent either. *)
Lemma process_one_self E me v :
  hoare (λ w, ledger w = v) (process_one E me me)
    (λ _ w', ledger w' = recorded me skipped_ v)
    (λ _ w', ledger w' = v ∨ ledger w' = recorded me skipped_ v).
Proof.
  set (X := λ w' : World, ledger w' = v ∨ ledger w' = recorded me skipped_ v).
  assert (∀ d, keeping (λ w, ledger w = v) X (blocking E d)) as HB1.
  { intros d. eapply keeping_weaken;
      [apply (frame_blocking _ inert_ledger) | by left]. }
  assert (∀ d, keeping (λ w, ledger w = recorded me skipped_ v) X
                 (blocking E d)) as HB2.
  { intros d. eapply keeping_weaken;
      [apply (frame_blocking _ inert_ledger) | by right]. }
  unfold process_one.
  eapply hoare_bind; [apply (frame_can_proceed _ inert_ledger v X) |].
  intros ok.
  eapply hoare_bind; [apply (frame_quota_wait _ inert_ledger E v X HB1) |].
  intros ?. rewrite String.eqb_refl.
  eapply hoare_bind; [apply mark_processed_ledger |]. intros ?.
  apply (frame_save _ inert_ledger E _ X HB2).
Qed.

Section BlocklistSubjects.

Variable E : Env.
Variable me : string.

Let others (w : World) : Prop := subjects (λ x, x ≠ me) w.

Lemma others_blocking d : preserves others (blocking E d).
Proof. apply subjects_blocking. Qed.

Lemma others_count_read w : others w → others (count_read w).
Proof. done. Qed.

Hint Resolve others_blocking others_count_read : inv.

Lemma others_fetch_likers fuel uri all cursor :
  preserves others (fetch_likers E fuel uri all cursor).
Proof.
  revert all cursor. induction fuel as [|fuel IH]; intros all cursor; simpl;
    unfold get_likes; pres.
Qed.

Lemma others_fetch_reposters fuel uri all cursor :
  preserves others (fetch_reposters E fuel uri all cursor).
Proof.
  revert all cursor. induction fuel as [|fuel IH]; intros all cursor; simpl;
    unfold get_reposted_by; pres.
Qed.

Lemma others_add_interactors items c :
  preserves others (add_interactors E me items c).
Proof.
  revert c. induction items as [|[x p] items IH]; intros c; simpl.
  - apply keeping_ret.
  - destruct (String.eqb_spec x me) as [->|Hne]; [apply IH |].
    apply keeping_bind; [by apply subjects_create_record |].
    intros [|e]; [apply IH |]. destruct (is_duplicate_record e); apply IH.
Qed.

Hint Resolve others_fetch_likers others_fetch_reposters
  others_add_interactors : inv.

Lemma others_add_interactors_to_blocklist fuel uri :
  preserves others (add_interactors_to_blocklist E me fuel uri).
Proof. unfold add_interactors_to_blocklist. pres. Qed.

End BlocklistSubjects.

(** C4, as the code has it.  In [run_batch_process] the round for the
    acting identity's own id records it as skipped (one more processed
    id, one more in the skipped tally, the other tallies unchanged) and
    sends no create request, also when Ctrl-C cuts the round short; no
    run sends a create request for that id.  In
    [add_interactors_to_blocklist] no create request is sent for that
    id either, and the loop passes over it without touching any of the
    three tallies. *)
Theorem self_exclusion (E : Env) (me : string) :
  (∀ w,
     match process_one E me me w with
     | (Ok _, w') => ledger w' = recorded me skipped_ (ledger w)
     | (Raise _, w') =>
         ledger w' = ledger w ∨ ledger w' = recorded me skipped_ (ledger w)
     end)
  ∧ (∀ d f t x tm,
       (x, tm) ∈ requests (run_batch_process E me (boot d f t)).2 → x ≠ me)
  ∧ (∀ fuel uri d f t x tm,
       (x, tm) ∈ requests
                   (add_interactors_to_blocklist E me fuel uri (boot d f t)).2 →
       x ≠ me)
  ∧ (∀ p rest c w,
       add_interactors E me ((me, p) :: rest) c w
       = add_interactors E me rest c w).
Proof.
  split; [| split; [| split]].
  - intros w. exact (process_one_self E me (ledger w) w eq_refl).
  - intros d f t x tm Hin.
    eapply (subjects_elem (λ x, x ≠ me) _ x tm); [| exact Hin].
    apply subjects_run_batch_process; [done | constructor].
  - intros fuel uri d f t x tm Hin.
    eapply (subjects_elem (λ x, x ≠ me) _ x tm); [| exact Hin].
    apply (preserves_run _ _ _
             (others_add_interactors_to_blocklist E me fuel uri)).
    constructor.
  - intros p rest c w. simpl. by rewrite String.eqb_refl.
Qed.

(* ================================================================== *)
(** * Pacing of the create requests                                   *)
(* ================================================================== *)

Lemma spaced_snoc g ts t :
  spaced g ts → Forall (λ u, u + g ≤ t) ts → spaced g (ts ++ [t]).
Proof.
  induction ts as [|u ts IH]; simpl; [done |].
  intros [Hu Hs] Hall. inversion Hall as [|? ? Hut Hrest]; subst. split.
  - apply Forall_app. split; [done |]. by constructor.
  - by apply IH.
Qed.

Lemma spaced_filter g (P : Z → Prop) `{!∀ t, Decision (P t)} ts :
  spaced g ts → spaced g (filter P ts).
Proof.
  induction ts as [|t ts IH]; simpl; [done |]. intros [Ht Hs].
  rewrite filter_cons. destruct (decide (P t)); [| by apply IH].
  split; [| by apply IH].
  apply Forall_forall. intros u Hu%list_elem_of_filter.
  rewrite Forall_forall in Ht. apply Ht. tauto.
Qed.

(** Times [g] apart within [lo, hi): one fewer than their number,
    times [g], fits strictly inside. *)
Lemma spaced_span g ts lo hi :
  0 ≤ g → spaced g ts → ts ≠ [] → Forall (λ u, lo ≤ u < hi) ts →
  g * (Z.of_nat (length ts) - 1) < hi - lo.
Proof.
  intros Hg. revert lo. induction ts as [|t ts IH]; intros lo Hs Hne Hall;
    [done |].
  destruct Hs as [Ht Hs]. inversion Hall as [|? ? Hin Hrest]; subst.
  destruct ts as [|u ts'].
  - simpl. lia.
  - assert (Forall (λ v, t + g ≤ v < hi) (u :: ts')) as Hwin.
    { rewrite Forall_forall in Ht, Hrest. apply Forall_forall.
      intros v Hv. specialize (Ht v Hv). specialize (Hrest v Hv). lia. }
    specialize (IH (t + g) Hs ltac:(done) Hwin).
    rewrite length_cons. lia.
Qed.

(** At the pace of one request per [DELAY_BETWEEN_CREATES], an hour
    holds [CREATES_PER_HOUR] requests at most. *)
Lemma paced_hour w s :
  paced w → Z.of_nat (length (in_hour_from s w)) ≤ CREATES_PER_HOUR.
Proof.
  intros [Hs _]. unfold in_hour_from.
  destruct (filter _ (times w)) as [|t ts] eqn:Hf; [by compute |].
  assert (DELAY_BETWEEN_CREATES
            * (Z.of_nat (length (t :: ts)) - 1) < (s + HOUR) - s) as Hspan.
  { apply spaced_span; [by compute | | done |].
    - rewrite <- Hf. by apply spaced_filter.
    - rewrite <- Hf. apply Forall_forall.
      intros u Hu%list_elem_of_filter. tauto. }
  revert Hspan. generalize (Z.of_nat (length (t :: ts))). intros n.
  unfold DELAY_BETWEEN_CREATES, CREATES_PER_HOUR, HOUR, SECOND.
  change (3600 * 1000000 / 1500) with 2400000. lia.
Qed.

Lemma rested_paced w : rested w → paced w.
Proof.
  intros [Hs Hr]. split; [done |]. eapply Forall_impl; [exact Hr |].
  intros u Hu. simpl in Hu. unfold DELAY_BETWEEN_CREATES, HOUR, SECOND,
    CREATES_PER_HOUR in Hu. change (3600 * 1000000 / 1500) with 2400000 in Hu.
  lia.
Qed.

Lemma paced_elapse t w : 0 ≤ t → paced w → paced (elapse t w).
Proof.
  intros Ht [Hs Hp]. split; [done |]. eapply Forall_impl; [exact Hp |].
  intros u Hu. simpl in *. lia.
Qed.

Lemma paced_rest t w :
  DELAY_BETWEEN_CREATES ≤ t → paced w → rested (elapse t w).
Proof.
  intros Ht [Hs Hp]. split; [done |]. eapply Forall_impl; [exact Hp |].
  intros u Hu. simpl in *. lia.
Qed.

Lemma rested_issue x w : rested w → paced (issue x w).
Proof.
  intros [Hs Hr]. unfold paced, times. simpl. rewrite map_app. simpl. split.
  - by apply spaced_snoc.
  - apply Forall_app. split; [| by repeat constructor].
    pose proof (rested_paced w (conj Hs Hr)) as [_ Hp]. exact Hp.
Qed.

Section Pacing.

Variable E : Env.
Variable me : string.

Lemma paced_blocking d : 0 ≤ d → preserves paced (blocking E d).
Proof.
  intros Hd w Hw. unfold blocking.
  destruct (ctrl_c E (tick w)).
  - apply (paced_elapse _ w); [lia | done].
  - apply (paced_elapse _ w); [lia | done].
Qed.

Lemma rest_blocking d :
  DELAY_BETWEEN_CREATES ≤ d →
  hoare paced (blocking E d) (λ _, rested) (λ _, paced).
Proof.
  intros Hd w Hw. unfold blocking.
  destruct (ctrl_c E (tick w)).
  - apply (paced_elapse _ w); [lia | done].
  - apply (paced_rest _ w); [lia | done].
Qed.

Lemma paced_still (g : World → World) w :
  times (g w) = times w → now (g w) = now w → paced w → paced (g w).
Proof. unfold paced. by intros -> ->. Qed.

Hint Extern 1 (paced (_ _)) =>
  (apply paced_still; [reflexivity | reflexivity | assumption]) : inv.
Hint Extern 1 (preserves paced (blocking _ _)) =>
  (apply paced_blocking; lia) : inv.

Lemma paced_save : preserves paced (save E).
Proof. unfold save. pres. Qed.

Lemma paced_can_proceed : preserves paced can_proceed.
Proof. unfold can_proceed, reset_hourly_if_needed. pres. Qed.

Lemma paced_wait_chunks n ws : preserves paced (wait_chunks E n ws).
Proof.
  revert ws. induction n as [|n IH]; intros ws; simpl; [apply keeping_ret |].
  destruct (0 <? ws) eqn:Hws; [| apply keeping_ret].
  apply Z.ltb_lt in Hws. apply keeping_bind; [| intros ?; apply IH].
  apply paced_blocking. unfold SECOND. lia.
Qed.

Hint Resolve paced_save paced_can_proceed paced_wait_chunks : inv.

Lemma paced_wait_for_next_hour : preserves paced (wait_for_next_hour E).
Proof. unfold wait_for_next_hour. pres. Qed.

Hint Resolve paced_wait_for_next_hour : inv.

(** A request may leave once the previous one has rested. *)
Lemma paced_create_record x :
  hoare rested (create_record E x) (λ _, paced) (λ _, paced).
Proof.
  unfold create_record.
  eapply hoare_bind; [apply (keeping_gets rested paced) |]. intros i.
  eapply hoare_bind.
  { apply (hoare_modify rested (issue x) (λ _, paced) (λ _, paced)).
    apply rested_issue. }
  intros ?.
  eapply hoare_bind; [apply (paced_blocking 0); lia |]. intros ?.
  apply keeping_ret.
Qed.

Lemma backoff_rests retries :
  DELAY_BETWEEN_CREATES ≤ INITIAL_BACKOFF * 2 ^ (Z.of_nat (S retries) - 1).
Proof.
  assert (0 < 2 ^ (Z.of_nat (S retries) - 1)) by (apply Z.pow_pos_nonneg; lia).
  unfold DELAY_BETWEEN_CREATES, INITIAL_BACKOFF, HOUR, SECOND,
    CREATES_PER_HOUR.
  change (3600 * 1000000 / 1500) with 2400000. lia.
Qed.

(** Every round of [add_to_blocklist] sends its request after a rest:
    the pacing delay before the first, a backoff before each retry. *)
Lemma paced_add_attempts n x r :
  hoare rested (add_attempts E n x r) (λ _, paced) (λ _, paced).
Proof.
  revert r. induction n as [|n IH]; intros r.
  - apply hoare_ret. apply rested_paced.
  - rewrite add_attempts_unfold.
    destruct (r <? MAX_RETRIES)%nat; [| apply hoare_ret, rested_paced].
    eapply hoare_bind; [apply paced_create_record |].
    intros [|e]; [apply keeping_ret |].
    destruct (is_duplicate e); [apply keeping_ret |].
    destruct (is_rate_limit_error e); [| apply keeping_ret].
    destruct (MAX_RETRIES <=? S r)%nat; [apply keeping_ret |].
    eapply hoare_bind; [apply rest_blocking, backoff_rests |].
    intros ?. apply IH.
Qed.

Lemma paced_process_one x : preserves paced (process_one E me x).
Proof.
  unfold process_one.
  apply keeping_bind; [apply paced_can_proceed |]. intros ok.
  apply keeping_bind; [pres |]. intros ?.
  destruct (String.eqb x me).
  - unfold mark_processed. pres.
  - eapply hoare_bind; [apply rest_blocking; lia |]. intros ?.
    eapply hoare_bind; [apply paced_add_attempts |]. intros status.
    unfold mark_processed, increment_hourly. pres.
Qed.

Lemma paced_run_batch_process : preserves paced (run_batch_process E me).
Proof.
  unfold run_batch_process.
  apply keeping_bind; [apply keeping_gets |]. intros remaining.
  apply keeping_bind; [| intros ?; apply paced_save].
  apply keeping_try_except; [| | done].
  - apply keeping_for_each. intros x _. apply paced_process_one.
  - intros e handler He. destruct e; simplify_eq/=.
    apply keeping_bind; [apply paced_save | intros ?; by apply keeping_raise].
Qed.

End Pacing.

(** C1, as the code has it.  In every run of [run_batch_process]
    (block_followers.py), whatever the service replies, however long
    operations take and whenever Ctrl-C arrives, any hour
    [s, s + HOUR) holds at most [CREATES_PER_HOUR] = 1500 create
    requests: each request leaves at least [DELAY_BETWEEN_CREATES]
    after the one before. *)
Theorem quota_discipline (E : Env) (me : string)
    (d : Data) (f : StateFile) (t : Z) (s : Z) :
  Z.of_nat (length (in_hour_from s (run_batch_process E me (boot d f t)).2))
  ≤ CREATES_PER_HOUR.
Proof.
  apply paced_hour.
  apply (preserves_run _ _ _ (paced_run_batch_process E me)).
  split; constructor.
Qed.

(* ================================================================== *)
(** * Enumeration                                                     *)
(* ================================================================== *)

Lemma keys_dict_set k v d :
  keys (dict_set k v d) = if decide (k ∈ keys d) then keys d else keys d ++ [k].
Proof.
  induction d as [|[k' v'] d IH].
  - destruct (decide (k ∈ keys [])) as [Hin|_]; [| done].
    by apply elem_of_nil in Hin.
  - change (dict_set k v ((k', v') :: d))
      with (if String.eqb k' k then (k', v) :: d
            else (k', v') :: dict_set k v d).
    change (keys ((k', v') :: d)) with (k' :: keys d).
    destruct (String.eqb_spec k' k) as [->|Hne].
    + rewrite decide_True; [done | constructor].
    + change (keys ((k', v') :: dict_set k v d))
        with (k' :: keys (dict_set k v d)).
      rewrite IH. destruct (decide (k ∈ keys d)) as [Hin|Hnin].
      * rewrite decide_True; [done | by constructor].
      * rewrite decide_False; [done |].
        intros [?|?]%elem_of_cons; simplify_eq/=; tauto.
Qed.

Lemma dict_get_set_eq k v d : dict_get k (dict_set k v d) = Some v.
Proof.
  induction d as [|[k' v'] d IH]; simpl; [by rewrite String.eqb_refl |].
  destruct (String.eqb k' k) eqn:Hk; simpl; by rewrite Hk.
Qed.

Lemma dict_get_set_ne k k' v d :
  k ≠ k' → dict_get k' (dict_set k v d) = dict_get k' d.
Proof.
  intros Hne. induction d as [|[k'' v''] d IH]; simpl.
  - by rewrite (proj2 (String.eqb_neq k k') Hne).
  - destruct (String.eqb_spec k'' k) as [->|Hk]; simpl.
    + by rewrite (proj2 (String.eqb_neq k k') Hne).
    + by rewrite IH.
Qed.

Lemma NoDup_keys_dict_set k v d : NoDup (keys d) → NoDup (keys (dict_set k v d)).
Proof.
  intros Hnd. rewrite keys_dict_set. destruct (decide _) as [|Hnin]; [done |].
  apply NoDup_app. split; [done |]. split; [| apply NoDup_singleton].
  intros x Hx ->%list_elem_of_singleton. done.
Qed.

Lemma elem_of_keys_dict_set k v d x :
  x ∈ keys (dict_set k v d) ↔ x = k ∨ x ∈ keys d.
Proof.
  rewrite keys_dict_set. destruct (decide _) as [Hin|Hnin].
  - split; [tauto |]. by intros [->|?].
  - rewrite elem_of_app, list_elem_of_singleton. tauto.
Qed.

Lemma fold_dict_set users d :
  let d' := fold_left (λ d user, dict_set (did user) user d) users d in
  (NoDup (keys d) → NoDup (keys d'))
  ∧ (∀ x, x ∈ keys d' ↔ x ∈ keys d ∨ x ∈ map did users)
  ∧ (∀ x, dict_get x d'
          = match last_with x users with
            | Some u => Some u
            | None => dict_get x d
            end).
Proof.
  revert d. induction users as [|u users IH]; intros d; simpl.
  - split; [done |]. split; [| done]. intros x. rewrite elem_of_nil. tauto.
  - destruct (IH (dict_set (did u) u d)) as (Hnd & Hin & Hget).
    split; [| split].
    + intros H. by apply Hnd, NoDup_keys_dict_set.
    + intros x. rewrite Hin, elem_of_keys_dict_set, elem_of_cons. tauto.
    + intros x. rewrite Hget. destruct (last_with x users); [done |].
      destruct (String.eqb_spec (did u) x) as [<-|Hne].
      * apply dict_get_set_eq.
      * by apply dict_get_set_ne.
Qed.

(** The interactors of blocklist.py: no id twice, every user's id once,
    with the profile of its last occurrence. *)
Lemma dict_of_users_spec users :
  NoDup (keys (dict_of_users users))
  ∧ (∀ x, x ∈ keys (dict_of_users users) ↔ x ∈ map did users)
  ∧ (∀ x, dict_get x (dict_of_users users) = last_with x users).
Proof.
  destruct (fold_dict_set users []) as (Hnd & Hin & Hget).
  split; [apply Hnd; constructor |]. split.
  - intros x. unfold dict_of_users. rewrite Hin. simpl.
    rewrite elem_of_nil. tauto.
  - intros x. unfold dict_of_users. rewrite Hget.
    by destruct (last_with x users).
Qed.

Lemma inert_inbox : inert inbox.
Proof. by split. Qed.

Section Followers.

Variable E : Env.

Lemma inbox_blocking v d :
  keeping (λ w, inbox w = v) (λ _, True) (blocking E d).
Proof.
  eapply keeping_weaken; [apply (frame_blocking _ inert_inbox) | done].
Qed.

(** A page that arrives is appended to the inbox; an error leaves the
    inbox as it was. *)
Lemma get_followers_inbox actor cursor v :
  hoare (λ w, inbox w = v) (get_followers E actor cursor)
    (λ resp w', match resp with
                | PageOk fs _ => inbox w' = v ++ [fs]
                | PageErr _ => inbox w' = v
                end)
    (λ _ _, True).
Proof.
  unfold get_followers.
  eapply hoare_bind; [apply (keeping_gets (λ w, inbox w = v) (λ _, True)) |].
  intros i.
  eapply hoare_bind;
    [apply (keeping_modify (λ w, inbox w = v) (λ _, True)); by intros w <- |].
  intros ?.
  eapply hoare_bind; [apply inbox_blocking |]. intros ?.
  destruct (followers_page E i actor cursor) as [fs c|e].
  - eapply hoare_bind.
    + apply (hoare_modify (λ w, inbox w = v) (receive fs)
               (λ _ w', inbox w' = v ++ [fs]) (λ _ _, True)).
      by intros w <-.
    + intros ?. by apply hoare_ret.
  - by apply hoare_ret.
Qed.

Lemma fetch_all_followers_loop_unfold fuel target_did all cursor retries :
  fetch_all_followers_loop E (S fuel) target_did all cursor retries
  = bind (sleep E DELAY_BETWEEN_REQUESTS) (λ _,
      bind (get_followers E target_did cursor) (λ response,
        match response with
        | PageOk fs cursor' =>
            if truthy cursor'
            then fetch_all_followers_loop E fuel target_did (all ++ fs) cursor' 0
            else ret (Some (all ++ fs))
        | PageErr e =>
            if is_rate_limit_error e then
              if (MAX_RETRIES <=? S retries)%nat then ret (Some all)
              else
                bind (sleep E (INITIAL_BACKOFF * 2 ^ (Z.of_nat (S retries) - 1)))
                  (λ _, fetch_all_followers_loop E fuel target_did all cursor
                          (S retries))
            else ret (Some all)
        end)).
Proof. reflexivity. Qed.

(** [fetch_all_followers] returns what it had, followed by the pages
    that arrived, whole and in order. *)
Lemma fetch_all_followers_loop_inbox fuel target_did :
  ∀ all0 ps0 cursor retries v,
    hoare (λ w, inbox w = v ++ ps0)
      (fetch_all_followers_loop E fuel target_did
         (all0 ++ concat ps0) cursor retries)
      (λ res w', ∀ l, res = Some l →
                      ∃ ps, inbox w' = v ++ ps ∧ l = all0 ++ concat ps)
      (λ _ _, True).
Proof.
  induction fuel as [|fuel IH]; intros all0 ps0 cursor retries v.
  - by apply hoare_ret.
  - rewrite fetch_all_followers_loop_unfold.
    eapply hoare_bind; [apply inbox_blocking |]. intros ?.
    eapply hoare_bind; [apply get_followers_inbox |].
    intros [fs c|e].
    + assert ((all0 ++ concat ps0) ++ fs = all0 ++ concat (ps0 ++ [fs])) as Heq.
      { rewrite concat_app. simpl. by rewrite app_nil_r, app_assoc. }
      destruct (truthy c).
      * rewrite Heq. eapply hoare_conseq; [apply (IH all0 (ps0 ++ [fs]) c 0%nat v) | | done | done].
        intros w Hw. simpl in Hw. by rewrite <- app_assoc in Hw.
      * apply hoare_ret. intros w Hw l [= <-].
        exists (ps0 ++ [fs]). split; [by rewrite app_assoc | done].
    + destruct (is_rate_limit_error e).
      * destruct (MAX_RETRIES <=? S retries)%nat.
        -- apply hoare_ret. intros w Hw l [= <-]. by exists ps0.
        -- eapply hoare_bind; [apply inbox_blocking |]. intros ?.
           apply IH.
      * apply hoare_ret. intros w Hw l [= <-]. by exists ps0.
Qed.

Lemma fetch_all_followers_inbox fuel target_did w :
  match fetch_all_followers E fuel target_did w with
  | (Ok (Some l), w') => ∃ ps, inbox w' = inbox w ++ ps ∧ l = concat ps
  | _ => True
  end.
Proof.
  pose proof (fetch_all_followers_loop_inbox fuel target_did [] [] None 0%nat
                (inbox w) w) as H.
  simpl in H. rewrite app_nil_r in H. specialize (H eq_refl).
  unfold fetch_all_followers.
  destruct (fetch_all_followers_loop E fuel target_did [] None 0 w)
    as [[[l|]|e] w']; try done.
  by apply H.
Qed.

End Followers.

Lemma add_interactors_to_blocklist_items E me fuel uri w items c w' :
  add_interactors_to_blocklist E me fuel uri w = (Ok (Some (items, c)), w') →
  ∃ likers reposters, items = dict_of_users (likers ++ reposters).
Proof.
  unfold add_interactors_to_blocklist, bind, ret.
  destruct (fetch_likers E fuel uri [] None w) as [[[likers|]|?] w1]; try done.
  destruct (fetch_reposters E fuel uri [] None w1) as [[[reposters|]|?] w2];
    try done.
  destruct (add_interactors E me _ no_counts w2) as [[c'|?] w3]; try done.
  intros [= <- <- <-]. by exists likers, reposters.
Qed.

(** C8, as the code has it.  The interactors of
    [add_interactors_to_blocklist] never hold an id twice.
    [fetch_all_followers] does not deduplicate: what it returns is the
    pages that arrived, whole and in order, so the candidates of the
    batch set up from it are the ids of those pages, one entry per
    occurrence. *)
Theorem candidates_deduplication (E : Env) (me : string) :
  (∀ fuel uri w items c w',
     add_interactors_to_blocklist E me fuel uri w = (Ok (Some (items, c)), w') →
     NoDup (keys items))
  ∧ (∀ fuel target w l w',
       fetch_all_followers E fuel target w = (Ok (Some l), w') →
       ∃ pages,
         inbox w' = inbox w ++ pages
         ∧ ∀ tdid thandle uri t,
             followers (new_batch tdid thandle uri l t)
             = map did (concat pages)).
Proof.
  split.
  - intros fuel uri w items c w' Hrun.
    destruct (add_interactors_to_blocklist_items _ _ _ _ _ _ _ _ Hrun)
      as (likers & reposters & ->).
    apply dict_of_users_spec.
  - intros fuel target w l w' Hrun.
    pose proof (fetch_all_followers_inbox E fuel target w) as H.
    rewrite Hrun in H. destruct H as (pages & Hin & ->).
    by exists pages.
Qed.

Lemma last_with_did x users u : last_with x users = Some u → did u = x.
Proof.
  induction users as [|u' users IH]; simpl; [done |].
  destruct (last_with x users) as [u''|].
  - intros [= ->]. by apply IH.
  - destruct (String.eqb_spec (did u') x); [| done]. by intros [= <-].
Qed.

Lemma last_with_elem x users :
  x ∈ map did users → ∃ u, last_with x users = Some u.
Proof.
  induction users as [|u' users IH]; simpl.
  - by intros ?%elem_of_nil.
  - intros [->|Hin]%elem_of_cons.
    + destruct (last_with (did u') users); [by eexists |].
      rewrite String.eqb_refl. by eexists.
    + destruct (IH Hin) as [u ->]. by eexists.
Qed.

Lemma count_once (x : string) (l : list string) :
  NoDup l → x ∈ l → length (filter (λ k, k = x) l) = 1%nat.
Proof.
  induction l as [|k l IH]; [by intros _ ?%elem_of_nil |].
  intros [Hk Hnd]%NoDup_cons Hin. rewrite filter_cons.
  destruct (decide (k = x)) as [->|Hne].
  - simpl. f_equal. rewrite filter_none; [done |]. by intros y Hy ->.
  - apply IH; [done |]. by apply elem_of_cons in Hin as [->|].
Qed.

(** C10, as the code has it.  An id that occurs among the likers
    followed by the reposters is a key of [interactors] exactly once,
    and its value is the profile of its last occurrence in that
    sequence: the dict comprehension overwrites, the last-seen label
    wins. *)
Theorem interactors_last_seen_wins (likers reposters : list Profile)
    (x : string) :
  x ∈ map did (likers ++ reposters) →
  let interactors := dict_of_users (likers ++ reposters) in
  length (filter (λ k, k = x) (keys interactors)) = 1%nat
  ∧ ∃ u, dict_get x interactors = Some u
         ∧ last_with x (likers ++ reposters) = Some u
         ∧ did u = x.
Proof.
  intros Hin interactors.
  destruct (dict_of_users_spec (likers ++ reposters)) as (Hnd & Hkeys & Hget).
  split.
  - apply count_once; [done |]. by apply Hkeys.
  - destruct (last_with_elem x _ Hin) as [u Hu]. exists u.
    split; [by rewrite <- Hu |]. split; [done |].
    by apply (last_with_did x (likers ++ reposters)).
Qed.

(* ================================================================== *)
(** * Loading the state file                                          *)
(* ================================================================== *)

(** X1.  What [load] tolerates: no file; a file that cannot be opened
    or whose text is not JSON, with the warning printed. *)
Lemma load_tolerates w :
  (file w = Missing → load w = (Ok false, w))
  ∧ (file w = Unreadable →
       load w = (Ok false, say (WarnCouldNotLoad OSError) w))
  ∧ (file w = Malformed →
       load w = (Ok false, say (WarnCouldNotLoad JSONDecodeError) w)).
Proof.
  repeat split; intros Hf; destruct w; simpl in Hf; subst; reflexivity.
Qed.

Lemma load_stored w d :
  file w = Stored d → load w = (Ok true, upd_data (λ _, d) w).
Proof. intros Hf. destruct w. simpl in Hf. by subst. Qed.

(** C9 fails on the code for one kind of corrupt file.  A state file
    whose bytes do not decode makes [json.load] raise
    [UnicodeDecodeError], which is neither a [JSONDecodeError] nor an
    [OSError]: [load] raises it to its caller, with no warning and no
    answer. *)
Theorem load_raises_on_undecodable_file (d : Data) (t : Z) :
  load (boot d Undecodable t)
  = (Raise UnicodeDecodeError, boot d Undecodable t).
Proof. reflexivity. Qed.

(* ================================================================== *)
(** * Concrete runs                                                   *)
(* ================================================================== *)

Lemma calm_service rp : calm (service rp never).
Proof. by intros k. Qed.

(** The tally invariant on a run over [small_batch]. *)
Lemma counter_tally_invariant_witness :
  let w' := (run_batch_process (service (λ _, Created) never) "did:plc:me"
               (boot small_batch Missing 0)).2 in
  Forall tally (journal w') ∧ tally (data w').
Proof.
  apply (counter_tally_invariant (service (λ _, Created) never) "did:plc:me"
           small_batch Missing 0).
  split; [reflexivity | apply list_subseteq_nil].
Defined.

(** A second run over a batch that is finished. *)
Lemma executor_idempotent_witness :
  let w' := (run_batch_process (service (λ _, Created) never) "did:plc:me"
               (boot finished_batch Missing 0)).2 in
  get_remaining finished_batch = []
  ∧ requests w' = []
  ∧ processed (data w') = processed finished_batch
  ∧ get_remaining (data w') = [].
Proof.
  apply (executor_idempotent (service (λ _, Created) never) "did:plc:me"
           finished_batch Missing 0).
  vm_compute. intros x Hx. exact Hx.
Defined.

(** A service that calls every create a duplicate: alice is skipped
    after one request, in both scripts. *)
Lemma duplicate_is_skipped_witness :
  let E := service (λ _, Rejected duplicate_error) never in
  let w := boot small_batch Missing 0 in
  (∃ w', process_one E "did:plc:me" "did:plc:alice" w = (Ok tt, w')
         ∧ ledger w'
           = recorded "did:plc:alice" skipped_
               (sent ["did:plc:alice"] (ledger w)))
  ∧ add_interactors E "did:plc:me" [("did:plc:alice", alice)] no_counts w
    = add_interactors E "did:plc:me" []
        {| added_count := 0; skipped_count := 0 + 1; failed_count := 0 |}
        (elapse (0 + 1000) (issue "did:plc:alice" w)).
Proof.
  intros E w.
  destruct (duplicate_is_skipped E "did:plc:me" "did:plc:alice"
              duplicate_error w) as [Hbf Hbl].
  { apply calm_service. }
  { discriminate. }
  split.
  - destruct (Hbf 0%nat) as (w' & Hrun & Hl & _).
    + unfold MAX_RETRIES. lia.
    + intros i Hi. lia.
    + reflexivity.
    + vm_compute. reflexivity.
    + exists w'. split; [exact Hrun | exact Hl].
  - apply (Hbl alice [] no_counts); [reflexivity | vm_compute; reflexivity].
Defined.

(** Five rate limits, then success: alice is recorded as failed and
    the sixth request is never sent. *)
Lemma retry_exhaustion_witness :
  let E := service five_limits never in
  let w := boot small_batch Missing 0 in
  ∃ w', process_one E "did:plc:me" "did:plc:alice" w = (Ok tt, w')
        ∧ ledger w'
          = recorded "did:plc:alice" failed_
              (sent (replicate MAX_RETRIES "did:plc:alice") (ledger w))
        ∧ length (requests w') = (length (requests w) + MAX_RETRIES)%nat.
Proof.
  intros E w.
  apply (retry_exhaustion E "did:plc:me" "did:plc:alice" w).
  - apply calm_service.
  - discriminate.
  - intros i Hi. unfold MAX_RETRIES in Hi.
    destruct i as [|[|[|[|[|i]]]]]; [vm_compute; split; reflexivity .. | lia].
Defined.

(** Ctrl-C during the save that follows the acting identity's own
    round, and none after: alice and the own id are on file, carol
    remains. *)
Lemma interrupt_saves_and_exits_witness :
  ∃ w' k,
    run_batch_process (service (λ _, Created) third) "did:plc:me"
      (boot small_batch Missing 0) = (Raise (SystemExit 0), w')
    ∧ data w' = set_last_updated (Some (now stopped)) (data stopped)
    ∧ file w' = Stored (data w')
    ∧ (k ≤ length (get_remaining small_batch))%nat
    ∧ processed (data w')
      = processed small_batch ++ take k (get_remaining small_batch)
    ∧ get_remaining (data w')
      = filter (λ x, x ∉ take k (get_remaining small_batch))
          (drop k (get_remaining small_batch))
    ∧ (NoDup (followers small_batch) →
         get_remaining (data w') = drop k (get_remaining small_batch)).
Proof.
  apply (interrupt_saves_and_exits (service (λ _, Created) third)
           "did:plc:me" small_batch Missing 0 stopped).
  - vm_compute. reflexivity.
  - vm_compute. reflexivity.
Defined.

(** C7 as stated fails: a run stopped by Ctrl-C ends with exit
    status 0. *)
Lemma interrupted_run_exits_zero :
  let E := service (λ _, Created) third in
  let w := boot small_batch Missing 0 in
  (for_each (get_remaining small_batch) (process_one E "did:plc:me") w).1
    = Raise KeyboardInterrupt
  ∧ (run_batch_process E "did:plc:me" w).1 = Raise (SystemExit 0)
  ∧ ¬ ∃ code, (run_batch_process E "did:plc:me" w).1 = Raise (SystemExit code)
              ∧ code ≠ 0.
Proof.
  assert ((run_batch_process (service (λ _, Created) third) "did:plc:me"
             (boot small_batch Missing 0)).1 = Raise (SystemExit 0)) as Hrun
    by (vm_compute; reflexivity).
  split; [vm_compute; reflexivity |]. split; [exact Hrun |].
  intros (code & Hcode & Hne). rewrite Hrun in Hcode.
  apply Hne. by injection Hcode as <-.
Qed.

(** C1 as stated fails: blocklist.py sends its create requests back
    to back; here 1501 of them leave within the first hour (within
    three minutes). *)
Lemma interactors_exceed_quota :
  let w' := (add_interactors_to_blocklist busy_post "did:plc:me" 1
               "at://did:plc:author/app.bsky.feed.post/3kxyz"
               (boot init_data Missing 0)).2 in
  CREATES_PER_HOUR < Z.of_nat (length (in_hour_from 0 w'))
  ∧ now w' < 180 * SECOND.
Proof. vm_compute. split; reflexivity. Qed.

(** C4 as stated fails: blocklist.py passes over the acting identity's
    own id without counting it as skipped. *)
Lemma own_id_not_tallied :
  (add_interactors_to_blocklist own_like "did:plc:me" 1
     "at://did:plc:author/app.bsky.feed.post/3kxyz"
     (boot init_data Missing 0)).1
  = Ok (Some ([("did:plc:me", myself)],
              {| added_count := 0; skipped_count := 0; failed_count := 0 |})).
Proof. vm_compute. reflexivity. Qed.

(** C8 as stated fails: [fetch_all_followers] keeps an id that the
    service lists twice, and so do the candidates of the batch. *)
Lemma followers_keep_repeats :
  (fetch_all_followers shifting_pages 2 "did:plc:target"
     (boot init_data Missing 0)).1
  = Ok (Some [alice; bob; bob; carol])
  ∧ ¬ NoDup (followers
               (new_batch "did:plc:target" "target.example"
                  "at://did:plc:me/app.bsky.graph.list/3kabc"
                  [alice; bob; bob; carol] 0)).
Proof.
  split; [vm_compute; reflexivity |].
  intros Hnd. simpl in Hnd.
  apply NoDup_cons in Hnd as [_ Hnd]. apply NoDup_cons in Hnd as [Hbob _].
  apply Hbob. constructor.
Qed.

(** C10 as stated fails: the entry kept is the one seen last, not the
    one seen first. *)
Lemma first_seen_label_lost :
  (add_interactors_to_blocklist renamed "did:plc:me" 1
     "at://did:plc:author/app.bsky.feed.post/3kxyz"
     (boot init_data Missing 0)).1
  = Ok (Some ([("did:plc:dana", new_name)],
              {| added_count := 1; skipped_count := 0; failed_count := 0 |}))
  ∧ first_with "did:plc:dana" ([old_name] ++ [new_name]) = Some old_name
  ∧ dict_get "did:plc:dana" (dict_of_users ([old_name] ++ [new_name]))
    = Some new_name
  ∧ handle new_name ≠ handle old_name.
Proof. vm_compute. repeat split; try reflexivity. discriminate. Qed.

(** The renamed account is kept once, under the handle seen last. *)
Lemma interactors_last_seen_wins_witness :
  let interactors := dict_of_users ([old_name] ++ [new_name]) in
  length (filter (λ k, k = "did:plc:dana") (keys interactors)) = 1%nat
  ∧ ∃ u, dict_get "did:plc:dana" interactors = Some u
         ∧ last_with "did:plc:dana" ([old_name] ++ [new_name]) = Some u
         ∧ did u = "did:plc:dana".
Proof.
  apply (interactors_last_seen_wins [old_name] [new_name] "did:plc:dana").
  simpl. constructor.
Defined.

(** The spec's scenario: candidates A, B, C with B the acting
    identity, A added and C reported as a duplicate. *)
Example scenario_added_self_duplicate :
  let rp := λ i : nat, match i with
                       | O => Created
                       | _ => Rejected duplicate_error
                       end in
  let w' := (run_batch_process (service rp never) "did:plc:me"
               (boot small_batch Missing 0)).2 in
  processed (data w') = ["did:plc:alice"; "did:plc:me"; "did:plc:carol"]
  ∧ added (data w') = 1 ∧ skipped (data w') = 2 ∧ failed (data w') = 0
  ∧ map fst (requests w') = ["did:plc:alice"; "did:plc:carol"].
Proof. vm_compute. repeat split. Qed.

(** Six rounds do what five do. *)
Lemma add_attempts_rounds_witness :
  add_attempts (service five_limits never) 6 "did:plc:alice" 0
    (boot small_batch Missing 0)
  = add_attempts (service five_limits never) 5 "did:plc:alice" 0
      (boot small_batch Missing 0).
Proof.
  apply (add_attempts_rounds (service five_limits never) "did:plc:alice" 5 0).
  unfold MAX_RETRIES. lia.
Defined.

(* ================================================================== *)
(** * The state store                                                 *)
(* ================================================================== *)

(** X4.  What [save] writes, [load] reads back: after a save that is
    not interrupted the file holds the document (with [last_updated]
    set to the time of the save), and a [load] into any [BatchState]
    returns [True] with exactly that document; once [delete] has run,
    [load] returns [False] and prints nothing. *)
Theorem save_load_delete (E : Env) (w : World) :
  calm E →
  ∃ w1,
    save E w = (Ok tt, w1)
    ∧ data w1 = set_last_updated (Some (now w)) (data w)
    ∧ (∀ d', load (upd_data (λ _, d') w1) = (Ok true, w1))
    ∧ ∃ w2, Orchestrator.delete w1 = (Ok tt, w2)
            ∧ file w2 = Missing
            ∧ load w2 = (Ok false, w2).
Proof.
  intros Hc. unfold save, bind, gets, modify.
  rewrite (blocking_calm E 0 _ Hc). eexists. split; [reflexivity |].
  split; [reflexivity |]. split; [intros d'; reflexivity |].
  eexists. split; [reflexivity |]. split; reflexivity.
Qed.

Lemma save_load_delete_witness :
  let E := service (λ _, Created) never in
  let w := boot small_batch Missing 0 in
  ∃ w1,
    save E w = (Ok tt, w1)
    ∧ data w1 = set_last_updated (Some (now w)) (data w)
    ∧ (∀ d', load (upd_data (λ _, d') w1) = (Ok true, w1))
    ∧ ∃ w2, Orchestrator.delete w1 = (Ok tt, w2)
            ∧ file w2 = Missing
            ∧ load w2 = (Ok false, w2).
Proof.
  intros E w. apply (save_load_delete E w). apply calm_service.
Defined.

(** X5.  [get_remaining] lists the followers not yet processed, in
    follower order; recording a candidate takes exactly that id out of
    it, so every recorded remaining candidate makes it shorter. *)
Theorem remaining_after_mark (d : Data) (x : string) (st : Status) :
  (∀ y, y ∈ get_remaining d ↔ y ∈ followers d ∧ y ∉ processed d)
  ∧ get_remaining d `sublist_of` followers d
  ∧ get_remaining (mark x st d) = filter (λ y, y ≠ x) (get_remaining d)
  ∧ (x ∈ get_remaining d →
       (length (get_remaining (mark x st d)) < length (get_remaining d))%nat).
Proof.
  assert (get_remaining (mark x st d)
          = filter (λ y, y ≠ x) (get_remaining d)) as Heq.
  { unfold get_remaining. cbv zeta.
    rewrite processed_mark, followers_mark, list_filter_filter.
    apply list_filter_iff. intros y.
    rewrite !elem_of_list_to_set, elem_of_app, list_elem_of_singleton. tauto. }
  split; [| split; [| split; [exact Heq |]]].
  - intros y. unfold get_remaining. cbv zeta.
    rewrite list_elem_of_filter, elem_of_list_to_set. tauto.
  - apply sublist_filter.
  - intros Hx. rewrite Heq. apply length_filter_lt with x; [done |].
    intros Hne. by apply Hne.
Qed.

(* ================================================================== *)
(** * The hourly window                                               *)
(* ================================================================== *)

Lemma upd_data_same w : upd_data (λ _, data w) w = w.
Proof. by destruct w. Qed.

(** X6.  [can_proceed] changes nothing but the two window fields of
    the document, and leaves a window that started less than an hour
    ago.  A window an hour old or older is replaced by a fresh one with
    a count of zero, so the answer is [True]; a younger window is left
    alone; a document without a window start gets one and keeps its
    count.  The answer is [hourly_count < CREATES_PER_HOUR] afterwards. *)
Theorem can_proceed_window (w : World) :
  ∃ d',
    can_proceed w = (Ok (hourly_count d' <? CREATES_PER_HOUR), upd_data (λ _, d') w)
    ∧ d' = set_hourly (hourly_count d') (hour_started d') (data w)
    ∧ (∃ hs, hour_started d' = Some hs ∧ now w - hs < HOUR)
    ∧ (∀ hs, hour_started (data w) = Some hs → HOUR ≤ now w - hs →
         hourly_count d' = 0 ∧ hour_started d' = Some (now w)
         ∧ (hourly_count d' <? CREATES_PER_HOUR) = true)
    ∧ (∀ hs, hour_started (data w) = Some hs → now w - hs < HOUR →
         d' = data w)
    ∧ (hour_started (data w) = None →
         hourly_count d' = hourly_count (data w)
         ∧ hour_started d' = Some (now w)).
Proof.
  unfold can_proceed, reset_hourly_if_needed, bind, gets, modify, ret.
  destruct (hour_started (data w)) as [hs|] eqn:Hhs.
  - destruct (HOUR <=? now w - hs) eqn:Hold.
    + apply Z.leb_le in Hold.
      exists (set_hourly 0 (Some (now w)) (data w)).
      split; [reflexivity |]. split; [reflexivity |].
      split; [exists (now w); split; [reflexivity | unfold HOUR, SECOND; lia] |].
      split; [intros ? _ _; by repeat split |].
      split; [| discriminate].
      intros hs' [= <-] Hyoung. lia.
    + apply Z.leb_gt in Hold. exists (data w).
      split; [by rewrite upd_data_same |].
      split; [by destruct (data w) |].
      split; [exists hs; by split |].
      split; [| split; [done | discriminate]].
      intros hs' [= <-] Hge. lia.
  - exists (set_hourly (hourly_count (data w)) (Some (now w)) (data w)).
    split; [reflexivity |]. split; [reflexivity |].
    split; [exists (now w); split; [reflexivity | unfold HOUR, SECOND; lia] |].
    split; [discriminate |]. split; [discriminate |]. by intros _.
Qed.

(** The chunked wait without Ctrl-C: it returns with nothing left to
    wait, at least [wait_seconds] later, and only the clock moved. *)
Lemma wait_chunks_calm E :
  calm E →
  ∀ n ws w,
    ws ≤ 60 * SECOND * Z.of_nat n →
    ∃ left w',
      wait_chunks E n ws w = (Ok left, w')
      ∧ left ≤ 0
      ∧ now w + Z.max 0 ws ≤ now w'
      ∧ data w' = data w ∧ file w' = file w
      ∧ requests w' = requests w ∧ journal w' = journal w.
Proof.
  intros Hc. induction n as [|n IH]; intros ws w Hn.
  - exists ws, w. simpl. unfold ret. repeat split; lia.
  - simpl. destruct (0 <? ws) eqn:Hws.
    + apply Z.ltb_lt in Hws. unfold sleep.
      rewrite (bind_ok _ _ _ _ _ (blocking_calm E _ w Hc)).
      set (chunk := Z.min (60 * SECOND) ws).
      set (w1 := elapse _ w).
      destruct (IH (ws - chunk) w1) as (left & w' & Hrun & Hl & Ht & Hd & Hf & Hr & Hj).
      { unfold chunk, SECOND in *. lia. }
      exists left, w'. split; [exact Hrun |]. split; [exact Hl |].
      split; [| by rewrite Hd, Hf, Hr, Hj].
      assert (now w1 = now w + (chunk + Z.of_N (extra E (tick w)))) as Hw1
        by reflexivity.
      unfold chunk, SECOND in *. lia.
    + apply Z.ltb_ge in Hws. exists ws, w. unfold ret.
      repeat split; lia.
Qed.

(** X7.  [wait_for_next_hour] without Ctrl-C, on a document with a
    window start [hs].  If the window's hour is over it returns at once
    and changes nothing, the counter included.  Otherwise it returns no
    earlier than [hs + 1 h], with the counter at zero, a window start
    taken after the wait, and the document saved; no create request is
    sent meanwhile and nothing is recorded. *)
Theorem wait_for_next_hour_calm (E : Env) (w : World) (hs : Z) :
  calm E →
  hour_started (data w) = Some hs →
  (hs + HOUR ≤ now w → wait_for_next_hour E w = (Ok tt, w))
  ∧ (now w < hs + HOUR →
       ∃ w' t',
         wait_for_next_hour E w = (Ok tt, w')
         ∧ hs + HOUR ≤ t' ≤ now w'
         ∧ data w' = set_last_updated (Some t') (set_hourly 0 (Some t') (data w))
         ∧ file w' = Stored (data w')
         ∧ requests w' = requests w
         ∧ journal w' = journal w).
Proof.
  intros Hc Hhs.
  assert (wait_for_next_hour E w
            = (if 0 <? hs + HOUR - now w then
                 (wait_chunks E (chunks_needed (hs + HOUR - now w))
                    (hs + HOUR - now w) ;;
                  t' <- gets now ;;
                  modify (upd_data (set_hourly 0 (Some t'))) ;;
                  save E)%py
               else ret tt) w) as ->.
  { unfold wait_for_next_hour, bind at 1, gets. by rewrite Hhs. }
  split.
  - intros Hover.
    assert ((0 <? hs + HOUR - now w) = false) as -> by (apply Z.ltb_ge; lia).
    reflexivity.
  - intros Hin.
    assert ((0 <? hs + HOUR - now w) = true) as -> by (apply Z.ltb_lt; lia).
    destruct (wait_chunks_calm E Hc (chunks_needed (hs + HOUR - now w))
                (hs + HOUR - now w) w (chunks_needed_enough _))
      as (left & w1 & Hrun & _ & Ht & Hd & Hf & Hr & Hj).
    rewrite (bind_ok _ _ _ _ _ Hrun).
    unfold save, bind, gets, modify.
    rewrite (blocking_calm E 0 _ Hc).
    eexists _, (now w1). split; [reflexivity |]. simpl.
    rewrite Hd, Hr, Hj. repeat split; lia.
Qed.

(** Twenty minutes into a window that started at 0, the wait ends no
    earlier than the full hour. *)
Lemma wait_for_next_hour_calm_witness :
  let E := service (λ _, Created) never in
  let w := boot used_up Missing (1200 * SECOND) in
  (0 + HOUR ≤ now w → wait_for_next_hour E w = (Ok tt, w))
  ∧ (now w < 0 + HOUR →
       ∃ w' t',
         wait_for_next_hour E w = (Ok tt, w')
         ∧ 0 + HOUR ≤ t' ≤ now w'
         ∧ data w' = set_last_updated (Some t') (set_hourly 0 (Some t') (data w))
         ∧ file w' = Stored (data w')
         ∧ requests w' = requests w
         ∧ journal w' = journal w).
Proof.
  intros E w.
  apply (wait_for_next_hour_calm E w 0); [apply calm_service | reflexivity].
Defined.

(* ================================================================== *)
(** * The create requests of a run                                    *)
(* ================================================================== *)

Lemma inert_subjects : inert (λ w, map fst (requests w)).
Proof. by split. Qed.

Lemma hoare_exists {A T} (P : T → World → Prop) (m : M A) Q X :
  (∀ k, hoare (P k) m Q X) → hoare (λ w, ∃ k, P k w) m Q X.
Proof. intros H w [k Hk]. by apply (H k). Qed.

Section Requests.

Variable E : Env.
Variable me : string.

Let sent_to (w : World) : list string := map fst (requests w).

(** The candidate [x] has been sent [k] requests on top of [rs]. *)
Let burst (rs : list string) (x : string) (k : nat) (w : World) : Prop :=
  sent_to w = rs ++ replicate k x.

Lemma burst_blocking rs x k d :
  preserves (burst rs x k) (blocking E d).
Proof. apply (frame_blocking _ inert_subjects). Qed.

Lemma create_record_requests x rs :
  hoare (λ w, sent_to w = rs) (create_record E x)
    (λ _, burst rs x 1) (λ _, burst rs x 1).
Proof.
  intros w Hw. unfold create_record, bind, gets, modify, blocking, ret.
  simpl. unfold burst, sent_to in *.
  destruct (ctrl_c E (tick w)); simpl;
    by rewrite map_app, Hw.
Qed.

(** [add_to_blocklist] sends between one and [MAX_RETRIES] requests,
    all for its candidate, however it ends. *)
Lemma add_attempts_requests n x :
  ∀ r rs,
    let Q := λ w', ∃ k, (k ≤ n)%nat
                        ∧ ((0 < n)%nat → (r < MAX_RETRIES)%nat → (1 ≤ k)%nat)
                        ∧ burst rs x k w' in
    hoare (λ w, sent_to w = rs) (add_attempts E n x r) (λ _, Q) (λ _, Q).
Proof.
  induction n as [|n IH]; intros r rs Q.
  - apply hoare_ret. intros w Hw. exists 0%nat.
    split; [lia |]. split; [lia |]. unfold burst. simpl. by rewrite app_nil_r.
  - assert (∀ w, burst rs x 1 w → Q w) as Hone.
    { intros w Hw. exists 1%nat. split; [lia |]. by split. }
    rewrite add_attempts_unfold. destruct (r <? MAX_RETRIES)%nat eqn:Hr.
    + eapply hoare_bind.
      { eapply hoare_conseq; [apply (create_record_requests x rs) | done | |].
        - intros a w Hw. exact Hw.
        - intros e w Hw. by apply Hone. }
      intros [|e]; [by apply hoare_ret |].
      destruct (is_duplicate e); [by apply hoare_ret |].
      destruct (is_rate_limit_error e); [| by apply hoare_ret].
      destruct (MAX_RETRIES <=? S r)%nat; [by apply hoare_ret |].
      eapply hoare_bind.
      { eapply hoare_conseq; [apply (burst_blocking rs x 1) | done | |].
        - intros a w Hw. exact Hw.
        - intros e' w Hw. by apply Hone. }
      intros ?.
      eapply hoare_conseq; [apply (IH (S r) (rs ++ [x])) | done | |].
      * intros st w (k & Hk & _ & Hw). exists (S k).
        split; [lia |]. split; [lia |]. unfold burst in *. rewrite Hw.
        simpl. by rewrite <- app_assoc.
      * intros e' w (k & Hk & _ & Hw). exists (S k).
        split; [lia |]. split; [lia |]. unfold burst in *. rewrite Hw.
        simpl. by rewrite <- app_assoc.
    + apply hoare_ret. intros w Hw. exists 0%nat. apply Nat.ltb_ge in Hr.
      split; [lia |]. split; [lia |]. unfold burst. simpl.
      by rewrite app_nil_r.
Qed.

Lemma burst_mark_processed rs x k y st X :
  keeping (burst rs x k) X (mark_processed y st).
Proof. intros w Hw. exact Hw. Qed.

(** One round of the loop sends between one and [MAX_RETRIES] requests
    for its candidate, and none for the acting identity. *)
Lemma process_one_requests x rs :
  hoare (λ w, sent_to w = rs) (process_one E me x)
    (λ _ w', ∃ k, (k ≤ MAX_RETRIES)%nat
                  ∧ (x = me → k = 0%nat) ∧ (x ≠ me → (1 ≤ k)%nat)
                  ∧ burst rs x k w')
    (λ _ w', ∃ k, (k ≤ MAX_RETRIES)%nat
                  ∧ (x = me → k = 0%nat) ∧ burst rs x k w').
Proof.
  set (X := λ w', ∃ k, (k ≤ MAX_RETRIES)%nat
                       ∧ (x = me → k = 0%nat) ∧ burst rs x k w').
  assert (∀ w, sent_to w = rs → burst rs x 0 w) as Hzero.
  { intros w Hw. unfold burst. simpl. by rewrite app_nil_r. }
  assert (∀ w, sent_to w = rs → X w) as HX0.
  { intros w Hw. exists 0%nat. split; [lia |]. split; [done |]. by apply Hzero. }
  assert (∀ d, keeping (λ w, sent_to w = rs) X (blocking E d)) as HB0.
  { intros d. eapply keeping_weaken;
      [apply (frame_blocking _ inert_subjects) | exact HX0]. }
  unfold process_one.
  eapply hoare_bind;
    [apply (frame_can_proceed _ inert_subjects rs X) |]. intros ok.
  eapply hoare_bind;
    [apply (frame_quota_wait _ inert_subjects E rs X HB0) |]. intros ?.
  destruct (String.eqb_spec x me) as [Heq|Hne].
  - assert (∀ d, keeping (burst rs x 0) X (blocking E d)) as HB.
    { intros d. eapply keeping_weaken;
        [apply (frame_blocking _ inert_subjects) |].
      intros w Hw. exists 0%nat. split; [lia |]. by split. }
    eapply hoare_conseq with (P' := burst rs x 0)
      (Q' := λ _, burst rs x 0) (X' := λ _, X).
    + eapply hoare_bind; [apply burst_mark_processed |]. intros ?.
      apply (frame_save _ inert_subjects E _ X HB).
    + exact Hzero.
    + intros _ w Hw. exists 0%nat. split; [lia |]. split; [done |].
      split; [done | exact Hw].
    + done.
  - eapply hoare_bind; [apply HB0 |]. intros ?.
    eapply hoare_bind.
    { eapply hoare_conseq;
        [apply (add_attempts_requests MAX_RETRIES x 0 rs) | done | |].
      - intros st w Hw. exact Hw.
      - intros e w (k & Hk & _ & Hw). exists k. split; [done |]. by split. }
    intros st. apply hoare_exists. intros k.
    assert (∀ d, keeping (burst rs x k) (burst rs x k) (blocking E d)) as HBk
      by (intros d; apply burst_blocking).
    intros w (Hk & Hlow & Hw).
    assert (hoare (burst rs x k)
              (mark_processed x st ;;
               increment_hourly ;;
               current <- gets (λ w, length (processed (data w))) ;;
               if (current mod 10 =? 0)%nat then save E else ret tt)%py
              (λ _, burst rs x k) (λ _, burst rs x k)) as Hrest.
    { eapply hoare_bind; [apply burst_mark_processed |]. intros ?.
      eapply hoare_bind;
        [apply (frame_increment_hourly _ inert_subjects _ (burst rs x k)) |].
      intros ?.
      eapply hoare_bind; [apply keeping_gets |]. intros current.
      destruct (current mod 10 =? 0)%nat.
      - apply (frame_save _ inert_subjects E _ _ HBk).
      - by apply hoare_ret. }
    specialize (Hrest w Hw).
    assert ((1 ≤ k)%nat) as H1 by (apply Hlow; unfold MAX_RETRIES; lia).
    revert Hrest.
    match goal with
    | |- (let (_, _) := ?t in _) → _ => destruct t as [[?|?] w']
    end; intros Hrest; cbv beta iota in Hrest |- *.
    + exists k. split; [exact Hk |]. split; [intros ->; by destruct Hne |].
      split; [intros _; exact H1 | exact Hrest].
    + exists k. split; [exact Hk |]. split; [intros ->; by destruct Hne |].
      exact Hrest.
Qed.

(** The loop sends its requests candidate by candidate, in order;
    interrupted, it has sent them for a prefix of the candidates. *)
Lemma for_each_requests l :
  ∀ rs,
    hoare (λ w, sent_to w = rs) (for_each l (process_one E me))
      (λ _ w', ∃ ks,
         Forall2 (λ k x, (k ≤ MAX_RETRIES)%nat
                         ∧ (x = me → k = 0%nat) ∧ (x ≠ me → (1 ≤ k)%nat)) ks l
         ∧ sent_to w' = rs ++ bursts ks l)
      (λ _ w', ∃ ks,
         Forall2 (λ k x, (k ≤ MAX_RETRIES)%nat ∧ (x = me → k = 0%nat))
           ks (take (length ks) l)
         ∧ sent_to w' = rs ++ bursts ks l).
Proof.
  induction l as [|x l' IH]; intros rs.
  - apply hoare_ret. intros w Hw. exists []. split; [constructor |].
    simpl. by rewrite app_nil_r.
  - simpl. eapply hoare_bind.
    + eapply hoare_conseq; [apply (process_one_requests x rs) | done | |].
      * intros a w Hw. exact Hw.
      * intros e w (k & Hk & Hme & Hw). exists [k]. split.
        -- change (take (length [k]) (x :: l')) with (x :: take 0 l').
           rewrite take_0. constructor; [by split | constructor].
        -- unfold burst in Hw. simpl. by rewrite app_nil_r.
    + intros ?. apply hoare_exists. intros k.
      intros w (Hk & Hme & Hlow & Hw).
      specialize (IH (rs ++ replicate k x) w Hw).
      destruct (for_each l' (process_one E me) w) as [[?|?] w'].
      * destruct IH as (ks & Hks & Hs). exists (k :: ks). split.
        -- by constructor.
        -- simpl. rewrite Hs. by rewrite <- app_assoc.
      * destruct IH as (ks & Hks & Hs). exists (k :: ks). split.
        -- change (take (length (k :: ks)) (x :: l'))
             with (x :: take (length ks) l').
           by constructor.
        -- simpl. rewrite Hs. by rewrite <- app_assoc.
Qed.

End Requests.

Lemma bursts_elem (P : string → Prop) ks l x :
  Forall2 (λ k y, P y → (1 ≤ k)%nat) ks l → x ∈ l → P x → x ∈ bursts ks l.
Proof.
  induction 1 as [|k y ks l Hk _ IH]; intros Hx HP; [by inversion Hx |].
  simpl. apply elem_of_app. apply elem_of_cons in Hx as [->|Hx].
  - left. specialize (Hk HP). destruct k as [|k]; [lia |]. simpl. by left.
  - right. by apply IH.
Qed.

(** [run_batch_process] by the way its loop ends. *)
Lemma run_batch_process_cases E me w :
  run_batch_process E me w
  = match for_each (get_remaining (data w)) (process_one E me) w with
    | (Ok _, w1) => save E w1
    | (Raise KeyboardInterrupt, w1) =>
        match save E w1 with
        | (Ok _, w2) => (Raise (SystemExit 0), w2)
        | (Raise e, w2) => (Raise e, w2)
        end
    | (Raise e, w1) => (Raise e, w1)
    end.
Proof.
  unfold run_batch_process, bind, gets, try_except.
  destruct (for_each _ _ w) as [[[]|[]] w1]; simpl; try reflexivity.
  unfold bind, sys_exit, raise. by destruct (save E w1) as [[[]|?] ?].
Qed.

(** X8.  The create requests of a run, whatever the service replies
    and whenever Ctrl-C arrives, are sent candidate by candidate in the
    order of the remaining candidates: each candidate reached gets at
    most [MAX_RETRIES] consecutive requests, the acting identity none;
    a run that returns has sent at least one request for every
    remaining candidate other than the acting identity. *)
Theorem request_trace (E : Env) (me : string) (w : World) :
  let rem := get_remaining (data w) in
  let out := run_batch_process E me w in
  ∃ ks,
    Forall2 (λ k x, (k ≤ MAX_RETRIES)%nat ∧ (x = me → k = 0%nat))
      ks (take (length ks) rem)
    ∧ map fst (requests out.2) = map fst (requests w) ++ bursts ks rem
    ∧ (out.1 = Ok tt →
         length ks = length rem
         ∧ Forall2 (λ k x, x ≠ me → (1 ≤ k)%nat) ks rem).
Proof.
  intros rem out. subst out.
  pose proof (for_each_requests E me rem (map fst (requests w)) w eq_refl)
    as Hloop.
  assert (∀ w1 v, map fst (requests w1) = v →
            map fst (requests (save E w1).2) = v) as Hsave.
  { intros w1 v Hv.
    apply (preserves_run (λ w, map fst (requests w) = v)); [| exact Hv].
    apply (frame_save _ inert_subjects E v _).
    intros d. apply (frame_blocking _ inert_subjects). }
  rewrite run_batch_process_cases. fold rem.
  destruct (for_each rem (process_one E me) w) as [[[]|e] w1].
  - destruct Hloop as (ks & Hks & Hs). exists ks.
    assert (length ks = length rem) as Hlen by by eapply Forall2_length.
    rewrite Hlen, firstn_all. split; [| split].
    + eapply Forall2_impl; [exact Hks |]. by intros k x (? & ? & ?).
    + by apply Hsave.
    + intros _. split; [done |].
      eapply Forall2_impl; [exact Hks |]. by intros k x (? & ? & ?).
  - destruct Hloop as (ks & Hks & Hs). exists ks. split; [exact Hks |].
    destruct e; try (split; [exact Hs | discriminate]).
    specialize (Hsave w1 _ Hs).
    destruct (save E w1) as [[?|?] w2]; simpl in *;
      (split; [exact Hsave | discriminate]).
Qed.

(* ================================================================== *)
(** * Runs without Ctrl-C                                             *)
(* ================================================================== *)

Section Calm.

Variable E : Env.
Variable me : string.
Hypothesis Hc : calm E.

Lemma calm_blocking d : steady (λ _, True) (blocking E d).
Proof. intros w _. by rewrite (blocking_calm E d w Hc). Qed.

Hint Resolve calm_blocking : inv.

Lemma calm_wait_chunks n ws : steady (λ _, True) (wait_chunks E n ws).
Proof.
  revert ws. induction n as [|n IH]; intros ws; simpl; unfold sleep; pres.
Qed.

Lemma calm_add_attempts n x r : steady (λ _, True) (add_attempts E n x r).
Proof.
  revert r. induction n as [|n IH]; intros r; simpl;
    unfold create_record, sleep; pres.
Qed.

Hint Resolve calm_wait_chunks calm_add_attempts : inv.

Lemma calm_process_one x : steady (λ _, True) (process_one E me x).
Proof.
  unfold process_one, can_proceed, reset_hourly_if_needed, save,
    wait_for_next_hour, mark_processed, increment_hourly,
    add_to_blocklist, sleep.
  pres.
Qed.

Lemma calm_for_each l : steady (λ _, True) (for_each l (process_one E me)).
Proof. apply keeping_for_each. intros x _. apply calm_process_one. Qed.

(** A run without Ctrl-C returns, with every remaining candidate
    recorded, in order, and the document saved. *)
Lemma run_batch_process_calm w :
  ∃ w1 w',
    for_each (get_remaining (data w)) (process_one E me) w = (Ok tt, w1)
    ∧ run_batch_process E me w = (Ok tt, w')
    ∧ requests w' = requests w1
    ∧ followers (data w') = followers (data w)
    ∧ processed (data w') = processed (data w) ++ get_remaining (data w)
    ∧ get_remaining (data w') = []
    ∧ file w' = Stored (data w').
Proof.
  destruct (steady_run _ _ w (calm_for_each (get_remaining (data w))) I)
    as ([] & w1 & Hloop & _).
  pose proof (for_each_progress E me (get_remaining (data w))
                (processed (data w)) w eq_refl) as Hprog.
  pose proof (fixed_for_each E me (followers (data w))
                (get_remaining (data w)) w eq_refl) as Hfix.
  rewrite Hloop in Hprog, Hfix. simpl in Hfix.
  exists w1. eexists. split; [exact Hloop |]. split.
  { unfold run_batch_process, bind at 1, gets.
    unfold bind at 1, try_except. rewrite Hloop.
    unfold save, bind, gets, modify. rewrite (blocking_calm E 0 _ Hc).
    reflexivity. }
  simpl. split; [done |]. split; [exact Hfix |]. split; [exact Hprog |].
  split; [| done].
  rewrite (get_remaining_after (data w) _ (length (get_remaining (data w)))).
  - by rewrite drop_all.
  - exact Hfix.
  - simpl. by rewrite firstn_all.
Qed.

End Calm.

(** X9.  A run that no Ctrl-C interrupts returns normally: every
    remaining candidate is recorded as processed, in follower order,
    after what was processed before; nothing remains; the candidates
    are unchanged; the state file holds the final document; and a
    create request was sent for every remaining candidate other than
    the acting identity. *)
Theorem run_completes (E : Env) (me : string) (w : World) :
  calm E →
  ∃ w',
    run_batch_process E me w = (Ok tt, w')
    ∧ followers (data w') = followers (data w)
    ∧ processed (data w') = processed (data w) ++ get_remaining (data w)
    ∧ get_remaining (data w') = []
    ∧ file w' = Stored (data w')
    ∧ ∀ x, x ∈ get_remaining (data w) → x ≠ me → x ∈ map fst (requests w').
Proof.
  intros Hc.
  destruct (run_batch_process_calm E me Hc w)
    as (w1 & w' & Hloop & Hrun & Hreq & HF & Hp & Hrem & Hfile).
  exists w'. repeat (split; [done |]).
  intros x Hx Hne. rewrite Hreq.
  pose proof (for_each_requests E me (get_remaining (data w))
                (map fst (requests w)) w eq_refl) as Htrace.
  rewrite Hloop in Htrace. destruct Htrace as (ks & Hks & ->).
  apply elem_of_app. right.
  apply (bursts_elem (λ y, y ≠ me)); [| done | done].
  eapply Forall2_impl; [exact Hks |]. by intros k y (? & ? & ?).
Qed.

(** A run over [small_batch] on a service that accepts everything. *)
Lemma run_completes_witness :
  let E := service (λ _, Created) never in
  let w := boot small_batch Missing 0 in
  ∃ w',
    run_batch_process E "did:plc:me" w = (Ok tt, w')
    ∧ followers (data w') = followers (data w)
    ∧ processed (data w') = processed (data w) ++ get_remaining (data w)
    ∧ get_remaining (data w') = []
    ∧ file w' = Stored (data w')
    ∧ ∀ x, x ∈ get_remaining (data w) → x ≠ "did:plc:me" →
           x ∈ map fst (requests w').
Proof.
  intros E w. apply (run_completes E "did:plc:me" w). apply calm_service.
Defined.

(** X10.  Interrupt, then resume.  When Ctrl-C stops the loop of a
    first run and no further Ctrl-C arrives while the
    [except KeyboardInterrupt] clause saves, a second process that
    loads the state file gets the document of the first run back, and
    its run, if no Ctrl-C arrives, records the candidates the first run
    had not recorded: over the two runs every remaining candidate of a
    duplicate-free batch is recorded exactly once, in follower order,
    and the requests of the second run go to candidates the first run
    had not recorded. *)
Theorem interrupt_then_resume (E1 E2 : Env) (me : string)
    (d : Data) (f : StateFile) (t t2 : Z) (w1 : World) :
  for_each (get_remaining d) (process_one E1 me) (boot d f t)
    = (Raise KeyboardInterrupt, w1) →
  ctrl_c E1 (tick w1) = false →
  NoDup (followers d) →
  calm E2 →
  let on_disk := file (run_batch_process E1 me (boot d f t)).2 in
  ∃ d1 k w2,
    load (boot init_data on_disk t2) = (Ok true, boot d1 on_disk t2)
    ∧ processed d1 = processed d ++ take k (get_remaining d)
    ∧ get_remaining d1 = drop k (get_remaining d)
    ∧ run_batch_process E2 me (boot d1 on_disk t2) = (Ok tt, w2)
    ∧ processed (data w2) = processed d ++ get_remaining d
    ∧ get_remaining (data w2) = []
    ∧ Forall (λ x, x ∈ drop k (get_remaining d)) (map fst (requests w2)).
Proof.
  intros Hloop Hquiet Hnd Hc on_disk.
  pose proof (for_each_progress E1 me (get_remaining d) (processed d)
                (boot d f t) eq_refl) as Hprog.
  pose proof (fixed_for_each E1 me (followers d) (get_remaining d)
                (boot d f t) eq_refl) as Hfix.
  rewrite Hloop in Hprog, Hfix. simpl in Hfix.
  destruct Hprog as (k & Hk & Hp).
  set (d1 := set_last_updated (Some (now w1)) (data w1)).
  assert (on_disk = Stored d1) as Hdisk.
  { unfold on_disk, run_batch_process, bind at 1, gets. simpl.
    unfold bind at 1, try_except. rewrite Hloop. simpl.
    unfold bind at 1. by rewrite (save_undisturbed E1 w1 Hquiet). }
  assert (get_remaining d1 = drop k (get_remaining d)) as Hrem
    by by apply get_remaining_after_nodup.
  destruct (run_batch_process_calm E2 me Hc (boot d1 on_disk t2))
    as (w3 & w2 & Hloop2 & Hrun & Hreq & HF & Hp2 & Hrem2 & Hfile).
  exists d1, k, w2. rewrite Hdisk in *.
  split; [reflexivity |]. split; [exact Hp |]. split; [exact Hrem |].
  split; [exact Hrun |]. split; [| split; [exact Hrem2 |]].
  - rewrite Hp2. simpl. rewrite Hrem. change (processed d1) with (processed (data w1)).
    rewrite Hp, <- app_assoc. by rewrite take_drop.
  - rewrite Forall_map.
    change (subjects (λ x, x ∈ drop k (get_remaining d)) w2).
    replace w2 with (run_batch_process E2 me (boot d1 (Stored d1) t2)).2
      by by rewrite Hrun.
    apply subjects_run_batch_process; [| constructor].
    intros x Hx _. simpl in Hx. by rewrite Hrem in Hx.
Qed.

(** Ctrl-C during the third blocking operation and none after, then a
    second process two hours later on a service that accepts
    everything. *)
Lemma interrupt_then_resume_witness :
  let E1 := service (λ _, Created) third in
  let E2 := service (λ _, Created) never in
  let on_disk :=
    file (run_batch_process E1 "did:plc:me" (boot small_batch Missing 0)).2 in
  ∃ d1 k w2,
    load (boot init_data on_disk (2 * HOUR))
      = (Ok true, boot d1 on_disk (2 * HOUR))
    ∧ processed d1
      = processed small_batch ++ take k (get_remaining small_batch)
    ∧ get_remaining d1 = drop k (get_remaining small_batch)
    ∧ run_batch_process E2 "did:plc:me" (boot d1 on_disk (2 * HOUR))
      = (Ok tt, w2)
    ∧ processed (data w2)
      = processed small_batch ++ get_remaining small_batch
    ∧ get_remaining (data w2) = []
    ∧ Forall (λ x, x ∈ drop k (get_remaining small_batch))
        (map fst (requests w2)).
Proof.
  intros E1 E2.
  apply (interrupt_then_resume E1 E2 "did:plc:me" small_batch Missing 0
           (2 * HOUR) stopped).
  - vm_compute. reflexivity.
  - vm_compute. reflexivity.
  - apply (bool_decide_unpack _). vm_compute. reflexivity.
  - apply calm_service.
Defined.

(* ================================================================== *)
(** * Retries of [add_to_blocklist]                                   *)
(* ================================================================== *)

(** X11.  A rate limit is met with a retry, any other error is not.
    In a run without Ctrl-C, for a candidate other than the acting
    identity whose first [j] replies ([j] below [MAX_RETRIES]) are
    rate-limit errors: a success at the next request records the
    candidate as added, and an error that is neither a duplicate nor a
    rate limit records it as failed at once; either way [j + 1]
    requests were sent for the candidate, and the loop goes on. *)
Theorem retry_then_outcome (E : Env) (me x : string) (w : World) (j : nat) :
  calm E → x ≠ me → (j < MAX_RETRIES)%nat →
  (∀ i, (i < j)%nat → rate_limited (reply E (length (requests w) + i))) →
  (reply E (length (requests w) + j) = Created →
     ∃ w', process_one E me x w = (Ok tt, w')
           ∧ ledger w' = recorded x added_ (sent (replicate (S j) x) (ledger w)))
  ∧ (∀ e, reply E (length (requests w) + j) = Rejected e →
          is_duplicate e = false → is_rate_limit_error e = false →
     ∃ w', process_one E me x w = (Ok tt, w')
           ∧ ledger w' = recorded x failed_ (sent (replicate (S j) x) (ledger w))).
Proof.
  intros Hc Hne Hj Hrl. split.
  - intros Hrp. apply (process_one_settles E me x Hc Hne j w added_ Hj Hrl).
    by rewrite Hrp.
  - intros e Hrp Hdup Hrate.
    apply (process_one_settles E me x Hc Hne j w failed_ Hj Hrl).
    rewrite Hrp. unfold settles. by rewrite Hdup, Hrate.
Qed.

(** Two rate limits, then success. *)
Lemma retry_then_outcome_witness :
  let E := service (λ i, if (i <? 2)%nat then Rejected rate_limit_error
                         else Created) never in
  let w := boot small_batch Missing 0 in
  ∃ w', process_one E "did:plc:me" "did:plc:alice" w = (Ok tt, w')
        ∧ ledger w'
          = recorded "did:plc:alice" added_
              (sent (replicate 3 "did:plc:alice") (ledger w)).
Proof.
  intros E w.
  apply (retry_then_outcome E "did:plc:me" "did:plc:alice" w 2).
  - apply calm_service.
  - discriminate.
  - unfold MAX_RETRIES. lia.
  - intros i Hi. destruct i as [|[|i]]; [vm_compute; split; reflexivity .. | lia].
  - reflexivity.
Defined.

Section Clock.

Variable E : Env.
Hypothesis Hc : calm E.

Lemma clock_blocking t d :
  0 ≤ d → steady (λ w, t ≤ now w) (blocking E d).
Proof.
  intros Hd w Hw. rewrite (blocking_calm E d w Hc). simpl. lia.
Qed.

Lemma clock_add_attempts t n x :
  ∀ r, steady (λ w, t ≤ now w) (add_attempts E n x r).
Proof.
  induction n as [|n IH]; intros r; [apply keeping_ret |].
  rewrite add_attempts_unfold.
  destruct (r <? MAX_RETRIES)%nat; [| apply keeping_ret].
  apply keeping_bind.
  - unfold create_record. apply keeping_bind; [apply keeping_gets |].
    intros ?. apply keeping_bind; [by apply keeping_modify |].
    intros ?. apply keeping_bind; [by apply clock_blocking |].
    intros ?. apply keeping_ret.
  - intros [|e]; [apply keeping_ret |].
    destruct (is_duplicate e); [apply keeping_ret |].
    destruct (is_rate_limit_error e); [| apply keeping_ret].
    destruct (MAX_RETRIES <=? S r)%nat; [apply keeping_ret |].
    apply keeping_bind; [| intros ?; apply IH].
    apply clock_blocking.
    assert (0 < 2 ^ (Z.of_nat (S r) - 1)) by (apply Z.pow_pos_nonneg; lia).
    unfold INITIAL_BACKOFF, SECOND. lia.
Qed.

(** After [j] rate-limited replies the backoffs alone have taken
    [INITIAL_BACKOFF * (1 + 2 + ... + 2^(j-1))]. *)
Lemma add_attempts_clock x :
  ∀ j rounds r w,
    (r + rounds = MAX_RETRIES)%nat →
    (j < rounds)%nat →
    (∀ i, (i < j)%nat → rate_limited (reply E (length (requests w) + i))) →
    ∃ st w', add_attempts E rounds x r w = (Ok st, w')
             ∧ now w + INITIAL_BACKOFF * 2 ^ Z.of_nat r * (2 ^ Z.of_nat j - 1)
               ≤ now w'.
Proof.
  induction j as [|j IH]; intros rounds r w Hsum Hj Hrl.
  - destruct (steady_run _ _ w (clock_add_attempts (now w) rounds x r))
      as (st & w' & Hrun & Ht); [simpl; lia |].
    exists st, w'. split; [exact Hrun |]. simpl in *.
    replace (2 ^ 0 - 1) with 0 by reflexivity. lia.
  - destruct rounds as [|k]; [lia |].
    assert ((r <? MAX_RETRIES)%nat = true) as Hlt by (apply Nat.ltb_lt; lia).
    assert ((MAX_RETRIES <=? S r)%nat = false) as Hle
      by (apply Nat.leb_gt; lia).
    rewrite add_attempts_unfold, Hlt.
    rewrite (bind_ok _ _ _ _ _ (create_record_calm E x w Hc)).
    pose proof (Hrl 0%nat ltac:(lia)) as H0. rewrite Nat.add_0_r in H0.
    destruct (reply E (length (requests w))) as [|e]; [done |].
    destruct H0 as [-> ->]. rewrite Hle.
    unfold sleep. rewrite (bind_ok _ _ _ _ _ (blocking_calm E _ _ Hc)).
    set (w2 := elapse _ (elapse _ (issue x w))).
    assert (length (requests w2) = S (length (requests w))) as Hlen
      by (simpl; rewrite length_app; simpl; lia).
    destruct (IH k (S r) w2) as (st & w' & Hrun & Ht).
    + lia.
    + lia.
    + intros i Hi. rewrite Hlen.
      replace (S (length (requests w)) + i)%nat
        with (length (requests w) + S i)%nat by lia.
      apply Hrl. lia.
    + exists st, w'. split; [exact Hrun |].
      assert (now w + INITIAL_BACKOFF * 2 ^ Z.of_nat r ≤ now w2) as Hw2.
      { unfold w2. simpl.
        replace (Z.of_nat (S r) - 1) with (Z.of_nat r) by lia. lia. }
      rewrite !Nat2Z.inj_succ, !Z.pow_succ_r in * by lia.
      assert (0 < 2 ^ Z.of_nat r) by (apply Z.pow_pos_nonneg; lia).
      assert (0 < 2 ^ Z.of_nat j) by (apply Z.pow_pos_nonneg; lia).
      unfold INITIAL_BACKOFF, SECOND in *. nia.
Qed.

End Clock.

(** X12.  Backoff is exponential.  Without Ctrl-C, when the first [j]
    replies to a candidate's requests are rate-limit errors ([j] below
    [MAX_RETRIES]), [add_to_blocklist] returns no earlier than
    [INITIAL_BACKOFF * (2^j - 1)] after it was called: 30 s after one
    rate limit, 90 s after two, 450 s after four. *)
Theorem backoff_delay (E : Env) (x : string) (w : World) (j : nat) :
  calm E → (j < MAX_RETRIES)%nat →
  (∀ i, (i < j)%nat → rate_limited (reply E (length (requests w) + i))) →
  ∃ st w', add_to_blocklist E x w = (Ok st, w')
           ∧ now w + INITIAL_BACKOFF * (2 ^ Z.of_nat j - 1) ≤ now w'.
Proof.
  intros Hc Hj Hrl.
  destruct (add_attempts_clock E Hc x j MAX_RETRIES 0 w)
    as (st & w' & Hrun & Ht); [done | done | done |].
  exists st, w'. split; [exact Hrun |].
  change (2 ^ Z.of_nat 0) with 1 in Ht. lia.
Qed.

(** Five rate limits: the four backoffs take 450 s. *)
Lemma backoff_delay_witness :
  let E := service five_limits never in
  let w := boot small_batch Missing 0 in
  ∃ st w', add_to_blocklist E "did:plc:alice" w = (Ok st, w')
           ∧ now w + INITIAL_BACKOFF * (2 ^ Z.of_nat 4 - 1) ≤ now w'.
Proof.
  intros E w. apply (backoff_delay E "did:plc:alice" w 4).
  - apply calm_service.
  - unfold MAX_RETRIES. lia.
  - intros i Hi.
    destruct i as [|[|[|[|i]]]]; [vm_compute; split; reflexivity .. | lia].
Defined.

(* ================================================================== *)
(** * Enumerating the followers                                       *)
(* ================================================================== *)

Section Pages.

Variable E : Env.
Hypothesis Hc : calm E.

Lemma get_followers_calm actor cursor w :
  get_followers E actor cursor w
  = match followers_page E (reads w) actor cursor with
    | PageOk fs c =>
        (Ok (PageOk fs c),
         receive fs (elapse (0 + Z.of_N (extra E (tick w))) (count_read w)))
    | PageErr e =>
        (Ok (PageErr e), elapse (0 + Z.of_N (extra E (tick w))) (count_read w))
    end.
Proof.
  unfold get_followers, bind, gets, modify.
  rewrite (blocking_calm E 0 _ Hc). simpl.
  by destruct (followers_page E (reads w) actor cursor).
Qed.

(** While pages arrive with a cursor, the loop reads on from that
    cursor, one read per page, a tenth of a second before each. *)
Lemma fetch_loop_pages target next :
  ∀ pages fuel all cursor w,
    served E target (reads w) cursor pages next →
    ∃ c w1,
      fetch_all_followers_loop E (length pages + fuel) target all cursor 0 w
      = fetch_all_followers_loop E fuel target (all ++ concat pages) c 0 w1
      ∧ reads w1 = (reads w + length pages)%nat
      ∧ next (reads w1) c
      ∧ now w + DELAY_BETWEEN_REQUESTS * Z.of_nat (length pages) ≤ now w1.
Proof.
  induction pages as [|p ps IH]; intros fuel all cursor w Hs.
  - exists cursor, w. simpl in *. rewrite app_nil_r, Nat.add_0_r.
    repeat split; [exact Hs | lia].
  - destruct Hs as (c & Hpage & Hcur & Hs).
    change (length (p :: ps) + fuel)%nat with (S (length ps + fuel)).
    rewrite fetch_all_followers_loop_unfold.
    unfold sleep. rewrite (bind_ok _ _ _ _ _ (blocking_calm E _ w Hc)).
    set (w0 := elapse _ w).
    pose proof (get_followers_calm target cursor w0) as Hget.
    change (reads w0) with (reads w) in Hget. rewrite Hpage in Hget.
    rewrite (bind_ok _ _ _ _ _ Hget), Hcur.
    set (w1 := receive p _).
    destruct (IH fuel (all ++ p) c w1 Hs) as (c' & w2 & Hrun & Hr & Hn & Ht).
    exists c', w2. rewrite Hrun.
    split; [by rewrite <- app_assoc |].
    split; [rewrite Hr; simpl; lia |]. split; [exact Hn |].
    assert (now w + DELAY_BETWEEN_REQUESTS ≤ now w1) as Hw1.
    { unfold w1, w0. simpl. lia. }
    change (length (p :: ps)) with (S (length ps)).
    rewrite Nat2Z.inj_succ. unfold DELAY_BETWEEN_REQUESTS, SECOND in *.
    change (1000000 / 10) with 100000 in *. lia.
Qed.

(** [k] rate-limited replies in a row, the last of them the
    [MAX_RETRIES]-th: the loop gives up with what it has. *)
Lemma fetch_loop_gives_up target all cursor :
  ∀ k retries fuel w,
    (retries + k = MAX_RETRIES)%nat → (0 < k)%nat → (k ≤ fuel)%nat →
    (∀ j, (j < k)%nat →
          ∃ e, followers_page E (reads w + j) target cursor = PageErr e
               ∧ is_rate_limit_error e = true) →
    ∃ w', fetch_all_followers_loop E fuel target all cursor retries w
          = (Ok (Some all), w')
          ∧ reads w' = (reads w + k)%nat
          ∧ now w + INITIAL_BACKOFF
                    * (2 ^ Z.of_nat MAX_RETRIES - 2 ^ Z.of_nat (S retries))
                    / 2
            ≤ now w'.
Proof.
  induction k as [|k IH]; intros retries fuel w Hsum Hk Hfuel Hrl; [lia |].
  destruct fuel as [|fuel]; [lia |].
  rewrite fetch_all_followers_loop_unfold.
  unfold sleep. rewrite (bind_ok _ _ _ _ _ (blocking_calm E _ w Hc)).
  set (w0 := elapse _ w).
  pose proof (get_followers_calm target cursor w0) as Hget.
  change (reads w0) with (reads w) in Hget.
  destruct (Hrl 0%nat ltac:(lia)) as (e & Hpage & Hrate).
  rewrite Nat.add_0_r in Hpage. rewrite Hpage in Hget.
  rewrite (bind_ok _ _ _ _ _ Hget), Hrate.
  set (w1 := elapse _ (count_read w0)).
  destruct k as [|k].
  - assert ((MAX_RETRIES <=? S retries)%nat = true) as ->
      by (apply Nat.leb_le; lia).
    exists w1. split; [reflexivity |]. split; [simpl; lia |].
    replace (S retries) with MAX_RETRIES by lia.
    rewrite Z.sub_diag, Z.mul_0_r. change (0 / 2) with 0.
    unfold w1, w0, DELAY_BETWEEN_REQUESTS, SECOND. simpl.
    change (1000000 / 10) with 100000. lia.
  - assert ((MAX_RETRIES <=? S retries)%nat = false) as ->
      by (apply Nat.leb_gt; lia).
    rewrite (bind_ok _ _ _ _ _ (blocking_calm E _ w1 Hc)).
    set (w2 := elapse _ w1).
    destruct (IH (S retries) fuel w2) as (w' & Hrun & Hr & Ht).
    + lia.
    + lia.
    + lia.
    + intros j Hj. change (reads w2) with (S (reads w)).
      replace (S (reads w) + j)%nat with (reads w + S j)%nat by lia.
      apply Hrl. lia.
    + exists w'. split; [exact Hrun |].
      split; [rewrite Hr; simpl; lia |].
      assert (now w + INITIAL_BACKOFF * 2 ^ Z.of_nat retries ≤ now w2) as Hw2.
      { unfold w2, w1, w0, DELAY_BETWEEN_REQUESTS, SECOND. simpl.
        change (1000000 / 10) with 100000.
        replace (Z.of_nat (S retries) - 1) with (Z.of_nat retries) by lia.
        lia. }
      assert (retries < 4)%nat as Hlt by (unfold MAX_RETRIES in Hsum; lia).
      unfold MAX_RETRIES, INITIAL_BACKOFF, SECOND in *.
      destruct retries as [|[|[|[|?]]]]; [| | | | lia];
        simpl Z.of_nat in *;
        match goal with
        | H : _ ≤ now w' |- _ => revert H
        end;
        match goal with
        | H : _ ≤ now w2 |- _ => revert H
        end;
        clear; intros H2 H'; vm_compute Z.pow in *;
        repeat match goal with
               | H : context [?a / 2] |- _ =>
                   let v := eval vm_compute in (a / 2) in
                   change (a / 2) with v in H
               | |- context [?a / 2] =>
                   let v := eval vm_compute in (a / 2) in
                   change (a / 2) with v
               end; lia.
Qed.

End Pages.



(** X14.  [fetch_all_followers] gives up on rate limits.  Without
    Ctrl-C, when [MAX_RETRIES] reads in a row are answered by
    rate-limit errors (after any number of pages served before), the
    function returns the entries fetched so far: it does not raise, and
    the caller cannot tell the list from a complete one.  It has then
    made exactly [MAX_RETRIES] reads for that cursor and waited through
    four backoffs, 450 s in all. *)
Theorem fetch_all_followers_gives_up (E : Env) (target : string)
    (pages : list (list Profile)) (fuel : nat) (w : World) :
  calm E →
  served E target (reads w) None pages
    (λ i c, ∀ j, (j < MAX_RETRIES)%nat →
                 ∃ e, followers_page E (i + j) target c = PageErr e
                      ∧ is_rate_limit_error e = true) →
  (length pages + MAX_RETRIES ≤ fuel)%nat →
  ∃ w',
    fetch_all_followers E fuel target w = (Ok (Some (concat pages)), w')
    ∧ reads w' = (reads w + length pages + MAX_RETRIES)%nat
    ∧ now w + 450 * SECOND ≤ now w'.
Proof.
  intros Hc Hs Hfuel.
  assert (∃ n, fuel = length pages + n ∧ MAX_RETRIES ≤ n)%nat
    as (n & -> & Hn) by (exists (fuel - length pages)%nat; lia).
  destruct (fetch_loop_pages E Hc target _ pages n []
              None w Hs) as (c & w1 & Hrun & Hr & Hrl & Ht).
  unfold fetch_all_followers. rewrite Hrun. simpl app.
  destruct (fetch_loop_gives_up E Hc target (concat pages) c MAX_RETRIES 0
              n w1) as (w' & Hrun' & Hr' & Ht').
  - reflexivity.
  - unfold MAX_RETRIES. lia.
  - lia.
  - exact Hrl.
  - exists w'. split; [exact Hrun' |]. split; [lia |].
    assert (0 ≤ DELAY_BETWEEN_REQUESTS * Z.of_nat (length pages)).
    { unfold DELAY_BETWEEN_REQUESTS, SECOND.
      change (1000000 / 10) with 100000. lia. }
    change (INITIAL_BACKOFF * (2 ^ Z.of_nat MAX_RETRIES - 2 ^ Z.of_nat 1) / 2)
      with (450 * SECOND) in Ht'.
    lia.
Qed.

(** A service that rate-limits every read: an empty list comes back. *)
Lemma fetch_all_followers_gives_up_witness :
  let w := boot init_data Missing 0 in
  ∃ w',
    fetch_all_followers throttled 5 "did:plc:target" w
    = (Ok (Some (concat [])), w')
    ∧ reads w' = (reads w + length ([] : list (list Profile)) + MAX_RETRIES)%nat
    ∧ now w + 450 * SECOND ≤ now w'.
Proof.
  intros w.
  apply (fetch_all_followers_gives_up throttled "did:plc:target" [] 5 w).
  - by intros k.
  - intros j _. exists rate_limit_error. split; [reflexivity |].
    vm_compute. reflexivity.
  - simpl. unfold MAX_RETRIES. lia.
Defined.

(* ================================================================== *)
(** * List URLs and list URIs                                         *)
(* ================================================================== *)

Lemma split_lacks sep s :
  PyText.lacks sep s = true → PyText.split sep s = [s].
Proof.
  induction s as [|c s IH]; simpl; [done |].
  destruct (Ascii.eqb c sep); simpl; [done |].
  intros Hs. by rewrite (IH Hs).
Qed.

Lemma split_append sep a b :
  PyText.lacks sep a = true →
  PyText.split sep (String.append a (String sep b)) = a :: PyText.split sep b.
Proof.
  induction a as [|c a IH]; simpl.
  - intros _. by rewrite Ascii.eqb_refl.
  - destruct (Ascii.eqb c sep); simpl; [done |].
    intros Ha. by rewrite (IH Ha).
Qed.

(** The parts of a split do not contain the separator. *)
Lemma split_parts_lack sep s :
  Forall (λ p, PyText.lacks sep p = true) (PyText.split sep s).
Proof.
  induction s as [|c s IH]; simpl; [by repeat constructor |].
  destruct (Ascii.eqb c sep) eqn:Hc; [by constructor |].
  destruct (PyText.split sep s) as [|part parts].
  - repeat constructor. simpl. by rewrite Hc.
  - apply Forall_cons in IH as [Hp Hps]. constructor; [| done].
    simpl. by rewrite Hc.
Qed.

Lemma lacks_false sep s :
  PyText.lacks sep s = false →
  ∃ a b, s = String.append a (String sep b) ∧ PyText.lacks sep a = true.
Proof.
  induction s as [|c s IH]; simpl; [done |].
  destruct (Ascii.eqb_spec c sep) as [->|Hne]; simpl.
  - intros _. by exists EmptyString, s.
  - intros Hs. destruct (IH Hs) as (a & b & -> & Ha).
    exists (String c a), b. split; [done |]. simpl.
    destruct (Ascii.eqb_spec c sep); [done |]. exact Ha.
Qed.

Lemma append_append a b c :
  String.append (String.append a b) c = String.append a (String.append b c).
Proof.
  induction a as [|x a IH]; [done |].
  change (String x (String.append (String.append a b) c)
          = String x (String.append a (String.append b c))).
  by rewrite IH.
Qed.

Lemma append_longer a c b : String.append a (String c b) ≠ a.
Proof.
  induction a as [|x a IH]; simpl; [done |]. intros [= H]. by apply IH.
Qed.

(** The URI [at://owner/nsid/rkey], split at the slashes, from the
    owner on. *)
Lemma split_at_uri owner nsid rkey :
  PyText.split "/" (Resolver.at_uri owner nsid rkey)
  = "at:" :: ""
      :: PyText.split "/"
           (String.append owner
              (String "/" (String.append nsid (String "/" rkey)))).
Proof.
  change (Resolver.at_uri owner nsid rkey)
    with (String.append "at:"
            (String "/"
               (String.append ""
                  (String "/"
                     (String.append owner
                        (String "/"
                           (String.append nsid (String "/" rkey)))))))).
  rewrite split_append by reflexivity.
  by rewrite split_append by reflexivity.
Qed.

(** X15.  What the setup stores, the resume reads back.  The list
    URI that [parse_list_url_to_uri] builds for a URL is
    [at://owner/app.bsky.graph.list/rkey] with the URL's fourth path
    part as [rkey]; [list_uri.split("/")[2]], by which a resumed batch
    recovers the owner, gives that owner back exactly when the owner
    contains no slash, which is always so when the URL names a DID
    (an owner that came from [resolve_handle] is not checked). *)
Theorem list_uri_round_trip (D : Directory) (url uri owner : string) :
  Resolver.parse_list_url_to_uri D url = Fine (uri, owner) →
  ∃ rkey,
    nth_error (Resolver.path_parts_of D url) 3 = Some rkey
    ∧ uri = Resolver.at_uri owner "app.bsky.graph.list" rkey
    ∧ (PyText.lacks "/" owner = true ↔
       Resolver.owner_of_list_uri uri = Some owner)
    ∧ (PyText.lacks "/" owner = true →
       PyText.split "/" uri
       = ["at:"; ""; owner; "app.bsky.graph.list"; rkey])
    ∧ (PyText.startswith "did:" (nth 1 (Resolver.path_parts_of D url) "")
       = true →
       PyText.lacks "/" owner = true).
Proof.
  unfold Resolver.parse_list_url_to_uri, Resolver.path_parts_of.
  pose proof (split_parts_lack "/"
                (PyText.strip PyText.is_slash (url_path D url))) as Hparts.
  destruct (PyText.split "/" (PyText.strip PyText.is_slash (url_path D url)))
    as [|p0 [|p1 [|p2 [|p3 [|p4 rest]]]]]; simpl; try done;
    try by destruct (String.eqb p0 "profile").
  destruct (String.eqb p0 "profile"); simpl; [| done].
  destruct (String.eqb p2 "lists"); simpl; [| done].
  apply Forall_cons in Hparts as [_ Hparts].
  apply Forall_cons in Hparts as [Hp1 Hparts].
  apply Forall_cons in Hparts as [_ Hparts].
  apply Forall_cons in Hparts as [Hp3 _].
  destruct (Resolver.owner_did D p1) as [o|m] eqn:Ho; [| done].
  intros [= <- <-]. exists p3. split; [done |]. split; [done |].
  assert (PyText.lacks "/" o = true →
          PyText.split "/" (Resolver.at_uri o "app.bsky.graph.list" p3)
          = ["at:"; ""; o; "app.bsky.graph.list"; p3]) as Hsplit.
  { intros Hlacks. rewrite split_at_uri, (split_append "/" o _ Hlacks).
    rewrite split_append by reflexivity. by rewrite (split_lacks "/" p3 Hp3). }
  split; [split |]; [| | split; [exact Hsplit |]].
  - intros Hlacks. unfold Resolver.owner_of_list_uri.
    by rewrite (Hsplit Hlacks).
  - unfold Resolver.owner_of_list_uri. rewrite split_at_uri.
    generalize (String.append "app.bsky.graph.list" (String "/" p3)).
    intros tail.
    destruct (PyText.lacks "/" o) eqn:Hlacks; [done |].
    destruct (lacks_false "/" o Hlacks) as (a & b & Hab & Ha).
    assert (String.append o (String "/" tail)
            = String.append a (String "/" (String.append b (String "/" tail))))
      as ->.
    { rewrite Hab. by rewrite append_append. }
    rewrite (split_append "/" a _ Ha).
    change (nth_error ("at:" :: "" :: a :: ?l) 2) with (Some a).
    intros [= Heq]. exfalso. apply (append_longer a "/" b). by rewrite <- Hab.
  - intros Hdid. unfold Resolver.owner_did in Ho. rewrite Hdid in Ho.
    by injection Ho as <-.
Qed.

(** The list of the acting identity, named by handle. *)
Lemma list_uri_round_trip_witness :
  ∃ rkey,
    nth_error (Resolver.path_parts_of directory my_list_url) 3 = Some rkey
    ∧ "at://did:plc:me/app.bsky.graph.list/3kabc"
      = Resolver.at_uri "did:plc:me" "app.bsky.graph.list" rkey
    ∧ (PyText.lacks "/" "did:plc:me" = true ↔
       Resolver.owner_of_list_uri "at://did:plc:me/app.bsky.graph.list/3kabc"
       = Some "did:plc:me")
    ∧ (PyText.lacks "/" "did:plc:me" = true →
       PyText.split "/" "at://did:plc:me/app.bsky.graph.list/3kabc"
       = ["at:"; ""; "did:plc:me"; "app.bsky.graph.list"; rkey])
    ∧ (PyText.startswith "did:"
         (nth 1 (Resolver.path_parts_of directory my_list_url) "") = true →
       PyText.lacks "/" "did:plc:me" = true).
Proof.
  apply (list_uri_round_trip directory my_list_url
           "at://did:plc:me/app.bsky.graph.list/3kabc" "did:plc:me").
  vm_compute. reflexivity.
Defined.

(** X16.  The two scripts read a list URL alike:
    [parse_list_url_to_uri] of block_followers.py accepts a URL with a
    result exactly when [parse_url_to_uri] of blocklist.py accepts it
    with that result and its third path part is [lists]. *)
Theorem list_parsers_agree (D : Directory) (url : string)
    (r : string * string) :
  Resolver.parse_list_url_to_uri D url = Fine r
  ↔ Resolver.parse_url_to_uri D url = Fine r
    ∧ nth 2 (Resolver.path_parts_of D url) "" = "lists".
Proof.
  unfold Resolver.parse_list_url_to_uri, Resolver.parse_url_to_uri.
  destruct (Resolver.path_parts_of D url)
    as [|p0 [|p1 [|p2 [|p3 [|p4 rest]]]]]; simpl;
    try (split; [done | by intros [? ?]]);
    try (destruct (String.eqb p0 "profile"); split; [done | by intros [? ?]]).
  - destruct (String.eqb p0 "profile"); simpl;
      [| split; [done | by intros [? ?]]].
    destruct (String.eqb_spec p2 "lists") as [->|Hne]; simpl.
    + split; [done | by intros [? ?]].
    + destruct (String.eqb p2 "post"); split; try done; by intros [? ?].
  - destruct (String.eqb p0 "profile"); simpl;
      [| split; [done | by intros [? ?]]].
    destruct (String.eqb_spec p2 "lists") as [->|Hne]; simpl.
    + destruct (Resolver.owner_did D p1); split; try done; by intros [? ?].
    + split; [done | by intros [? ?]].
  - destruct (String.eqb p0 "profile"); simpl;
      [| split; [done | by intros [? ?]]].
    destruct (String.eqb_spec p2 "lists") as [->|Hne]; simpl.
    + split; [done | by intros [? ?]].
    + destruct (String.eqb p2 "post"); split; try done; by intros [? ?].
Qed.

(* ================================================================== *)
(** * The interactors of [blocklist.py]                               *)
(* ================================================================== *)

Lemma fold_add_new (l : list string) :
  ∀ ks,
    fold_left (λ ks x, if decide (x ∈ ks) then ks else ks ++ [x]) l ks
    = ks ++ filter (λ y, y ∉ ks) (first_occurrences l).
Proof.
  induction l as [|x l IH]; intros ks; simpl.
  - by rewrite filter_nil, app_nil_r.
  - rewrite IH, filter_cons. destruct (decide (x ∈ ks)) as [Hin|Hnin].
    + rewrite decide_False by tauto. f_equal.
      rewrite list_filter_filter. apply list_filter_iff. intros y.
      split; [| tauto]. intros Hy. split; [done |]. by intros ->.
    + rewrite decide_True by done. rewrite <- app_assoc. simpl. do 2 f_equal.
      rewrite list_filter_filter. apply list_filter_iff. intros y.
      rewrite elem_of_app, list_elem_of_singleton. tauto.
Qed.

Lemma keys_fold_dict_set users :
  ∀ d,
    keys (fold_left (λ d user, dict_set (did user) user d) users d)
    = fold_left (λ ks x, if decide (x ∈ ks) then ks else ks ++ [x])
        (map did users) (keys d).
Proof.
  induction users as [|u users IH]; intros d; simpl; [done |].
  by rewrite IH, keys_dict_set.
Qed.

(** X17.  The interactors are visited in the order in which their ids
    first appear among the likers followed by the reposters: a dict
    keeps a key where it was first inserted. *)
Theorem interactors_order (likers reposters : list Profile) :
  keys (dict_of_users (likers ++ reposters))
  = first_occurrences (map did (likers ++ reposters)).
Proof.
  unfold dict_of_users. rewrite keys_fold_dict_set, fold_add_new. simpl.
  apply filter_all. intros y _. apply not_elem_of_nil.
Qed.

Section Interactors.

Variable E : Env.
Variable me : string.

Lemma sent_get_likes uri cursor v :
  preserves (λ w, map fst (requests w) = v) (get_likes E uri cursor).
Proof.
  unfold get_likes.
  apply keeping_bind; [apply keeping_gets |]. intros ?.
  apply keeping_bind; [by apply keeping_modify |]. intros ?.
  apply keeping_bind; [apply (frame_blocking _ inert_subjects) |]. intros ?.
  apply keeping_ret.
Qed.

Lemma sent_get_reposted_by uri cursor v :
  preserves (λ w, map fst (requests w) = v) (get_reposted_by E uri cursor).
Proof.
  unfold get_reposted_by.
  apply keeping_bind; [apply keeping_gets |]. intros ?.
  apply keeping_bind; [by apply keeping_modify |]. intros ?.
  apply keeping_bind; [apply (frame_blocking _ inert_subjects) |]. intros ?.
  apply keeping_ret.
Qed.

Lemma sent_fetch_likers fuel uri v :
  ∀ all cursor,
    preserves (λ w, map fst (requests w) = v) (fetch_likers E fuel uri all cursor).
Proof.
  induction fuel as [|fuel IH]; intros all cursor; simpl; [apply keeping_ret |].
  apply keeping_bind; [apply sent_get_likes |].
  intros [likes c|e]; [| apply keeping_ret].
  destruct (truthy c); [apply IH | apply keeping_ret].
Qed.

Lemma sent_fetch_reposters fuel uri v :
  ∀ all cursor,
    preserves (λ w, map fst (requests w) = v)
      (fetch_reposters E fuel uri all cursor).
Proof.
  induction fuel as [|fuel IH]; intros all cursor; simpl; [apply keeping_ret |].
  apply keeping_bind; [apply sent_get_reposted_by |].
  intros [ps c|e]; [| apply keeping_ret].
  destruct (truthy c); [apply IH | apply keeping_ret].
Qed.

(** The loop over the interactors sends one request per interactor
    other than the acting identity, and counts each of them once. *)
Lemma add_interactors_counted items :
  ∀ c w c' w',
    add_interactors E me items c w = (Ok c', w') →
    counted c'
    = counted c + Z.of_nat (length (filter (λ x, x ≠ me) (keys items)))
    ∧ map fst (requests w')
      = map fst (requests w) ++ filter (λ x, x ≠ me) (keys items)
    ∧ added_count c ≤ added_count c'
    ∧ skipped_count c ≤ skipped_count c'
    ∧ failed_count c ≤ failed_count c'.
Proof.
  induction items as [|[x p] items IH]; intros c w c' w'.
  - intros [= <- <-]. simpl. rewrite app_nil_r. repeat split; lia.
  - change (keys ((x, p) :: items)) with (x :: keys items).
    rewrite filter_cons. simpl.
    destruct (String.eqb_spec x me) as [->|Hne].
    + rewrite decide_False by tauto. apply IH.
    + rewrite decide_True by done.
      pose proof (create_record_requests E x (map fst (requests w)) w eq_refl)
        as Hreq.
      unfold bind.
      destruct (create_record E x w) as [[r|?] w1]; [| done].
      simpl in Hreq.
      destruct r as [|e]; [| destruct (is_duplicate_record e)];
        intros Hrun; destruct (IH _ _ _ _ Hrun) as (Hc & Hs & Ha & Hk & Hf);
        unfold counted in *; simpl in *;
        (split; [lia |]); (split; [by rewrite Hs, Hreq, <- app_assoc |]);
        repeat split; lia.
Qed.

End Interactors.

(** X18.  The tallies of blocklist.py.  When
    [add_interactors_to_blocklist] returns, one create request was sent
    for each interactor other than the acting identity, in the order of
    the interactors and with no retry whatever the reply, and the three
    tallies together count exactly these interactors. *)
Theorem interactors_counted (E : Env) (me : string) (fuel : nat)
    (uri : string) (w w' : World) (items : list (string * Profile))
    (c : Counts) :
  add_interactors_to_blocklist E me fuel uri w = (Ok (Some (items, c)), w') →
  counted c = Z.of_nat (length (filter (λ x, x ≠ me) (keys items)))
  ∧ map fst (requests w')
    = map fst (requests w) ++ filter (λ x, x ≠ me) (keys items)
  ∧ 0 ≤ added_count c ∧ 0 ≤ skipped_count c ∧ 0 ≤ failed_count c.
Proof.
  unfold add_interactors_to_blocklist, bind, ret.
  pose proof (sent_fetch_likers E fuel uri (map fst (requests w)) [] None w
                eq_refl) as H1.
  destruct (fetch_likers E fuel uri [] None w) as [[[likers|]|?] w1]; try done.
  pose proof (sent_fetch_reposters E fuel uri (map fst (requests w)) [] None
                w1 H1) as H2.
  destruct (fetch_reposters E fuel uri [] None w1) as [[[reposters|]|?] w2];
    try done.
  destruct (add_interactors E me _ no_counts w2) as [[c'|?] w3] eqn:Hrun;
    try done.
  intros [= <- <- <-].
  destruct (add_interactors_counted E me _ _ _ _ _ Hrun)
    as (Hc & Hs & Ha & Hk & Hf).
  simpl in H2. rewrite H2 in Hs. unfold counted in *. simpl in *.
  repeat split; try done; lia.
Qed.

(** The renamed account: one interactor, one request, one tally. *)
Lemma interactors_counted_witness :
  let w := boot init_data Missing 0 in
  let out := add_interactors_to_blocklist renamed "did:plc:me" 1
               "at://did:plc:author/app.bsky.feed.post/3kxyz" w in
  let items := [("did:plc:dana", new_name)] in
  let c := {| added_count := 1; skipped_count := 0; failed_count := 0 |} in
  counted c = Z.of_nat (length (filter (λ x, x ≠ "did:plc:me") (keys items)))
  ∧ map fst (requests out.2)
    = map fst (requests w) ++ filter (λ x, x ≠ "did:plc:me") (keys items)
  ∧ 0 ≤ added_count c ∧ 0 ≤ skipped_count c ∧ 0 ≤ failed_count c.
Proof.
  intros w out items c.
  apply (interactors_counted renamed "did:plc:me" 1
           "at://did:plc:author/app.bsky.feed.post/3kxyz" w out.2 items c).
  vm_compute. reflexivity.
Defined.

(* ================================================================== *)
(** * The orchestrator                                                *)
(* ================================================================== *)

(** [add_followers_to_blocklist] by what it finds on disk. *)
Lemma add_followers_to_blocklist_cases E me D O fuel tu lu w :
  Orchestrator.add_followers_to_blocklist E me D O fuel tu lu w
  = match file w with
    | Stored d =>
        if String.eqb (Orchestrator.choice O) "restart" then
          Orchestrator.log_in_and_run E me D O fuel tu lu
            (upd_data (λ _, init_data) (set_file Missing w))
        else if negb (String.eqb (Orchestrator.choice O) "y") then
          (Raise (SystemExit 0), upd_data (λ _, d) w)
        else
          Orchestrator.log_in_and_run E me D O fuel tu lu
            (upd_data (λ _, d) w)
    | Undecodable =>
        (Raise UnicodeDecodeError, upd_data (λ _, init_data) w)
    | Missing =>
        Orchestrator.log_in_and_run E me D O fuel tu lu
          (upd_data (λ _, init_data) w)
    | Unreadable =>
        Orchestrator.log_in_and_run E me D O fuel tu lu
          (say (WarnCouldNotLoad OSError) (upd_data (λ _, init_data) w))
    | Malformed =>
        Orchestrator.log_in_and_run E me D O fuel tu lu
          (say (WarnCouldNotLoad JSONDecodeError)
             (upd_data (λ _, init_data) w))
    end.
Proof.
  unfold Orchestrator.add_followers_to_blocklist, bind at 1, modify.
  unfold bind at 1, load, bind at 1, gets.
  destruct w as [d0 f t k dl rq rd jn ib cs]. simpl.
  destruct f as [| | | |d]; simpl; try reflexivity.
  destruct (String.eqb (Orchestrator.choice O) "restart"); [reflexivity |].
  destruct (String.eqb (Orchestrator.choice O) "y"); reflexivity.
Qed.

Lemma inert_reads : inert reads.
Proof. by split. Qed.

Lemma inert_requests : inert requests.
Proof. by split. Qed.

(** A view that shows neither the clock, nor the document, nor the
    create requests is the same after a run as before. *)
Section Quiet.

Context {T : Type} (view : World → T) (Hview : inert view).
Hypothesis view_issue : ∀ x w, view (issue x w) = view w.
Hypothesis view_mark :
  ∀ x st w, view (snapshot (upd_data (mark x st) w)) = view w.
Variable E : Env.
Variable me : string.
Variable v : T.

Let at_v (w : World) : Prop := view w = v.

Lemma quiet_blocking d : preserves at_v (blocking E d).
Proof. apply (frame_blocking _ Hview). Qed.

Lemma quiet_mark_processed x st : preserves at_v (mark_processed x st).
Proof. intros w Hw. unfold at_v. simpl. by rewrite view_mark. Qed.

Lemma quiet_save : preserves at_v (save E).
Proof. apply (frame_save _ Hview E v _ quiet_blocking). Qed.

Lemma quiet_process_one x : preserves at_v (process_one E me x).
Proof.
  unfold process_one.
  apply keeping_bind; [apply (frame_can_proceed _ Hview) |]. intros ok.
  apply keeping_bind;
    [apply (frame_quota_wait _ Hview E v _ quiet_blocking) |]. intros ?.
  destruct (String.eqb x me).
  - apply keeping_bind; [apply quiet_mark_processed |]. intros ?.
    apply quiet_save.
  - apply keeping_bind; [apply quiet_blocking |]. intros ?.
    apply keeping_bind;
      [apply (frame_add_attempts _ E v _ quiet_blocking view_issue) |].
    intros st.
    apply keeping_bind; [apply quiet_mark_processed |]. intros ?.
    apply keeping_bind; [apply (frame_increment_hourly _ Hview) |]. intros ?.
    apply keeping_bind; [apply keeping_gets |]. intros current.
    destruct (current mod 10 =? 0)%nat; [apply quiet_save | apply keeping_ret].
Qed.

Lemma quiet_run_batch_process : preserves at_v (run_batch_process E me).
Proof.
  unfold run_batch_process.
  apply keeping_bind; [apply keeping_gets |]. intros remaining.
  apply keeping_bind; [| intros ?; apply quiet_save].
  apply keeping_try_except; [| | done].
  - apply keeping_for_each. intros x _. apply quiet_process_one.
  - intros e handler He. destruct e; simplify_eq/=.
    apply keeping_bind; [apply quiet_save | intros ?; by apply keeping_raise].
Qed.

End Quiet.

Section Orchestration.

Variable E : Env.
Variable me : string.
Variable D : Directory.
Variable O : Operator.

(** Enumerating followers sends no create request and leaves the
    document and the state file alone. *)
Lemma still_fetch_all_followers_loop fuel target v :
  ∀ all cursor retries,
    preserves (λ w, (requests w, data w, file w) = v)
      (fetch_all_followers_loop E fuel target all cursor retries).
Proof.
  assert (∀ d, preserves (λ w, (requests w, data w, file w) = v)
                 (blocking E d)) as HB.
  { intros d w Hw. unfold blocking.
    by destruct (ctrl_c E (tick w)). }
  induction fuel as [|fuel IH]; intros all cursor retries;
    [apply keeping_ret |].
  rewrite fetch_all_followers_loop_unfold.
  apply keeping_bind; [apply HB |]. intros ?.
  apply keeping_bind.
  - unfold get_followers.
    apply keeping_bind; [apply keeping_gets |]. intros i.
    apply keeping_bind; [by apply keeping_modify |]. intros ?.
    apply keeping_bind; [apply HB |]. intros ?.
    destruct (followers_page E i target cursor); [| apply keeping_ret].
    apply keeping_bind; [by apply keeping_modify |]. intros ?.
    apply keeping_ret.
  - intros [fs c|e].
    + destruct (truthy c); [apply IH | apply keeping_ret].
    + destruct (is_rate_limit_error e); [| apply keeping_ret].
      destruct (MAX_RETRIES <=? S retries)%nat; [apply keeping_ret |].
      apply keeping_bind; [apply HB | intros ?; apply IH].
Qed.

Lemma requests_fetch_all_followers_loop fuel target v :
  ∀ all cursor retries,
    preserves (λ w, requests w = v)
      (fetch_all_followers_loop E fuel target all cursor retries).
Proof.
  intros all cursor retries w Hw.
  pose proof (still_fetch_all_followers_loop fuel target
                (requests w, data w, file w) all cursor retries w eq_refl)
    as H.
  destruct (fetch_all_followers_loop E fuel target all cursor retries w)
    as [[?|?] w']; injection H as -> _ _; exact Hw.
Qed.

(** A setup whose "Proceed with blocking?" is not answered by [y]
    sends no create request. *)
Lemma requests_set_up_declined fuel tu lu v :
  Orchestrator.yes (proceed_answer O) = false →
  preserves (λ w, requests w = v) (Orchestrator.set_up_batch E me D O fuel tu lu).
Proof.
  intros Hno. unfold Orchestrator.set_up_batch.
  destruct (Resolver.resolve_user_did D tu) as [[tdid thandle]|m];
    [| by apply keeping_raise].
  destruct (Resolver.parse_list_url_to_uri D lu) as [[uri owner]|m];
    [| by apply keeping_raise].
  apply keeping_bind.
  { destruct (negb (String.eqb me owner)); [| apply keeping_ret].
    destruct (Orchestrator.yes (owner_answer O));
      [apply keeping_ret | by apply keeping_raise]. }
  intros ?. apply keeping_bind;
    [apply requests_fetch_all_followers_loop |].
  intros [[|f fs]|]; try apply keeping_ret.
  rewrite Hno. by apply keeping_raise.
Qed.

Lemma requests_log_in_declined fuel tu lu w :
  Orchestrator.yes (proceed_answer O) = false →
  truthy (target_did (data w)) = false →
  requests (Orchestrator.log_in_and_run E me D O fuel tu lu w).2 = requests w.
Proof.
  intros Hno Hfresh. unfold Orchestrator.log_in_and_run.
  destruct (login_error O); [reflexivity |].
  unfold bind at 1, gets. rewrite Hfresh. simpl negb. cbv iota.
  by apply (preserves_run (λ w0, requests w0 = requests w) _ w
              (requests_set_up_declined fuel tu lu (requests w) Hno)).
Qed.

End Orchestration.

(** X19.  No create request without consent.  Whatever the service,
    the directory and the state file are, [add_followers_to_blocklist]
    sends a create request only if login succeeded and the operator
    either answered [y] to "Proceed with blocking?", or answered [y]
    (in any letter case, blanks around it ignored) to "Resume this
    batch?" for a state file that holds a batch with a target. *)
Theorem no_request_without_consent (E : Env) (me : string) (D : Directory)
    (O : Operator) (fuel : nat) (tu lu : string) (w : World) :
  requests
    (Orchestrator.add_followers_to_blocklist E me D O fuel tu lu w).2
    ≠ requests w →
  login_error O = None
  ∧ (Orchestrator.yes (proceed_answer O) = true
     ∨ ∃ d, file w = Stored d
            ∧ truthy (target_did d) = true
            ∧ Orchestrator.choice O = "y").
Proof.
  intros Hsent. split.
  - destruct (login_error O) as [e|] eqn:Hlogin; [| done].
    exfalso. apply Hsent.
    rewrite add_followers_to_blocklist_cases.
    unfold Orchestrator.log_in_and_run. rewrite Hlogin.
    destruct (file w); try reflexivity.
    destruct (String.eqb (Orchestrator.choice O) "restart"); [reflexivity |].
    by destruct (String.eqb (Orchestrator.choice O) "y").
  - destruct (Orchestrator.yes (proceed_answer O)) eqn:Hyes; [by left |].
    right.
    assert (∀ w0, truthy (target_did (data w0)) = false →
              requests w0 = requests w →
              requests (Orchestrator.log_in_and_run E me D O fuel tu lu w0).2
              = requests w) as Hfresh.
    { intros w0 Ht <-. by apply requests_log_in_declined. }
    rewrite add_followers_to_blocklist_cases in Hsent.
    destruct (file w) as [| | | |d] eqn:Hfile;
      try (exfalso; apply Hsent; by apply Hfresh); [by destruct Hsent |].
    destruct (String.eqb (Orchestrator.choice O) "restart");
      [exfalso; apply Hsent; by apply Hfresh |].
    destruct (String.eqb_spec (Orchestrator.choice O) "y") as [Hy|Hn];
      [| by destruct Hsent].
    simpl negb in Hsent. cbv iota in Hsent.
    destruct (truthy (target_did d)) eqn:Ht; [by exists d |].
    exfalso. apply Hsent. by apply Hfresh.
Qed.

(** A new batch over the followers of [shifting_pages]. *)
Lemma no_request_without_consent_witness :
  login_error consenting = None
  ∧ (Orchestrator.yes (proceed_answer consenting) = true
     ∨ ∃ d, file (boot init_data Missing 0) = Stored d
            ∧ truthy (target_did d) = true
            ∧ Orchestrator.choice consenting = "y").
Proof.
  apply (no_request_without_consent shifting_pages "did:plc:me" directory
           consenting 3 "did:plc:target" my_list_url
           (boot init_data Missing 0)).
  intros H. vm_compute in H. discriminate H.
Defined.

(** X20.  Restart starts over.  With a batch on file and the answer
    [restart] to "Resume this batch?", [add_followers_to_blocklist]
    removes the file and goes on exactly as if it had been started
    with no state file: nothing of the old batch is used. *)
Theorem restart_is_fresh (E : Env) (me : string) (D : Directory)
    (O : Operator) (fuel : nat) (tu lu : string) (w : World) (d : Data) :
  file w = Stored d →
  Orchestrator.choice O = "restart" →
  Orchestrator.add_followers_to_blocklist E me D O fuel tu lu w
  = Orchestrator.add_followers_to_blocklist E me D O fuel tu lu
      (set_file Missing w).
Proof.
  intros Hfile Hchoice. rewrite !add_followers_to_blocklist_cases.
  rewrite Hfile, Hchoice. simpl. by destruct w.
Qed.

Lemma restart_is_fresh_witness :
  let w := boot init_data (Stored finished_batch) 0 in
  Orchestrator.add_followers_to_blocklist shifting_pages "did:plc:me"
    directory restarting 3 "did:plc:target" my_list_url w
  = Orchestrator.add_followers_to_blocklist shifting_pages "did:plc:me"
      directory restarting 3 "did:plc:target" my_list_url
      (set_file Missing w).
Proof.
  intros w.
  apply (restart_is_fresh shifting_pages "did:plc:me" directory restarting 3
           "did:plc:target" my_list_url w finished_batch);
    reflexivity.
Defined.

Lemma inert_enumeration :
  inert (λ w, (reads w, inbox w, followers (data w))).
Proof. by split. Qed.

(** X21.  A resumed batch comes from the file alone.  With a batch on
    file that has a target and the answer [y] to "Resume this batch?",
    [add_followers_to_blocklist] does not look at the target user and
    the list URL it was given, nor at the directory: any other
    arguments give the same run.  It reads nothing from the service
    (no follower is fetched again), and its candidates are those of
    the file. *)
Theorem resume_uses_the_file (E : Env) (me : string) (D : Directory)
    (O : Operator) (fuel : nat) (tu lu : string) (w : World) (d : Data) :
  file w = Stored d →
  truthy (target_did d) = true →
  Orchestrator.choice O = "y" →
  (∀ D' fuel' tu' lu',
     Orchestrator.add_followers_to_blocklist E me D O fuel tu lu w
     = Orchestrator.add_followers_to_blocklist E me D' O fuel' tu' lu' w)
  ∧ let w' :=
      (Orchestrator.add_followers_to_blocklist E me D O fuel tu lu w).2 in
    reads w' = reads w ∧ inbox w' = inbox w
    ∧ followers (data w') = followers d.
Proof.
  intros Hfile Ht Hchoice.
  assert (∀ D' fuel' tu' lu',
            Orchestrator.add_followers_to_blocklist E me D' O fuel' tu' lu' w
            = match login_error O with
              | Some _ => (Raise (SystemExit 1), upd_data (λ _, d) w)
              | None => Orchestrator.resume_batch E me O (upd_data (λ _, d) w)
              end) as Heq.
  { intros D' fuel' tu' lu'. rewrite add_followers_to_blocklist_cases.
    rewrite Hfile, Hchoice. simpl.
    unfold Orchestrator.log_in_and_run.
    destruct (login_error O); [reflexivity |].
    unfold bind at 1, gets. simpl. by rewrite Ht. }
  split; [intros; by rewrite !Heq |].
  rewrite Heq.
  set (view := λ w : World, (reads w, inbox w, followers (data w))).
  assert (view (match login_error O with
                | Some _ => (Raise (SystemExit 1), upd_data (λ _, d) w)
                | None => Orchestrator.resume_batch E me O (upd_data (λ _, d) w)
                end).2 = (reads w, inbox w, followers d)) as Hview.
  { destruct (login_error O); [reflexivity |].
    apply (preserves_run (λ w0, view w0 = (reads w, inbox w, followers d)));
      [| reflexivity].
    unfold Orchestrator.resume_batch.
    apply keeping_bind; [apply keeping_gets |]. intros d0.
    destruct (list_uri d0); [| apply keeping_ret].
    destruct (Resolver.owner_of_list_uri _); [| apply keeping_ret].
    unfold Orchestrator.run_and_clean_up.
    apply keeping_bind.
    { apply (quiet_run_batch_process view inert_enumeration); [done |].
      intros x st w0. unfold view. simpl. by rewrite followers_mark. }
    intros ?. apply keeping_bind; [| intros ?; apply keeping_ret].
    destruct (Orchestrator.yes (delete_answer O)); [| apply keeping_ret].
    unfold Orchestrator.delete.
    apply keeping_bind; [apply keeping_gets |]. intros present.
    destruct present; [by apply keeping_modify | apply keeping_ret]. }
  cbv zeta. unfold view in Hview. by injection Hview as -> -> ->.
Qed.

Lemma resume_uses_the_file_witness :
  let w := boot init_data (Stored small_batch) 0 in
  let out := Orchestrator.add_followers_to_blocklist
               (service (λ _, Created) never) "did:plc:me" directory
               consenting 3 "did:plc:target" my_list_url w in
  reads out.2 = reads w ∧ inbox out.2 = inbox w
  ∧ followers (data out.2) = followers small_batch.
Proof.
  intros w.
  apply (resume_uses_the_file (service (λ _, Created) never) "did:plc:me"
           directory consenting 3 "did:plc:target" my_list_url w small_batch);
    reflexivity.
Defined.

(** X22.  The final save is not protected.  When the loop of
    [run_batch_process] has recorded every candidate and Ctrl-C
    arrives while the final save of l.373 writes the file, the
    [except KeyboardInterrupt] clause does not apply: the run ends with
    an uncaught [KeyboardInterrupt] instead of [sys.exit(0)], the state
    file is left truncated, and the next [load] answers [False] with
    the "Could not load state file" warning, so that the finished
    batch is no longer known. *)
Theorem interrupted_final_save (E : Env) (me : string) (w w1 : World) :
  for_each (get_remaining (data w)) (process_one E me) w = (Ok tt, w1) →
  ctrl_c E (tick w1) = true →
  delivered w1 = false →
  ∃ w',
    run_batch_process E me w = (Raise KeyboardInterrupt, w')
    ∧ processed (data w') = processed (data w) ++ get_remaining (data w)
    ∧ file w' = Malformed
    ∧ ∀ t, ∃ w'',
        load (boot init_data (file w') t) = (Ok false, w'')
        ∧ data w'' = init_data
        ∧ console w'' = [WarnCouldNotLoad JSONDecodeError].
Proof.
  intros Hloop Hctrl Hdel.
  pose proof (for_each_progress E me (get_remaining (data w))
                (processed (data w)) w eq_refl) as Hprog.
  rewrite Hloop in Hprog.
  rewrite run_batch_process_cases, Hloop.
  unfold save, bind, gets, modify, blocking. simpl.
  rewrite Hctrl. simpl.
  eexists. split; [reflexivity |]. simpl. split; [exact Hprog |].
  split; [reflexivity |]. intros t. by eexists.
Qed.

Lemma interrupted_final_save_witness :
  let E := service (λ _, Created) sixth in
  let w := boot small_batch Missing 0 in
  ∃ w',
    run_batch_process E "did:plc:me" w = (Raise KeyboardInterrupt, w')
    ∧ processed (data w') = processed (data w) ++ get_remaining (data w)
    ∧ file w' = Malformed
    ∧ ∀ t, ∃ w'',
        load (boot init_data (file w') t) = (Ok false, w'')
        ∧ data w'' = init_data
        ∧ console w'' = [WarnCouldNotLoad JSONDecodeError].
Proof.
  intros E w.
  apply (interrupted_final_save E "did:plc:me" w
           (for_each (get_remaining (data w)) (process_one E "did:plc:me") w).2);
    vm_compute; reflexivity.
Defined.

(* ================================================================== *)
(** * How far the file lags behind                                    *)
(* ================================================================== *)

Lemma mod_10_succ n :
  (1 ≤ n)%nat → (n mod 10 ≠ 0)%nat → (S ((n - 1) mod 10) = n mod 10)%nat.
Proof.
  intros Hn Hr.
  pose proof (Nat.div_mod_eq n 10). pose proof (Nat.div_mod_eq (n - 1) 10).
  pose proof (Nat.mod_upper_bound n 10 ltac:(lia)).
  pose proof (Nat.mod_upper_bound (n - 1) 10 ltac:(lia)).
  lia.
Qed.

Section Durable.

Variable E : Env.
Variable me : string.
Hypothesis Hc : calm E.

(** What depends on the file and on the processed ids only is not
    touched by waiting, by the window bookkeeping or by requests. *)
Section Stable.

Variable Φ : StateFile → list string → Prop.

Let K (w : World) : Prop := Φ (file w) (processed (data w)).

Lemma stable_blocking d : steady K (blocking E d).
Proof. intros w Hw. rewrite (blocking_calm E d w Hc). exact Hw. Qed.

Lemma stable_hourly (c : Z) (s : option Z) :
  steady K (modify (upd_data (set_hourly c s))).
Proof. intros w Hw. exact Hw. Qed.

Lemma stable_can_proceed : steady K can_proceed.
Proof.
  unfold can_proceed, reset_hourly_if_needed.
  apply keeping_bind; [| intros ?; apply keeping_bind;
                                     [apply keeping_gets
                                     | intros ?; apply keeping_ret]].
  apply keeping_bind; [apply keeping_gets |]. intros d.
  apply keeping_bind; [apply keeping_gets |]. intros t.
  destruct (hour_started d) as [hs|]; [| apply stable_hourly].
  destruct (HOUR <=? t - hs); [apply stable_hourly | apply keeping_ret].
Qed.

Lemma stable_wait_chunks n : ∀ ws, steady K (wait_chunks E n ws).
Proof.
  induction n as [|n IH]; intros ws; simpl; [apply keeping_ret |].
  destruct (0 <? ws); [| apply keeping_ret].
  apply keeping_bind; [apply stable_blocking | intros ?; apply IH].
Qed.

Lemma stable_add_attempts n x : ∀ r, steady K (add_attempts E n x r).
Proof.
  induction n as [|n IH]; intros r; [apply keeping_ret |].
  rewrite add_attempts_unfold.
  destruct (r <? MAX_RETRIES)%nat; [| apply keeping_ret].
  apply keeping_bind.
  - unfold create_record.
    apply keeping_bind; [apply keeping_gets |]. intros ?.
    apply keeping_bind; [by apply keeping_modify |]. intros ?.
    apply keeping_bind; [apply stable_blocking |]. intros ?.
    apply keeping_ret.
  - intros [|e]; [apply keeping_ret |].
    destruct (is_duplicate e); [apply keeping_ret |].
    destruct (is_rate_limit_error e); [| apply keeping_ret].
    destruct (MAX_RETRIES <=? S r)%nat; [apply keeping_ret |].
    apply keeping_bind; [apply stable_blocking | intros ?; apply IH].
Qed.

Lemma stable_increment_hourly : steady K increment_hourly.
Proof. intros w Hw. exact Hw. Qed.

End Stable.

(** The file holds a document whose processed ids are those of the
    document in memory but for a tail of [k] ids at most. *)
Let lags (k : nat) (w : World) : Prop :=
  ∃ df tail, file w = Stored df
             ∧ processed (data w) = processed df ++ tail
             ∧ (length tail ≤ k)%nat.

Let behind (w : World) : Prop :=
  lags (length (processed (data w)) mod 10) w.

Lemma lags_save P : hoare P (save E) (λ _, lags 0) (λ _ _, False).
Proof.
  intros w _. unfold save, bind, gets, modify.
  rewrite (blocking_calm E 0 _ Hc). simpl.
  eexists _, []. split; [reflexivity |]. simpl.
  split; [by rewrite app_nil_r | lia].
Qed.

Lemma lags_0_behind w : lags 0 w → behind w.
Proof.
  intros (df & tail & Hf & Hp & Hl). exists df, tail.
  split; [done |]. split; [done | lia].
Qed.

Lemma lags_wait_for_next_hour : steady (lags 0) (wait_for_next_hour E).
Proof.
  unfold wait_for_next_hour.
  apply keeping_bind; [apply keeping_gets |]. intros d.
  destruct (hour_started d) as [hs|]; [| apply keeping_ret].
  apply keeping_bind; [apply keeping_gets |]. intros t. cbv zeta.
  destruct (0 <? hs + HOUR - t); [| apply keeping_ret].
  apply keeping_bind;
    [apply (stable_wait_chunks (λ f p, ∃ df tail, f = Stored df
                                        ∧ p = processed df ++ tail
                                        ∧ (length tail ≤ 0)%nat)) |].
  intros ?. apply keeping_bind; [apply keeping_gets |]. intros t'.
  apply keeping_bind; [| intros ?; apply lags_save].
  by apply keeping_modify.
Qed.

Lemma behind_process_one x : steady behind (process_one E me x).
Proof.
  set (Φ := λ (f : StateFile) (p : list string),
         ∃ df tail, f = Stored df ∧ p = processed df ++ tail
                    ∧ (length tail ≤ length p mod 10)%nat).
  unfold process_one.
  apply keeping_bind; [apply (stable_can_proceed Φ) |]. intros ok.
  apply keeping_bind.
  { destruct ok; [apply keeping_ret |].
    eapply hoare_bind; [apply lags_save |]. intros ?.
    eapply hoare_conseq; [apply lags_wait_for_next_hour | done | | done].
    intros ? w Hw. by apply lags_0_behind. }
  intros ?. destruct (String.eqb x me).
  - eapply hoare_bind with (R := λ _ _, True).
    + by intros w _.
    + intros ?.
      eapply hoare_conseq; [apply (lags_save (λ _, True)) | done | | done].
      intros ? w Hw. by apply lags_0_behind.
  - apply keeping_bind; [apply (stable_blocking Φ) |]. intros ?.
    apply keeping_bind; [apply (stable_add_attempts Φ) |]. intros st.
    intros w (df & tail & Hf & Hp & Hl).
    unfold bind at 1, mark_processed, bind at 1, modify.
    unfold bind at 1, increment_hourly, modify.
    unfold bind at 1, gets.
    match goal with
    | |- match (if _ then _ else _) ?w1 with _ => _ end => set (w2 := w1)
    end.
    destruct (length (processed (data w2)) mod 10 =? 0)%nat eqn:Hmod.
    + pose proof (lags_save (λ _, True) w2 I) as Hs.
      destruct (save E w2) as [[?|?] w3]; [| done].
      by apply lags_0_behind.
    + apply Nat.eqb_neq in Hmod.
      assert (processed (data w2) = processed (data w) ++ [x]) as Hp2
        by apply processed_mark.
      assert (file w2 = Stored df) as Hf2 by exact Hf.
      change (behind w2). unfold behind, lags. clearbody w2.
      exists df, (tail ++ [x]). split; [exact Hf2 |].
      split; [by rewrite Hp2, Hp, app_assoc |].
      rewrite <- (mod_10_succ (length (processed (data w2)))); [| | exact Hmod].
      * rewrite Hp2, !length_app. change (length [x]) with 1%nat.
        replace (length (processed (data w)) + 1 - 1)%nat
          with (length (processed (data w))) by lia.
        lia.
      * rewrite Hp2, length_app. change (length [x]) with 1%nat. lia.
Qed.

Lemma behind_for_each l : steady behind (for_each l (process_one E me)).
Proof. apply keeping_for_each. intros x _. apply behind_process_one. Qed.

End Durable.

(** X23.  The file lags at most nine candidates behind.  In a run
    without Ctrl-C that starts with the document on file (as after the
    setup's save or after [load]), at the end of every round of the
    loop the state file holds a document whose processed ids are a
    prefix of those in memory, short of them by nine ids at most: a
    process that is killed between two rounds loses the record of at
    most nine candidates. *)
Theorem at_most_nine_unsaved (E : Env) (me : string) (l : list string)
    (w : World) :
  calm E →
  file w = Stored (data w) →
  ∃ w' df tail,
    for_each l (process_one E me) w = (Ok tt, w')
    ∧ file w' = Stored df
    ∧ processed (data w') = processed df ++ tail
    ∧ (length tail ≤ 9)%nat.
Proof.
  intros Hc Hfile.
  destruct (steady_run _ _ w (behind_for_each E me Hc l))
    as ([] & w' & Hrun & df & tail & Hf & Hp & Hl).
  { exists (data w), []. split; [done |]. simpl.
    split; [by rewrite app_nil_r | lia]. }
  exists w', df, tail. repeat split; try done.
  pose proof (Nat.mod_upper_bound (length (processed (data w'))) 10
                ltac:(lia)).
  lia.
Qed.

Lemma at_most_nine_unsaved_witness :
  let E := service (λ _, Created) never in
  let w := boot small_batch (Stored small_batch) 0 in
  ∃ w' df tail,
    for_each ["did:plc:alice"; "did:plc:me"] (process_one E "did:plc:me") w
    = (Ok tt, w')
    ∧ file w' = Stored df
    ∧ processed (data w') = processed df ++ tail
    ∧ (length tail ≤ 9)%nat.
Proof.
  intros E w.
  apply (at_most_nine_unsaved E "did:plc:me"
           ["did:plc:alice"; "did:plc:me"] w);
    [apply calm_service | reflexivity].
Defined.

(* ================================================================== *)
(** * Setting up a batch                                              *)
(* ================================================================== *)

(** X24.  A new batch is on file before the first create request.
    Started without a state file, with a login that succeeds, a target
    and a list URL that resolve, an operator who agrees, and followers
    [fs] returned by [fetch_all_followers], the orchestrator runs
    [run_batch_process] on the fresh batch [new_batch] over [fs]: all
    of [fs] remain, the tallies are zero, the document has been saved
    as it is, and no create request has been sent up to then. *)
Theorem setup_persists_new_batch (E : Env) (me : string) (D : Directory)
    (O : Operator) (fuel : nat) (tu lu : string) (w w1 : World)
    (tdid thandle uri owner : string) (fs : list Profile) :
  calm E →
  file w = Missing →
  login_error O = None →
  Resolver.resolve_user_did D tu = Fine (tdid, thandle) →
  Resolver.parse_list_url_to_uri D lu = Fine (uri, owner) →
  me = owner ∨ Orchestrator.yes (owner_answer O) = true →
  fetch_all_followers E fuel tdid (upd_data (λ _, init_data) w)
    = (Ok (Some fs), w1) →
  fs ≠ [] →
  Orchestrator.yes (proceed_answer O) = true →
  ∃ w2,
    Orchestrator.add_followers_to_blocklist E me D O fuel tu lu w
    = Orchestrator.run_and_clean_up E me O w2
    ∧ data w2
      = set_last_updated (Some (now w1))
          (new_batch tdid thandle uri fs (now w1))
    ∧ file w2 = Stored (data w2)
    ∧ requests w2 = requests w
    ∧ get_remaining (data w2) = map did fs
    ∧ tally (data w2).
Proof.
  intros Hc Hfile Hlogin Hres Hparse Howner Hfetch Hfs Hyes.
  pose proof (still_fetch_all_followers_loop E fuel tdid
                (requests w, init_data, file w) [] None 0%nat
                (upd_data (λ _, init_data) w) eq_refl) as Hstill.
  unfold fetch_all_followers in Hfetch. rewrite Hfetch in Hstill.
  injection Hstill as Hreq Hdata _.
  eexists. split.
  { rewrite add_followers_to_blocklist_cases, Hfile.
    unfold Orchestrator.log_in_and_run. rewrite Hlogin.
    unfold bind at 1, gets.
    change (negb (truthy (target_did (data (upd_data (λ _, init_data) w)))))
      with true.
    cbv iota.
    unfold Orchestrator.set_up_batch. rewrite Hres, Hparse.
    assert ((if negb (String.eqb me owner)
             then if Orchestrator.yes (owner_answer O) then ret tt
                  else sys_exit 0
             else ret tt) = ret tt) as ->.
    { destruct Howner as [->| ->]; [by rewrite String.eqb_refl |].
      by destruct (negb _). }
    unfold bind at 1, ret. unfold bind at 1.
    unfold fetch_all_followers. rewrite Hfetch.
    destruct fs as [|f fs]; [done |]. rewrite Hyes.
    unfold bind at 1, gets. unfold bind at 1, modify.
    unfold bind at 1, save, bind, gets, modify.
    rewrite (blocking_calm E 0 _ Hc). reflexivity. }
  simpl. rewrite Hdata. repeat split; try done.
  - unfold get_remaining. simpl. apply filter_all. intros x _.
    apply not_elem_of_empty.
  - apply list_subseteq_nil.
Qed.

Lemma setup_persists_new_batch_witness :
  let w := boot init_data Missing 0 in
  let fs := [alice; bob; bob; carol] in
  let w1 := (fetch_all_followers shifting_pages 3 "did:plc:target"
               (upd_data (λ _, init_data) w)).2 in
  let uri := "at://did:plc:me/app.bsky.graph.list/3kabc" in
  ∃ w2,
    Orchestrator.add_followers_to_blocklist shifting_pages "did:plc:me"
      directory consenting 3 "did:plc:target" my_list_url w
    = Orchestrator.run_and_clean_up shifting_pages "did:plc:me" consenting w2
    ∧ data w2
      = set_last_updated (Some (now w1))
          (new_batch "did:plc:target" "target.example" uri fs (now w1))
    ∧ file w2 = Stored (data w2)
    ∧ requests w2 = requests w
    ∧ get_remaining (data w2) = map did fs
    ∧ tally (data w2).
Proof.
  intros w fs w1 uri.
  apply (setup_persists_new_batch shifting_pages "did:plc:me" directory
           consenting 3 "did:plc:target" my_list_url w w1
           "did:plc:target" "target.example" uri "did:plc:me" fs);
    try reflexivity.
  - by intros k.
  - by left.
  - discriminate.
Defined.

(** X25.  blocklist.py asks once at most.  Its
    [add_interactors_to_blocklist] reads from the service or sends a
    create request only if login succeeded and both URLs were accepted
    by [parse_url_to_uri], and, when the list belongs to someone else,
    the operator answered [y] to "Continue anyway?"; there is no
    further confirmation before the create requests are sent. *)
Theorem interactors_gate (E : Env) (me : string) (D : Directory)
    (O : Operator) (fuel : nat) (post_url list_url : string) (w : World) :
  let out :=
    Interactors.add_interactors_to_blocklist E me D O fuel post_url list_url w
  in
  (reads out.2, requests out.2) ≠ (reads w, requests w) →
  login_error O = None
  ∧ ∃ post_uri post_owner list_uri list_owner,
      Resolver.parse_url_to_uri D post_url = Fine (post_uri, post_owner)
      ∧ Resolver.parse_url_to_uri D list_url = Fine (list_uri, list_owner)
      ∧ (me = list_owner ∨ Orchestrator.yes (owner_answer O) = true)
      ∧ out = add_interactors_to_blocklist E me fuel post_uri w.
Proof.
  unfold Interactors.add_interactors_to_blocklist. cbv zeta.
  destruct (login_error O); [by intros [] |].
  destruct (Resolver.parse_url_to_uri D post_url) as [[post_uri o1]|m];
    [| by intros []].
  destruct (Resolver.parse_url_to_uri D list_url) as [[list_uri o2]|m];
    [| by intros []].
  intros Hout. split; [done |]. exists post_uri, o1, list_uri, o2.
  split; [done |]. split; [done |].
  destruct (String.eqb_spec me o2) as [->|Hne]; simpl in *.
  - split; [by left | done].
  - destruct (Orchestrator.yes (owner_answer O)); [| by destruct Hout].
    split; [by right | done].
Qed.

Lemma interactors_gate_witness :
  login_error consenting = None
  ∧ ∃ post_uri post_owner list_uri list_owner,
      Resolver.parse_url_to_uri directory liked_post_url
      = Fine (post_uri, post_owner)
      ∧ Resolver.parse_url_to_uri directory my_list_url
        = Fine (list_uri, list_owner)
      ∧ ("did:plc:me" = list_owner
         ∨ Orchestrator.yes (owner_answer consenting) = true)
      ∧ Interactors.add_interactors_to_blocklist renamed "did:plc:me"
          directory consenting 1 liked_post_url my_list_url
          (boot init_data Missing 0)
        = add_interactors_to_blocklist renamed "did:plc:me" 1 post_uri
            (boot init_data Missing 0).
Proof.
  apply (interactors_gate renamed "did:plc:me" directory consenting 1
           liked_post_url my_list_url (boot init_data Missing 0)).
  intros H. vm_compute in H. discriminate H.
Defined.

(* ================================================================== *)
(** * Telling rate limits                                             *)
(* ================================================================== *)

Lemma contains_longer n m h :
  PyStr.contains (String.append n m) h = true → PyStr.contains n h = true.
Proof.
  intros Hc. destruct (contains_split _ _ Hc) as (a & b & ->).
  rewrite append_append. apply contains_append.
Qed.

(** X2.  [is_rate_limit_error] looks for three markers.  Its
    fourth test, for [ratelimit], never decides: a text that contains
    [ratelimit] contains [rate].  So an error counts as a rate limit
    exactly when [str(e)], in lower case, contains [429], [rate] or
    [too many]; the arguments of the error are not looked at, and any
    text with [rate] in it qualifies. *)
Theorem rate_limit_markers (e : AtProtocolError) :
  is_rate_limit_error e
  = PyStr.contains "429" (PyStr.lower (str_e e))
    || PyStr.contains "rate" (PyStr.lower (str_e e))
    || PyStr.contains "too many" (PyStr.lower (str_e e)).
Proof.
  unfold is_rate_limit_error. cbv zeta.
  destruct (PyStr.contains "ratelimit" (PyStr.lower (str_e e))) eqn:Hrl.
  - rewrite (contains_longer "rate" "limit" _ Hrl).
    by rewrite !orb_true_r.
  - by rewrite orb_false_r.
Qed.
